(** * git-connect: the ball simulation engine of [logic.py]

    A shallow embedding of [logic.py] (colour mixing, [Ball], [Inventory],
    [DeleteZone], [GameLogic]) and the properties of its specification.

    Conventions of the embedding.
    - A Python [float] is an IEEE-754 binary64 number: Rocq's primitive
      [float], whose operations round to nearest-even and whose comparisons
      are false on NaN, as Python's are.
    - A Python [int] is a [Z]; the conversion of an [int] to a [float] is
      written out ([float_of_int]), with its [OverflowError].
    - Ball objects are mutable and shared between [GameLogic.balls],
      [Inventory.balls] and the lists the methods return.  The objects live in
      a store ([heap]), the lists hold references ([ref]) into it.
    - A reference of Python always points to an object.  Where the model
      looks one up in the store, the case of no object does nothing; no state
      of the engine reaches it ([inv_valid]).
    - A raised exception leaves the mutations made so far in place: a method
      returns its result, or the exception, together with the state. *)

From Stdlib Require Import ZArith Lia Bool Floats.
From stdpp Require Import list.
Local Open Scope Z_scope.

(** ** Python integers and the arithmetic of [mix_colors_rgb] *)

Definition Color : Type := Z * Z * Z.
Definition Vec2 : Type := float * float.

(** [clamp(value, min_value, max_value)]; the code calls it on [int]s only. *)
Definition clamp (value min_value max_value : Z) : Z :=
  Z.max min_value (Z.min max_value value).

(** The integer value of [float(n)], or [None] for Python's [OverflowError]
    ("int too large to convert to float").  An [int] of at most 53 bits is
    converted exactly; a longer one is rounded to 53 significant bits, ties
    to even; a result of [2^1024] or more does not exist as a binary64. *)
Definition float_of_int (n : Z) : option Z :=
  let e := Z.log2 (Z.abs n) - 52 in
  if e <=? 0 then Some n
  else
    let q := Z.abs n / 2 ^ e in
    let r := Z.abs n mod 2 ^ e in
    let half := 2 ^ (e - 1) in
    let q' := if (half <? r) || ((r =? half) && Z.odd q) then q + 1 else q in
    if 2 ^ 1024 <=? q' * 2 ^ e then None else Some (Z.sgn n * (q' * 2 ^ e)).

(** [round(f / 2.0)] for a float [f] of integer value: halving is exact, and
    Python 3's [round] sends a tie to the even neighbour. *)
Definition round_half (f : Z) : Z :=
  let q := f / 2 in
  if Z.even f then q else if Z.even q then q else q + 1.

(** The local function [avg] of [mix_colors_rgb]:
    [int(round((a + b) / 2.0))]. *)
Definition avg (a b : Z) : option Z :=
  f ← float_of_int (a + b); Some (round_half f).

Definition mix_colors_rgb (c1 c2 : Color) : option Color :=
  let '(r1, g1, b1) := c1 in
  let '(r2, g2, b2) := c2 in
  r ← avg r1 r2;
  g ← avg g1 g2;
  b ← avg b1 b2;
  Some (clamp r 0 255, clamp g 0 255, clamp b 0 255).

(** The rounding rule in the words of the specification: the mean of the two
    channels rounded to the nearest integer, a tie going away from zero. *)
Definition round_half_away_mean (a b : Z) : Z :=
  let s := a + b in
  if 0 <=? s then (s + 1) / 2 else - ((1 - s) / 2).

Definition mixColors_spec (c1 c2 : Color) : Color :=
  let '(r1, g1, b1) := c1 in
  let '(r2, g2, b2) := c2 in
  (clamp (round_half_away_mean r1 r2) 0 255,
   clamp (round_half_away_mean g1 g2) 0 255,
   clamp (round_half_away_mean b1 b2) 0 255).

(** [m] is the mean of [a] and [b] rounded to the nearest integer, a tie
    going to the even neighbour. *)
Definition half_even_mean (a b m : Z) : Prop :=
  Z.abs (2 * m - (a + b)) <= 1 /\ (2 * m <> a + b -> Z.even m = true).

(** The sum of the two channels is in the range of [float]. *)
Definition summable (a b : Z) : Prop := Z.abs (a + b) < 2 ^ 1024 - 2 ^ 970.

Definition red (c : Color) : Z := fst (fst c).
Definition green (c : Color) : Z := snd (fst c).
Definition blue (c : Color) : Z := snd c.

(** ** Objects and exceptions *)

Inductive exn : Set := OverflowError | ValueError.

(** The outcome of a call: the value returned or the exception raised. *)
Inductive result (A : Type) : Type :=
| Returns (a : A)
| Raises (e : exn).
Arguments Returns {A} a.
Arguments Raises {A} e.

(** A reference to a [Ball] object: its index in the store. *)
Abbreviation ref := nat (only parsing).

(** ** [Ball] *)

Record Ball : Type := mkBall {
  id : Z;
  position : Vec2;
  velocity : Vec2;
  radius : float;
  color : Color;
  in_inventory : bool
}.

Definition set_position (p : Vec2) (b : Ball) : Ball :=
  mkBall (id b) p (velocity b) (radius b) (color b) (in_inventory b).
Definition set_velocity (v : Vec2) (b : Ball) : Ball :=
  mkBall (id b) (position b) v (radius b) (color b) (in_inventory b).
Definition set_color (c : Color) (b : Ball) : Ball :=
  mkBall (id b) (position b) (velocity b) (radius b) c (in_inventory b).
Definition set_in_inventory (f : bool) (b : Ball) : Ball :=
  mkBall (id b) (position b) (velocity b) (radius b) (color b) f.

(** [Ball.move] *)
Definition move (b : Ball) (dt : float) : Ball :=
  if in_inventory b then b
  else
    let '(x, y) := position b in
    let '(vx, vy) := velocity b in
    set_position (x + vx * dt, y + vy * dt)%float b.

(** The [__eq__] that [@dataclass] generates: the tuples of the fields are
    compared, in the order of their declaration.  ([==] on floats is false on
    NaN; Python's shortcut for identical tuple objects is not modelled, it
    only matters between two objects of the same [id].) *)
Definition Vec2_eq (a b : Vec2) : bool :=
  (fst a =? fst b)%float && (snd a =? snd b)%float.
Definition Color_eq (a b : Color) : bool :=
  (red a =? red b) && (green a =? green b) && (blue a =? blue b).
Definition Ball_eq (a b : Ball) : bool :=
  (id a =? id b) && Vec2_eq (position a) (position b)
  && Vec2_eq (velocity a) (velocity b) && (radius a =? radius b)%float
  && Color_eq (color a) (color b)
  && Bool.eqb (in_inventory a) (in_inventory b).

(** What [list.remove] and [in] compare with: identity first, then [==]. *)
Definition py_eq (h : list Ball) (r1 r2 : ref) : bool :=
  (r1 =? r2)%nat
  || match h !! r1, h !! r2 with
     | Some b1, Some b2 => Ball_eq b1 b2
     | _, _ => false
     end.

(** [x in l] *)
Definition list_contains (h : list Ball) (x : ref) (l : list ref) : bool :=
  existsb (fun y => py_eq h y x) l.

(** [l.remove(x)]: the first element equal to [x] goes; [None] is Python's
    [ValueError] when there is none. *)
Fixpoint list_remove (h : list Ball) (x : ref) (l : list ref)
  : option (list ref) :=
  match l with
  | [] => None
  | y :: l' =>
      if py_eq h y x then Some l'
      else l'' ← list_remove h x l'; Some (y :: l'')
  end.

(** [itertools.combinations(l, 2)] *)
Fixpoint combinations2 {A : Type} (l : list A) : list (A * A) :=
  match l with
  | [] => []
  | x :: t => map (pair x) t ++ combinations2 t
  end.

(** ** [DeleteZone] *)

Record DeleteZone : Set := mkDeleteZone {
  x1 : float;
  y1 : float;
  x2 : float;
  y2 : float
}.

Definition contains (dz : DeleteZone) (position : Vec2) : bool :=
  let '(x, y) := position in
  ((x1 dz <=? x) && (x <=? x2 dz) && ((y1 dz <=? y) && (y <=? y2 dz)))%float.

(** ** [GameLogic]

    The state of the engine: the fields of the dataclass, the list of
    [Inventory.balls] in [inventory], and the store [heap] of the [Ball]
    objects the two lists refer to. *)

Record GameLogic : Type := mkGameLogic {
  width : float;
  height : float;
  delete_zone : DeleteZone;
  heap : list Ball;
  balls : list ref;
  inventory : list ref;
  mouse_suck_radius : float;
  default_spit_speed : float;
  _next_ball_id : Z
}.

Definition set_heap (h : list Ball) (g : GameLogic) : GameLogic :=
  mkGameLogic (width g) (height g) (delete_zone g) h (balls g) (inventory g)
    (mouse_suck_radius g) (default_spit_speed g) (_next_ball_id g).
Definition set_balls (l : list ref) (g : GameLogic) : GameLogic :=
  mkGameLogic (width g) (height g) (delete_zone g) (heap g) l (inventory g)
    (mouse_suck_radius g) (default_spit_speed g) (_next_ball_id g).
Definition set_inventory (l : list ref) (g : GameLogic) : GameLogic :=
  mkGameLogic (width g) (height g) (delete_zone g) (heap g) (balls g) l
    (mouse_suck_radius g) (default_spit_speed g) (_next_ball_id g).

(** Assignment to a field of the object [r]. *)
Definition modify (f : Ball -> Ball) (r : ref) (g : GameLogic) : GameLogic :=
  set_heap (alter f r (heap g)) g.

(** [GameLogic(width, height, delete_zone)]: a fresh engine. *)
Definition new_GameLogic (w h : float) (dz : DeleteZone) : GameLogic :=
  mkGameLogic w h dz [] [] [] 80%float 300%float 1.

(** Two states that differ in the store and the collections only. *)
Definition same_frame (g g' : GameLogic) : Prop :=
  width g' = width g /\ height g' = height g /\
  delete_zone g' = delete_zone g /\
  mouse_suck_radius g' = mouse_suck_radius g /\
  default_spit_speed g' = default_spit_speed g /\
  _next_ball_id g' = _next_ball_id g.

(** *** [Inventory] *)

Definition add_ball (ball : ref) (g : GameLogic) : GameLogic :=
  let g := modify (set_in_inventory true) ball g in
  set_inventory (inventory g ++ [ball]) g.

Definition remove_ball (ball : ref) (g : GameLogic) : result unit * GameLogic :=
  match list_remove (heap g) ball (inventory g) with
  | None => (Raises ValueError, g)
  | Some l =>
      (Returns tt, modify (set_in_inventory false) ball (set_inventory l g))
  end.

Definition pop_last (g : GameLogic) : option ref * GameLogic :=
  match last (inventory g) with
  | None => (None, g)
  | Some ball =>
      let g := set_inventory (removelast (inventory g)) g in
      (Some ball, modify (set_in_inventory false) ball g)
  end.

(** *** [GameLogic.create_ball] *)

Definition create_ball (g : GameLogic) (position velocity : Vec2)
    (radius : float) (color : Color) : ref * GameLogic :=
  let ball := mkBall (_next_ball_id g) position velocity radius color false in
  let r := length (heap g) in
  (r, mkGameLogic (width g) (height g) (delete_zone g) (heap g ++ [ball])
        (balls g ++ [r]) (inventory g) (mouse_suck_radius g)
        (default_spit_speed g) (_next_ball_id g + 1)).

(** *** Helpers of the engine *)

Definition _distance_sq (a b : Vec2) : float :=
  let '(ax, ay) := a in
  let '(bx, by') := b in
  let dx := (ax - bx)%float in
  let dy := (ay - by')%float in
  (dx * dx + dy * dy)%float.

(** One axis of [_keep_ball_inside_bounds]: the new coordinate and the new
    velocity component. *)
Definition bounce (x vx r dim : float) : float * float :=
  if (x - r <? 0)%float then (r, abs vx)
  else if (dim <? x + r)%float then ((dim - r)%float, (- abs vx)%float)
  else (x, vx).

Definition keep_inside (w h : float) (b : Ball) : Ball :=
  let '(x, y) := position b in
  let '(vx, vy) := velocity b in
  let '(x, vx) := bounce x vx (radius b) w in
  let '(y, vy) := bounce y vy (radius b) h in
  set_velocity (vx, vy) (set_position (x, y) b).

Definition _keep_ball_inside_bounds (g : GameLogic) (ball : ref) : GameLogic :=
  modify (keep_inside (width g) (height g)) ball g.

(** The test of [_mix_colors_on_collisions]: the circles touch or overlap. *)
Definition touching (b1 b2 : Ball) : bool :=
  let min_dist := (radius b1 + radius b2)%float in
  (_distance_sq (position b1) (position b2) <=? min_dist * min_dist)%float.

(** The body of the loop of [_mix_colors_on_collisions] for the pair
    [(b1, b2)]. *)
Definition collide (g : GameLogic) (p : ref * ref) : result unit * GameLogic :=
  match heap g !! p.1, heap g !! p.2 with
  | Some b1, Some b2 =>
      if in_inventory b1 || in_inventory b2 then (Returns tt, g)
      else if touching b1 b2 then
          match mix_colors_rgb (color b1) (color b2) with
          | None => (Raises OverflowError, g)
          | Some mixed =>
              (Returns tt,
               modify (set_color mixed) p.2 (modify (set_color mixed) p.1 g))
          end
        else (Returns tt, g)
  | _, _ => (Returns tt, g)
  end.

(** A [for] loop over a list fixed at its start, whose body may raise. *)
Fixpoint for_each {A : Type} (body : GameLogic -> A -> result unit * GameLogic)
    (l : list A) (g : GameLogic) : result unit * GameLogic :=
  match l with
  | [] => (Returns tt, g)
  | x :: l' =>
      match body g x with
      | (Returns _, g') => for_each body l' g'
      | (Raises e, g') => (Raises e, g')
      end
  end.

Definition _mix_colors_on_collisions (g : GameLogic) : result unit * GameLogic :=
  for_each collide (combinations2 (balls g)) g.

Definition in_delete_zone (g : GameLogic) (ball : ref) : bool :=
  match heap g !! ball with
  | Some b => contains (delete_zone g) (position b)
  | None => false
  end.

Definition _remove_balls_in_delete_zone (g : GameLogic) : GameLogic :=
  set_balls (filter (fun ball => ¬ in_delete_zone g ball) (balls g)) g.

(** *** [GameLogic.update] *)

(** The body of the first loop: [ball.move(dt)], then
    [self._keep_ball_inside_bounds(ball)]. *)
Definition move_and_keep (dt : float) (g : GameLogic) (ball : ref) : GameLogic :=
  _keep_ball_inside_bounds (modify (fun b => move b dt) ball g) ball.

Definition update (g : GameLogic) (dt : float) : result unit * GameLogic :=
  let g := fold_left (move_and_keep dt) (balls g) g in
  match _mix_colors_on_collisions g with
  | (Returns _, g) => (Returns tt, _remove_balls_in_delete_zone g)
  | (Raises e, g) => (Raises e, g)
  end.

(** *** [GameLogic.suck_balls_with_mouse] *)

(** [max_count is not None and len(moved) >= max_count] *)
Definition limit_reached (max_count : option Z) (moved : list ref) : bool :=
  match max_count with
  | Some n => n <=? Z.of_nat (length moved)
  | None => false
  end.

Definition within (g : GameLogic) (mouse_pos : Vec2) (radius_sq : float)
    (ball : ref) : bool :=
  match heap g !! ball with
  | Some b => (_distance_sq (position b) mouse_pos <=? radius_sq)%float
  | None => false
  end.

(** The loop over [list(self.balls)]; [snapshot] is what is left of the
    copy. *)
Fixpoint suck_loop (mouse_pos : Vec2) (radius_sq : float) (max_count : option Z)
    (snapshot : list ref) (moved : list ref) (g : GameLogic)
  : result (list ref) * GameLogic :=
  match snapshot with
  | [] => (Returns moved, g)
  | ball :: rest =>
      if limit_reached max_count moved then (Returns moved, g)
      else if within g mouse_pos radius_sq ball then
        match list_remove (heap g) ball (balls g) with
        | None => (Raises ValueError, g)
        | Some l =>
            suck_loop mouse_pos radius_sq max_count rest (moved ++ [ball])
              (add_ball ball (set_balls l g))
        end
      else suck_loop mouse_pos radius_sq max_count rest moved g
  end.

Definition suck_balls_with_mouse (g : GameLogic) (mouse_pos : Vec2)
    (radius : option float) (max_count : option Z)
  : result (list ref) * GameLogic :=
  let radius := default (mouse_suck_radius g) radius in
  let radius_sq := (radius * radius)%float in
  suck_loop mouse_pos radius_sq max_count (balls g) [] g.

(** *** [GameLogic.spit_ball_from_inventory] *)

(** The ball [b] once spat at [mouse_pos] with the velocity [v]. *)
Definition spat (mouse_pos v : Vec2) (b : Ball) : Ball :=
  mkBall (id b) mouse_pos v (radius b) (color b) false.

Section Spit.

(** [math.hypot], a function of the C library. *)
Variable hypot : float -> float -> float.

(** The velocity the spat ball gets. *)
Definition spit_velocity (direction : option Vec2) (speed : float) : Vec2 :=
  let '(vx, vy) :=
    match direction with
    | None => (0, -1)%float
    | Some (vx, vy) =>
        let length := hypot vx vy in
        if (length =? 0)%float then (0, -1)%float
        else (vx / length, vy / length)%float
    end in
  (vx * speed, vy * speed)%float.

(** The part of the method after the ball is chosen. *)
Definition launch (g : GameLogic) (mouse_pos : Vec2) (direction : option Vec2)
    (speed : option float) (ball : ref) : GameLogic :=
  let g := modify (set_position mouse_pos) ball g in
  let speed := default (default_spit_speed g) speed in
  let g := modify (set_velocity (spit_velocity direction speed)) ball g in
  let g := modify (set_in_inventory false) ball g in
  set_balls (balls g ++ [ball]) g.

Definition spit_ball_from_inventory (g : GameLogic) (mouse_pos : Vec2)
    (direction : option Vec2) (speed : option float) (ball : option ref)
  : result (option ref) * GameLogic :=
  match ball with
  | Some ball =>
      if list_contains (heap g) ball (inventory g) then
        match remove_ball ball g with
        | (Raises e, g) => (Raises e, g)
        | (Returns _, g) =>
            (Returns (Some ball), launch g mouse_pos direction speed ball)
        end
      else (Returns None, g)
  | None =>
      match pop_last g with
      | (None, g) => (Returns None, g)
      | (Some ball, g) =>
          (Returns (Some ball), launch g mouse_pos direction speed ball)
      end
  end.

(** ** The engine as a transition system *)

Inductive call : Type :=
| CreateBall (position velocity : Vec2) (radius : float) (color : Color)
| Update (dt : float)
| Suck (mouse_pos : Vec2) (radius : option float) (max_count : option Z)
| Spit (mouse_pos : Vec2) (direction : option Vec2) (speed : option float)
       (ball : option ref).

(** The state a call leaves, whether it returns or raises. *)
Definition exec (c : call) (g : GameLogic) : GameLogic :=
  match c with
  | CreateBall p v r col => (create_ball g p v r col).2
  | Update dt => (update g dt).2
  | Suck mp r n => (suck_balls_with_mouse g mp r n).2
  | Spit mp d s b => (spit_ball_from_inventory g mp d s b).2
  end.

Inductive reachable : GameLogic -> Prop :=
| reachable_new w h dz : reachable (new_GameLogic w h dz)
| reachable_exec c g : reachable g -> reachable (exec c g).

(** The state [g'] is [g] after the ball [r], at the place of the
    inventory between [pre] and [post], was spat. *)
Definition spat_from (g : GameLogic) (mp : Vec2) (d : option Vec2)
    (s : option float) (r : ref) (pre post : list ref) (g' : GameLogic)
  : Prop :=
  inventory g = pre ++ r :: post /\
  inventory g' = pre ++ post /\
  balls g' = balls g ++ [r] /\
  heap g' =
    alter (spat mp (spit_velocity d (default (default_spit_speed g) s)))
      r (heap g) /\
  same_frame g g'.

End Spit.

(** A sample of [math.hypot] for evaluating the engine on examples. *)
Definition hypot_sqrt (x y : float) : float := sqrt (x * x + y * y)%float.

(** The demonstration at the end of [logic.py]. *)
Definition demo_logic : GameLogic :=
  let g := new_GameLogic 800 600 (mkDeleteZone 0 560 200 600) in
  let g := (create_ball g (100, 100)%float (50, 0)%float 20 (255, 0, 0)).2 in
  (create_ball g (200, 100)%float (-50, 0)%float 20 (0, 0, 255)).2.

(** ** The update of the specification

    The four sub-steps, each a pass over the whole collection that completes
    before the next begins. *)

Definition move_pass (dt : float) (g : GameLogic) : GameLogic :=
  fold_left (fun g ball => modify (fun b => move b dt) ball g) (balls g) g.

Definition clamp_pass (g : GameLogic) : GameLogic :=
  fold_left _keep_ball_inside_bounds (balls g) g.

Definition update_passes (g : GameLogic) (dt : float) : result unit * GameLogic :=
  let g := move_pass dt g in
  let g := clamp_pass g in
  match _mix_colors_on_collisions g with
  | (Returns _, g) => (Returns tt, _remove_balls_in_delete_zone g)
  | (Raises e, g) => (Raises e, g)
  end.

(** What the first loop of [update] makes of a world ball. *)
Definition stepped (g : GameLogic) (dt : float) (b : Ball) : Ball :=
  keep_inside (width g) (height g) (move b dt).

(** ** Well-formed states *)

(** The invariant of the engine.  References point into the store; no
    reference occurs twice in the two collections together; a ball carries
    the flag exactly when the inventory holds it; the [id]s follow the order
    of creation; the tunable parameters keep their defaults. *)
Record Inv (g : GameLogic) : Prop := mkInv {
  inv_valid : forall r : ref,
    r ∈ balls g ++ inventory g -> is_Some (heap g !! r);
  inv_nodup : NoDup (balls g ++ inventory g);
  inv_flag : forall (r : ref) b,
    heap g !! r = Some b -> (in_inventory b = true <-> r ∈ inventory g);
  inv_ids : forall (r : ref) b, heap g !! r = Some b -> id b = 1 + Z.of_nat r;
  inv_next : _next_ball_id g = 1 + Z.of_nat (length (heap g));
  inv_radius : mouse_suck_radius g = 80%float;
  inv_speed : default_spit_speed g = 300%float
}.

(** Two balls that differ in colour only. *)
Definition recoloured (b b' : Ball) : Prop := exists c, b' = set_color c b.

(** A channel, a colour, the world's colours that [mix_colors_rgb] can
    average without leaving the range of [float]. *)
Definition channel_ok (c : Z) : Prop := 2 * Z.abs c < 2 ^ 1024 - 2 ^ 970.
Definition color_ok (c : Color) : Prop :=
  channel_ok (red c) /\ channel_ok (green c) /\ channel_ok (blue c).
Definition colors_ok (g : GameLogic) : Prop :=
  forall (r : ref) b, r ∈ balls g -> heap g !! r = Some b -> color_ok (color b).


(** [g'] is [g] with some balls among [l] given a new colour. *)
Definition repainted (l : list ref) (g g' : GameLogic) : Prop :=
  same_frame g g' /\ balls g' = balls g /\ inventory g' = inventory g /\
  forall r : ref,
    heap g' !! r = heap g !! r
    \/ (r ∈ l /\ exists b c,
          heap g !! r = Some b /\ heap g' !! r = Some (set_color c b)).

(** The colours of the balls in [l] are in range. *)
Definition safe_on (l : list ref) (g : GameLogic) : Prop :=
  forall (r : ref) b, r ∈ l -> heap g !! r = Some b -> color_ok (color b).

(** The stores [h] and [h'] hold the same objects, with the same [id] and
    the same flag. *)
Definition heap_agree (h h' : list Ball) : Prop :=
  forall r : ref,
    match h !! r, h' !! r with
    | Some b, Some b' => id b' = id b /\ in_inventory b' = in_inventory b
    | None, None => True
    | _, _ => False
    end.

(** The store [h] with the flag set on the objects of [l]. *)
Definition flagged (l : list ref) (h : list Ball) : list Ball :=
  fold_left (fun h r => alter (set_in_inventory true) r h) l h.

(** The balls [suck_balls_with_mouse] is to move: those in range, the first
    [max_count] of them when there is a limit. *)
Definition in_reach (g : GameLogic) (mouse_pos : Vec2) (radius : float)
    (max_count : option Z) : list ref :=
  let hits :=
    filter (fun ball => within g mouse_pos (radius * radius)%float ball)
      (balls g) in
  match max_count with
  | Some n => take (Z.to_nat n) hits
  | None => hits
  end.

(** No two objects of the store have the same [id]. *)
Definition distinct_ids (h : list Ball) : Prop :=
  forall (r r' : ref) b b',
    h !! r = Some b -> h !! r' = Some b' -> id b = id b' -> r = r'.

(** The balls the loop of [suck_balls_with_mouse] still takes: the hits
    among what is left of the copy, up to what is left of the limit. *)
Definition pick (max_count : option Z) (moved hits : list ref) : list ref :=
  match max_count with
  | Some n => take (Z.to_nat (n - Z.of_nat (length moved))) hits
  | None => hits
  end.


(** ** Signs of binary64 numbers *)

(** A number below zero, a number above zero, a number at most zero, a
    number at least zero. *)
Definition sf_negative (s : spec_float) : bool :=
  match s with
  | S754_infinity true | S754_finite true _ _ => true
  | _ => false
  end.
Definition sf_positive (s : spec_float) : bool :=
  match s with
  | S754_infinity false | S754_finite false _ _ => true
  | _ => false
  end.
Definition sf_nonpositive (s : spec_float) : bool :=
  match s with
  | S754_zero _ | S754_infinity true | S754_finite true _ _ => true
  | _ => false
  end.
Definition sf_nonnegative (s : spec_float) : bool :=
  match s with
  | S754_zero _ | S754_infinity false | S754_finite false _ _ => true
  | _ => false
  end.

(** What the specification asks of one axis of the boundary clamp: [x] and
    [vx] are the coordinate and the velocity component after the move, [x']
    and [vx'] after the clamp. *)
Definition axis_clamped (x vx rad dim x' vx' : float) : Prop :=
  ((x - rad <? 0)%float = true ->
     x' = rad /\ vx' = abs vx /\ (0 <=? vx')%float = true) /\
  ((x - rad <? 0)%float = false -> (dim <? x + rad)%float = true ->
     x' = (dim - rad)%float /\ vx' = (- abs vx)%float
     /\ (vx' <=? 0)%float = true) /\
  ((x - rad <? 0)%float = false -> (dim <? x + rad)%float = false ->
     x' = x /\ vx' = vx).

(** ** Sample states *)

(** The demonstration after its two balls were sucked at (150, 100). *)
Definition demo_sucked : GameLogic :=
  (suck_balls_with_mouse demo_logic (150, 100)%float None None).2.

(** A ball at the left wall, moving to the left. *)
Definition wall_ball : Ball :=
  mkBall 1 (0, 100)%float (-50, 0)%float 20 (255, 0, 0) false.
Definition wall_logic : GameLogic :=
  (create_ball (new_GameLogic 800 600 (mkDeleteZone 0 560 200 600))
     (0, 100)%float (-50, 0)%float 20 (255, 0, 0)).2.

(** Two overlapping balls, red and blue. *)
Definition overlap_red : Ball :=
  mkBall 1 (100, 100)%float (50, 0)%float 20 (255, 0, 0) false.

(** A ball falling into the delete zone. *)
Definition zone_ball : Ball :=
  mkBall 1 (100, 550)%float (0, 60)%float 20 (255, 0, 0) false.
Definition zone_logic : GameLogic :=
  (create_ball (new_GameLogic 800 600 (mkDeleteZone 0 560 200 600))
     (100, 550)%float (0, 60)%float 20 (255, 0, 0)).2.

(** ** Runs of the engine

    The calls of a run, the balls they create and the balls that the
    delete zone removes in their frames. *)

(** The centre of the ball [ball], moved and clamped by a frame of time
    step [dt], is in the delete zone. *)
Definition falls_in_zone (g : GameLogic) (dt : float) (ball : ref) : bool :=
  match heap g !! ball with
  | Some b => contains (delete_zone g) (position (stepped g dt b))
  | None => false
  end.

(** The world balls that [update(dt)] removes from the state [g]: those
    that fall in the delete zone, and none when the call raises. *)
Definition removed_by_zone (g : GameLogic) (dt : float) : list ref :=
  match (update g dt).1 with
  | Returns _ => filter (fun ball => falls_in_zone g dt ball) (balls g)
  | Raises _ => []
  end.

(** The ball that the call [c] creates, the balls that the delete zone
    removes in it. *)
Definition created_by (c : call) (g : GameLogic) : list ref :=
  match c with
  | CreateBall p v rad col => [(create_ball g p v rad col).1]
  | _ => []
  end.

Definition purged_by (c : call) (g : GameLogic) : list ref :=
  match c with
  | Update dt => removed_by_zone g dt
  | _ => []
  end.

Section Runs.

Variable hypot : float -> float -> float.

(** The state after the calls of a list, one after the other. *)
Definition run (calls : list call) (g : GameLogic) : GameLogic :=
  fold_left (fun g c => exec hypot c g) calls g.

(** The balls created, the balls removed by the delete zone, in the calls
    of a list made one after the other from the state [g]. *)
Fixpoint created (calls : list call) (g : GameLogic) : list ref :=
  match calls with
  | [] => []
  | c :: calls => created_by c g ++ created calls (exec hypot c g)
  end.

Fixpoint purged (calls : list call) (g : GameLogic) : list ref :=
  match calls with
  | [] => []
  | c :: calls => purged_by c g ++ purged calls (exec hypot c g)
  end.

End Runs.

(** ** Further notions

    Notions for the properties of the code beyond its specification:
    colours of bytes, runs of the engine, and sample states. *)

(** A colour of three bytes. *)
Definition byte_color (c : Color) : Prop :=
  0 <= red c <= 255 /\ 0 <= green c <= 255 /\ 0 <= blue c <= 255.

(** Two objects with the same fields, the first of them in the
    inventory. *)
Definition twin_a : Ball := mkBall 1 (0, 0)%float (0, 0)%float 10 (1, 2, 3) true.
Definition twin_logic : GameLogic :=
  mkGameLogic 800 600 (mkDeleteZone 0 560 200 600) [twin_a; twin_a] []
    [0%nat] 80 300 3.

(** [Inventory.__len__] *)
Definition __len__ (g : GameLogic) : Z := Z.of_nat (length (inventory g)).

(** Every ball of the store, in a collection or not, has a colour with
    the property [P]. *)
Definition store_colors (P : Color -> Prop) (g : GameLogic) : Prop :=
  forall (r : ref) b, heap g !! r = Some b -> P (color b).

(** A call that creates no ball of a colour without the property [P]. *)
Definition valid_call (P : Color -> Prop) (c : call) : Prop :=
  match c with
  | CreateBall _ _ _ col => P col
  | _ => True
  end.

(** The call returned. *)
Definition returns {A : Type} (o : result A) : bool :=
  match o with
  | Returns _ => true
  | Raises _ => false
  end.

Section Returns.

Variable hypot : float -> float -> float.

(** The call [c], made in the state [g], returns. *)
Definition call_returns (c : call) (g : GameLogic) : bool :=
  match c with
  | CreateBall _ _ _ _ => true
  | Update dt => returns (update g dt).1
  | Suck mp r n => returns (suck_balls_with_mouse g mp r n).1
  | Spit mp d s b => returns (spit_ball_from_inventory hypot g mp d s b).1
  end.

End Returns.

(** A world of two overlapping balls, one with a channel beyond the range
    of [float]. *)
Definition glare_logic : GameLogic :=
  let g := new_GameLogic 800 600 (mkDeleteZone 0 560 200 600) in
  let g := (create_ball g (100, 100)%float (50, 0)%float 20
              (2 ^ 1024, 0, 0)).2 in
  (create_ball g (130, 100)%float (-50, 0)%float 20 (0, 0, 255)).2.

(** A number that is not below zero, or NaN: what a square is. *)
Definition sf_square (s : spec_float) : bool :=
  match s with
  | S754_zero false | S754_infinity false | S754_nan
  | S754_finite false _ _ => true
  | _ => false
  end.

(** [t] is [s] with the other sign, or both are the zero of a difference
    of equal numbers. *)
Definition sf_mirror (s t : spec_float) : Prop :=
  t = SFopp s \/ (s = S754_zero false /\ t = S754_zero false).

(** A delete zone given with its corners swapped on the first axis. *)
Definition swapped_zone : DeleteZone := mkDeleteZone 200 560 0 600.

(** The engine after the ball of [zone_logic] fell into the delete zone. *)
Definition zone_purged : GameLogic := (update zone_logic 1).2.

(** A run of the engine: two balls created, a frame, the balls sucked, one
    spat. *)
Definition sample_calls : list call :=
  [CreateBall (100, 100)%float (50, 0)%float 20 (255, 0, 0);
   CreateBall (130, 100)%float (-50, 0)%float 20 (0, 0, 255);
   Update (1 / 60)%float;
   Suck (150, 100)%float None None;
   Spit (400, 300)%float (Some (1, 0)%float) None None].

(** A world ball whose first coordinate is not a number. *)
Definition lost (g : GameLogic) (r : ref) : Prop :=
  r ∈ balls g /\
  exists b, heap g !! r = Some b /\ (position b).1 = nan.

(** A world of one ball, created at a first coordinate that is not a
    number. *)
Definition nan_logic : GameLogic :=
  (create_ball (new_GameLogic 800 600 (mkDeleteZone 0 560 200 600))
     (nan, 580)%float (0, 0)%float 20 (255, 0, 0)).2.

Section MixColors.

Lemma round_half_spec s : half_even_mean s 0 (round_half s).
Proof.
  unfold half_even_mean, round_half.
  rewrite Z.add_0_r.
  pose proof (Z.div_mod s 2 ltac:(lia)) as Hs.
  pose proof (Z.mod_pos_bound s 2 ltac:(lia)) as Hb.
  destruct (Z.even s) eqn:Es.
  - apply Z.even_spec in Es. destruct Es as [k ->].
    replace (2 * k / 2) with k by (apply Z.div_unique_exact; lia).
    split; lia.
  - assert (Hodd : Z.odd s = true) by (rewrite <- Z.negb_even, Es; reflexivity).
    apply Z.odd_spec in Hodd. destruct Hodd as [k ->].
    replace ((2 * k + 1) / 2) with k
      by (apply (Z.div_unique (2 * k + 1) 2 k 1); lia).
    destruct (Z.even k) eqn:Ek.
    + split; [lia | intros _; exact Ek].
    + split; [lia | intros _].
      rewrite Z.even_add, Ek. reflexivity.
Qed.

Lemma float_of_int_small n :
  Z.abs n < 2 ^ 53 -> float_of_int n = Some n.
Proof.
  intros Hn. unfold float_of_int.
  assert (Z.log2 (Z.abs n) < 53) as Hl.
  { destruct (Z.eq_dec n 0) as [-> | Hne]; [reflexivity |].
    apply Z.log2_lt_pow2; lia. }
  destruct (Z.leb_spec (Z.log2 (Z.abs n) - 52) 0); [reflexivity | lia].
Qed.

(** Beyond 53 bits the conversion keeps the sign and stays an even integer
    of magnitude at least [2^53]. *)
Lemma float_of_int_large n :
  2 ^ 53 <= Z.abs n -> Z.abs n < 2 ^ 1024 - 2 ^ 970 ->
  exists k, float_of_int n = Some (2 * (Z.sgn n * k)) /\ 2 ^ 52 <= k.
Proof.
  intros Hlo Hhi. unfold float_of_int.
  set (a := Z.abs n) in *.
  assert (Ha : 0 < a) by lia.
  pose proof (Z.log2_spec a Ha) as [Hl1 Hl2].
  assert (Hl53 : 53 <= Z.log2 a).
  { apply Z.log2_le_pow2; lia. }
  assert (Hl1024 : Z.log2 a < 1024).
  { apply Z.log2_lt_pow2; lia. }
  set (e := Z.log2 a - 52) in *.
  assert (He : 1 <= e <= 971) by lia.
  destruct (Z.leb_spec e 0) as [? | _]; [lia |].
  assert (Hpe : 0 < 2 ^ e) by (apply Z.pow_pos_nonneg; lia).
  assert (Hsplit : 2 ^ Z.log2 a = 2 ^ 52 * 2 ^ e).
  { rewrite <- Z.pow_add_r by lia. f_equal. lia. }
  assert (Hsplit' : 2 ^ Z.succ (Z.log2 a) = 2 ^ 53 * 2 ^ e).
  { rewrite <- Z.pow_add_r by lia. f_equal. lia. }
  assert (Hq1 : 2 ^ 52 <= a / 2 ^ e).
  { apply Z.div_le_lower_bound; lia. }
  assert (Hq2 : a / 2 ^ e < 2 ^ 53).
  { apply Z.div_lt_upper_bound; lia. }
  pose proof (Z.div_mod a (2 ^ e) ltac:(lia)) as Hdm.
  pose proof (Z.mod_pos_bound a (2 ^ e) Hpe) as Hmb.
  assert (Hhalf : 2 ^ e = 2 * 2 ^ (e - 1)).
  { rewrite <- Z.pow_succ_r by lia. f_equal. lia. }
  set (q := a / 2 ^ e) in *. set (r := a mod 2 ^ e) in *.
  set (q' := if (2 ^ (e - 1) <? r) || ((r =? 2 ^ (e - 1)) && Z.odd q)
             then q + 1 else q).
  assert (Hq' : q <= q' <= q + 1) by (subst q'; destruct (_ || _); lia).
  assert (Hup : q' = q + 1 -> 2 ^ (e - 1) <= r).
  { subst q'. destruct (Z.ltb_spec (2 ^ (e - 1)) r); simpl; [lia |].
    destruct (Z.eqb_spec r (2 ^ (e - 1))); simpl; [lia |]. lia. }
  assert (Hno : q' * 2 ^ e < 2 ^ 1024).
  { destruct (Z.eq_dec q' (q + 1)) as [Hq1' | Hq1'].
    - specialize (Hup Hq1').
      destruct (Z.eq_dec e 971) as [He971 | He971].
      + (* the largest binade: a tie or more above the last float overflows *)
        destruct (Z.eq_dec q (2 ^ 53 - 1)) as [Hqmax | Hqmax].
        * exfalso. rewrite He971 in *.
          change (2 ^ (971 - 1)) with (2 ^ 970) in *.
          assert (2 ^ 1024 - 2 ^ 970 <= a); [| lia].
          rewrite Hdm, Hqmax.
          change (2 ^ 1024) with (2 ^ 53 * 2 ^ 971).
          change (2 ^ 971) with (2 * 2 ^ 970). lia.
        * rewrite Hq1', He971.
          change (2 ^ 1024) with (2 ^ 53 * 2 ^ 971).
          apply Z.mul_lt_mono_pos_r; [reflexivity | lia].
      + apply Z.le_lt_trans with (2 ^ 53 * 2 ^ e).
        * apply Z.mul_le_mono_nonneg_r; lia.
        * rewrite <- Z.pow_add_r by lia.
          apply Z.pow_lt_mono_r; lia.
    - assert (q' = q) as -> by lia.
      apply Z.le_lt_trans with a; [lia |].
      apply Z.lt_trans with (2 ^ 1024 - 2 ^ 970); [lia | reflexivity]. }
  destruct (Z.leb_spec (2 ^ 1024) (q' * 2 ^ e)) as [? | _]; [lia |].
  exists (q' * 2 ^ (e - 1)). split.
  - f_equal. rewrite Hhalf. ring.
  - apply Z.le_trans with (2 ^ 52 * 1); [lia |].
    apply Z.mul_le_mono_nonneg; lia.
Qed.

Lemma round_half_double k : round_half (2 * k) = k.
Proof.
  unfold round_half.
  rewrite Z.even_mul. simpl.
  symmetry. apply Z.div_unique_exact; lia.
Qed.

(** One channel: within the range of [float], [avg] returns, and clamping
    its result is clamping the mean rounded half to even. *)
Lemma avg_spec a b :
  summable a b ->
  exists v m, avg a b = Some v /\ half_even_mean a b m /\
              clamp v 0 255 = clamp m 0 255.
Proof.
  unfold summable, avg. intros Hs.
  pose proof (round_half_spec (a + b)) as Hm.
  unfold half_even_mean in Hm. rewrite Z.add_0_r in Hm.
  destruct (Z.lt_ge_cases (Z.abs (a + b)) (2 ^ 53)) as [Hsmall | Hbig].
  - rewrite (float_of_int_small _ Hsmall). simpl.
    exists (round_half (a + b)), (round_half (a + b)).
    split; [reflexivity | split; [exact Hm | reflexivity]].
  - destruct (float_of_int_large _ Hbig Hs) as (k & -> & Hk). simpl.
    rewrite round_half_double.
    exists (Z.sgn (a + b) * k), (round_half (a + b)).
    split; [reflexivity | split; [exact Hm |]].
    destruct Hm as [Hm _]. unfold clamp.
    change (2 ^ 52) with 4503599627370496 in Hk.
    change (2 ^ 53) with 9007199254740992 in Hbig.
    destruct (Z.sgn_spec (a + b)) as [[? ->] | [[? ->] | [? ->]]]; lia.
Qed.

Lemma clamp_range v : 0 <= clamp v 0 255 <= 255.
Proof. unfold clamp. lia. Qed.

Lemma channel_ok_summable a b : channel_ok a -> channel_ok b -> summable a b.
Proof. unfold channel_ok, summable. lia. Qed.

Lemma channel_ok_byte v : 0 <= v <= 255 -> channel_ok v.
Proof.
  unfold channel_ok. intros Hv.
  apply Z.lt_trans with 511; [lia | reflexivity].
Qed.

(** Within the range of [float], [mix_colors_rgb] returns, and returns
    channels in [0, 255]. *)
Lemma mix_colors_rgb_returns c1 c2 :
  color_ok c1 -> color_ok c2 ->
  exists m, mix_colors_rgb c1 c2 = Some m /\ color_ok m.
Proof.
  destruct c1 as [[r1 g1] b1], c2 as [[r2 g2] b2].
  unfold color_ok, red, green, blue; simpl.
  intros (Hr1 & Hg1 & Hb1) (Hr2 & Hg2 & Hb2).
  destruct (avg_spec r1 r2 (channel_ok_summable _ _ Hr1 Hr2)) as (vr & _ & -> & _).
  destruct (avg_spec g1 g2 (channel_ok_summable _ _ Hg1 Hg2)) as (vg & _ & -> & _).
  destruct (avg_spec b1 b2 (channel_ok_summable _ _ Hb1 Hb2)) as (vb & _ & -> & _).
  simpl. eexists; split; [reflexivity |]. simpl.
  repeat split; apply channel_ok_byte, clamp_range.
Qed.

End MixColors.

(** ** The store *)

Section Store.

Implicit Types (g : GameLogic) (r : ref) (b : Ball) (f : Ball -> Ball).

Lemma modify_commute f1 f2 r1 r2 g :
  r1 <> r2 -> modify f1 r1 (modify f2 r2 g) = modify f2 r2 (modify f1 r1 g).
Proof.
  intros Hne. unfold modify, set_heap; simpl.
  f_equal. apply list_alter_alter_ne. exact Hne.
Qed.

Lemma lookup_modify f r g r' :
  heap (modify f r g) !! r' =
  if decide (r = r') then f <$> heap g !! r' else heap g !! r'.
Proof.
  unfold modify; simpl. destruct (decide (r = r')) as [-> | Hne].
  - apply list_lookup_alter_eq.
  - apply list_lookup_alter_ne. exact Hne.
Qed.

Lemma same_frame_refl g : same_frame g g.
Proof. repeat split. Qed.

Lemma same_frame_trans g1 g2 g3 :
  same_frame g1 g2 -> same_frame g2 g3 -> same_frame g1 g3.
Proof.
  unfold same_frame. intros (?&?&?&?&?&?) (?&?&?&?&?&?).
  repeat split; congruence.
Qed.

End Store.

(** ** The first loop of [update] *)

Section MoveAndKeep.

Variable dt : float.

Lemma keep_modify_commute g r r' f :
  r <> r' ->
  _keep_ball_inside_bounds (modify f r' g) r
  = modify f r' (_keep_ball_inside_bounds g r).
Proof.
  intros Hne. unfold _keep_ball_inside_bounds. simpl.
  apply modify_commute. exact Hne.
Qed.

(** Clamping a ball commutes with moving the others. *)
Lemma move_pass_keep l g r :
  r ∉ l ->
  fold_left (fun g ball => modify (fun b => move b dt) ball g) l
    (_keep_ball_inside_bounds g r)
  = _keep_ball_inside_bounds
      (fold_left (fun g ball => modify (fun b => move b dt) ball g) l g) r.
Proof.
  revert g. induction l as [| r' l IH]; intros g Hr; simpl; [reflexivity |].
  apply not_elem_of_cons in Hr as [Hne Hr].
  rewrite <- IH by exact Hr. f_equal.
  symmetry. apply keep_modify_commute. exact Hne.
Qed.

Lemma balls_fold_modify (F : ref -> Ball -> Ball) l g :
  balls (fold_left (fun g ball => modify (F ball) ball g) l g) = balls g.
Proof. revert g. induction l; intros; simpl; [done | by rewrite IHl]. Qed.

(** One loop that moves and clamps each ball in turn does what a pass of
    moves followed by a pass of clamps does, when no ball is listed twice. *)
Lemma move_and_keep_passes l g :
  NoDup l ->
  fold_left (move_and_keep dt) l g
  = fold_left _keep_ball_inside_bounds l
      (fold_left (fun g ball => modify (fun b => move b dt) ball g) l g).
Proof.
  intros Hnd. revert g. induction Hnd as [| r l Hr Hnd IH]; intros g; simpl.
  - reflexivity.
  - rewrite IH. unfold move_and_keep.
    rewrite move_pass_keep by exact Hr. reflexivity.
Qed.

(** The store after the first loop. *)
Lemma lookup_move_and_keep l g r :
  NoDup l ->
  heap (fold_left (move_and_keep dt) l g) !! r
  = if decide (r ∈ l) then stepped g dt <$> heap g !! r else heap g !! r.
Proof.
  intros Hnd. revert g. induction Hnd as [| r' l Hr Hnd IH]; intros g.
  - cbn [fold_left]. case_decide as Hin; [| reflexivity].
    apply elem_of_nil in Hin. destruct Hin.
  - cbn [fold_left]. rewrite IH.
    unfold move_and_keep, _keep_ball_inside_bounds.
    rewrite !lookup_modify. cbn [width height modify set_heap].
    unfold stepped. cbn [width height modify set_heap].
    destruct (decide (r' = r)) as [-> | Hne].
    + rewrite decide_False by exact Hr.
      rewrite decide_True by apply list_elem_of_here.
      rewrite <- option_fmap_compose. reflexivity.
    + destruct (decide (r ∈ l)) as [Hin | Hin].
      * rewrite decide_True by (apply list_elem_of_further; exact Hin).
        reflexivity.
      * rewrite decide_False; [reflexivity |].
        intros [-> | ?]%elem_of_cons; done.
Qed.

Lemma frame_move_and_keep l g :
  let g' := fold_left (move_and_keep dt) l g in
  same_frame g g' /\ balls g' = balls g /\ inventory g' = inventory g.
Proof.
  revert g. induction l as [| r l IH]; intros g; simpl.
  - split; [apply same_frame_refl | done].
  - destruct (IH (move_and_keep dt g r)) as (Hf & Hb & Hi).
    split; [| split].
    + eapply same_frame_trans; [| exact Hf]. repeat split.
    + rewrite Hb. reflexivity.
    + rewrite Hi. reflexivity.
Qed.

End MoveAndKeep.

(** ** The collision pass *)

Section Collisions.

Implicit Types (g : GameLogic) (r : ref) (b : Ball) (l : list ref).

Lemma set_color_id b : set_color (color b) b = b.
Proof. destruct b; reflexivity. Qed.

Lemma repainted_refl l g : repainted l g g.
Proof.
  split; [apply same_frame_refl |]. do 2 (split; [reflexivity |]).
  intros r. left. reflexivity.
Qed.

Lemma repainted_trans l g1 g2 g3 :
  repainted l g1 g2 -> repainted l g2 g3 -> repainted l g1 g3.
Proof.
  intros (Hf1 & Hb1 & Hi1 & H1) (Hf2 & Hb2 & Hi2 & H2).
  split; [eapply same_frame_trans; eassumption |].
  split; [congruence |]. split; [congruence |].
  intros r. destruct (H2 r) as [E2 | (Hr & b2 & c2 & E2 & E2')].
  - rewrite E2. apply H1.
  - right. split; [exact Hr |].
    destruct (H1 r) as [E1 | (_ & b1 & c1 & E1 & E1')].
    + exists b2, c2. split; congruence.
    + exists b1, c2. split; [exact E1 |].
      rewrite E2'. f_equal.
      assert (b2 = set_color c1 b1) as -> by congruence.
      reflexivity.
Qed.

Lemma repainted_lookup l g g' r b :
  repainted l g g' -> heap g !! r = Some b ->
  exists c, heap g' !! r = Some (set_color c b).
Proof.
  intros (_ & _ & _ & H) Hb. destruct (H r) as [E | (_ & b' & c & E & E')].
  - exists (color b). rewrite E, Hb, set_color_id. reflexivity.
  - exists c. congruence.
Qed.

Lemma repainted_outside l g g' r :
  repainted l g g' -> r ∉ l -> heap g' !! r = heap g !! r.
Proof.
  intros (_ & _ & _ & H) Hr. destruct (H r) as [E | (Hin & _)]; [exact E | done].
Qed.



Lemma collide_repainted l g p res g' :
  p.1 ∈ l -> p.2 ∈ l -> collide g p = (res, g') -> repainted l g g'.
Proof.
  intros Hp1 Hp2. unfold collide.
  destruct (heap g !! p.1) as [b1 |] eqn:H1;
    [| intros [= <- <-]; apply repainted_refl].
  destruct (heap g !! p.2) as [b2 |] eqn:H2;
    [| intros [= <- <-]; apply repainted_refl].
  destruct (in_inventory b1 || in_inventory b2);
    [intros [= <- <-]; apply repainted_refl |].
  destruct (touching b1 b2); [| intros [= <- <-]; apply repainted_refl].
  destruct (mix_colors_rgb (color b1) (color b2)) as [m |];
    [| intros [= <- <-]; apply repainted_refl].
  intros [= <- <-].
  split; [repeat split |]. do 2 (split; [reflexivity |]).
  intros r. rewrite !lookup_modify.
  destruct (decide (p.2 = r)) as [E2 | N2];
    destruct (decide (p.1 = r)) as [E1 | N1].
  - right. rewrite <- E1. split; [exact Hp1 |].
    exists b1, m. rewrite H1. done.
  - right. rewrite <- E2. split; [exact Hp2 |].
    exists b2, m. rewrite H2. done.
  - right. rewrite <- E1. split; [exact Hp1 |].
    exists b1, m. rewrite H1. done.
  - left. reflexivity.
Qed.

Lemma for_each_collide_repainted l ps g res g' :
  (forall p, p ∈ ps -> p.1 ∈ l /\ p.2 ∈ l) ->
  for_each collide ps g = (res, g') -> repainted l g g'.
Proof.
  revert g. induction ps as [| p ps IH]; intros g Hps; cbn [for_each].
  - intros [= <- <-]. apply repainted_refl.
  - destruct (collide g p) as [[[] | e] g1] eqn:Hc.
    + intros Hfe.
      destruct (Hps p (list_elem_of_here _ _)) as [Hp1 Hp2].
      eapply repainted_trans.
      * eapply collide_repainted; eassumption.
      * apply IH; [| exact Hfe].
        intros q Hq. apply Hps. apply list_elem_of_further. exact Hq.
    + intros [= <- <-].
      destruct (Hps p (list_elem_of_here _ _)) as [Hp1 Hp2].
      eapply collide_repainted; eassumption.
Qed.

(** [itertools.combinations(l, 2)]: the pairs of positions [i < j], once
    each. *)
Lemma elem_of_combinations2 {A} (l : list A) (u v : A) :
  (u, v) ∈ combinations2 l <->
  exists i j, (i < j)%nat /\ l !! i = Some u /\ l !! j = Some v.
Proof.
  induction l as [| x t IH]; cbn [combinations2].
  - split; [intros []%elem_of_nil | intros (i & j & _ & [=] & _)].
  - rewrite elem_of_app, list_elem_of_fmap, IH. split.
    + intros [(y & [= -> ->] & Hy) | (i & j & Hij & Hi & Hj)].
      * apply list_elem_of_lookup in Hy as [j Hj].
        exists 0%nat, (S j). split; [lia | done].
      * exists (S i), (S j). split; [lia | done].
    + intros (i & j & Hij & Hi & Hj).
      destruct j as [| j]; [lia |]. cbn in Hj.
      destruct i as [| i]; cbn in Hi.
      * left. exists v. injection Hi as ->. split; [reflexivity |].
        eapply list_elem_of_lookup_2; exact Hj.
      * right. exists i, j. split; [lia | done].
Qed.

Lemma combinations2_components {A} (l : list A) (p : A * A) :
  p ∈ combinations2 l -> p.1 ∈ l /\ p.2 ∈ l.
Proof.
  destruct p as [u v]. rewrite elem_of_combinations2.
  intros (i & j & _ & Hi & Hj).
  split; eapply list_elem_of_lookup_2; eassumption.
Qed.

Lemma mix_pass_repainted g res g' :
  _mix_colors_on_collisions g = (res, g') -> repainted (balls g) g g'.
Proof.
  apply for_each_collide_repainted.
  intros p. apply combinations2_components.
Qed.

(** *** The pass returns when the colours are in range *)

Lemma collide_returns l g p :
  p.1 ∈ l -> p.2 ∈ l -> safe_on l g ->
  exists g', collide g p = (Returns tt, g') /\ safe_on l g'.
Proof.
  intros Hp1 Hp2 Hs. unfold collide.
  destruct (heap g !! p.1) as [b1 |] eqn:H1; [| eauto].
  destruct (heap g !! p.2) as [b2 |] eqn:H2; [| eauto].
  destruct (in_inventory b1 || in_inventory b2); [eauto |].
  destruct (touching b1 b2); [| eauto].
  destruct (mix_colors_rgb_returns (color b1) (color b2)) as (m & -> & Hm).
  { exact (Hs _ _ Hp1 H1). }
  { exact (Hs _ _ Hp2 H2). }
  eexists. split; [reflexivity |].
  intros r b Hr. rewrite !lookup_modify.
  destruct (decide (p.2 = r)); destruct (decide (p.1 = r));
    destruct (heap g !! r) as [b0 |] eqn:H0; cbn;
    intros Hb; simplify_eq; try exact Hm.
  eapply Hs; eassumption.
Qed.

Lemma for_each_collide_returns l ps g :
  (forall p, p ∈ ps -> p.1 ∈ l /\ p.2 ∈ l) -> safe_on l g ->
  exists g', for_each collide ps g = (Returns tt, g').
Proof.
  revert g. induction ps as [| p ps IH]; intros g Hps Hs; cbn [for_each].
  - eauto.
  - destruct (Hps p (list_elem_of_here _ _)) as [Hp1 Hp2].
    destruct (collide_returns l g p Hp1 Hp2 Hs) as (g1 & -> & Hs1).
    apply IH; [| exact Hs1].
    intros q Hq. apply Hps. apply list_elem_of_further. exact Hq.
Qed.

Lemma mix_pass_returns g :
  colors_ok g -> exists g', _mix_colors_on_collisions g = (Returns tt, g').
Proof.
  intros Hc. apply (for_each_collide_returns (balls g)).
  - intros p. apply combinations2_components.
  - exact Hc.
Qed.

End Collisions.

(** ** The effect of [update] *)

Section Update.

Implicit Types (g : GameLogic) (r : ref) (b : Ball) (l : list ref).

Lemma id_move b dt : id (move b dt) = id b.
Proof.
  unfold move. destruct (in_inventory b); [reflexivity |].
  destruct (position b), (velocity b); reflexivity.
Qed.

Lemma in_inventory_move b dt : in_inventory (move b dt) = in_inventory b.
Proof.
  unfold move. destruct (in_inventory b) eqn:E; [exact E |].
  destruct (position b), (velocity b); exact E.
Qed.

Lemma radius_move b dt : radius (move b dt) = radius b.
Proof.
  unfold move. destruct (in_inventory b); [reflexivity |].
  destruct (position b), (velocity b); reflexivity.
Qed.

Lemma color_move b dt : color (move b dt) = color b.
Proof.
  unfold move. destruct (in_inventory b); [reflexivity |].
  destruct (position b), (velocity b); reflexivity.
Qed.

Lemma keep_inside_fields w h b :
  id (keep_inside w h b) = id b /\
  in_inventory (keep_inside w h b) = in_inventory b /\
  radius (keep_inside w h b) = radius b /\
  color (keep_inside w h b) = color b.
Proof.
  unfold keep_inside. destruct (position b), (velocity b).
  destruct (bounce _ _ _ w), (bounce _ _ _ h). repeat split.
Qed.

Lemma stepped_fields g dt b :
  id (stepped g dt b) = id b /\
  in_inventory (stepped g dt b) = in_inventory b /\
  radius (stepped g dt b) = radius b /\
  color (stepped g dt b) = color b.
Proof.
  unfold stepped.
  destruct (keep_inside_fields (width g) (height g) (move b dt))
    as (-> & -> & -> & ->).
  rewrite id_move, in_inventory_move, radius_move, color_move. done.
Qed.

(** What [update] leaves: the balls outside the world untouched, the world
    balls moved and clamped, and repainted by the collisions; the world
    purged when the call returns. *)
Lemma update_effect g dt res g' :
  NoDup (balls g) -> update g dt = (res, g') ->
  same_frame g g' /\ inventory g' = inventory g /\
  (forall r, r ∉ balls g -> heap g' !! r = heap g !! r) /\
  (forall r b, r ∈ balls g -> heap g !! r = Some b ->
     exists c, heap g' !! r = Some (set_color c (stepped g dt b))) /\
  match res with
  | Returns _ =>
      balls g' = filter (fun r => ¬ in_delete_zone g' r) (balls g)
  | Raises _ => balls g' = balls g
  end.
Proof.
  intros Hnd. unfold update.
  pose proof (frame_move_and_keep dt (balls g) g) as (Hf1 & Hb1 & Hi1).
  pose proof (lookup_move_and_keep dt (balls g) g) as Hl1.
  set (g1 := fold_left (move_and_keep dt) (balls g) g) in *.
  destruct (_mix_colors_on_collisions g1) as [res1 g2] eqn:Hmix.
  pose proof (mix_pass_repainted _ _ _ Hmix) as Hrep.
  rewrite Hb1 in Hrep.
  assert (Hout : forall r, r ∉ balls g -> heap g2 !! r = heap g !! r).
  { intros r Hr. rewrite (repainted_outside _ _ _ _ Hrep Hr).
    rewrite Hl1 by exact Hnd. rewrite decide_False by exact Hr. reflexivity. }
  assert (Hin : forall r b, r ∈ balls g -> heap g !! r = Some b ->
            exists c, heap g2 !! r = Some (set_color c (stepped g dt b))).
  { intros r b Hr Hb. eapply repainted_lookup; [exact Hrep |].
    rewrite Hl1 by exact Hnd. rewrite decide_True by exact Hr.
    rewrite Hb. reflexivity. }
  destruct Hrep as (Hf2 & Hb2 & Hi2 & _).
  assert (Hf : same_frame g g2) by (eapply same_frame_trans; eassumption).
  destruct res1 as [[] | e]; intros [= <- <-].
  - split; [exact Hf |]. split; [cbn; congruence |].
    split; [exact Hout |]. split; [exact Hin |].
    cbn. rewrite Hb2, Hb1. reflexivity.
  - split; [exact Hf |]. split; [congruence |].
    split; [exact Hout |]. split; [exact Hin |]. congruence.
Qed.

Lemma update_returns g dt :
  NoDup (balls g) -> colors_ok g -> exists g', update g dt = (Returns tt, g').
Proof.
  intros Hnd Hc. unfold update.
  pose proof (frame_move_and_keep dt (balls g) g) as (Hf1 & Hb1 & Hi1).
  pose proof (lookup_move_and_keep dt (balls g) g) as Hl1.
  set (g1 := fold_left (move_and_keep dt) (balls g) g) in *.
  destruct (mix_pass_returns g1) as (g2 & ->); [| eauto].
  intros r b Hr. rewrite Hb1 in Hr.
  rewrite Hl1 by exact Hnd. rewrite decide_True by exact Hr.
  destruct (heap g !! r) as [b0 |] eqn:H0; [| discriminate].
  intros [= <-].
  destruct (stepped_fields g dt b0) as (_ & _ & _ & ->).
  exact (Hc r b0 Hr H0).
Qed.

End Update.

(** ** The invariant *)

Section Invariant.

Implicit Types (g : GameLogic) (r : ref) (b : Ball) (l : list ref).

Lemma heap_agree_length h h' : heap_agree h h' -> length h' = length h.
Proof.
  intros Ha.
  destruct (Nat.lt_trichotomy (length h') (length h)) as [Hlt | [E | Hlt]];
    [exfalso | exact E | exfalso].
  - specialize (Ha (length h')).
    rewrite (lookup_ge_None_2 h') in Ha by lia.
    destruct (lookup_lt_is_Some_2 h (length h') Hlt) as [b Hb].
    rewrite Hb in Ha. exact Ha.
  - specialize (Ha (length h)).
    rewrite (lookup_ge_None_2 h) in Ha by lia.
    destruct (lookup_lt_is_Some_2 h' (length h) Hlt) as [b Hb].
    rewrite Hb in Ha. exact Ha.
Qed.

Lemma NoDup_app_filter_l (P : ref -> Prop) `{!forall x, Decision (P x)} l k :
  NoDup (l ++ k) -> NoDup (filter P l ++ k).
Proof.
  rewrite !NoDup_app. intros (Hl & Hd & Hk).
  split; [apply NoDup_filter; exact Hl |]. split; [| exact Hk].
  intros x Hx%list_elem_of_filter. apply Hd. tauto.
Qed.

(** A state whose store agrees with that of a well-formed state, with the
    same inventory and a world that is part of the old one, is
    well-formed. *)
Lemma Inv_agree g g' :
  Inv g -> same_frame g g' -> heap_agree (heap g) (heap g') ->
  inventory g' = inventory g ->
  NoDup (balls g' ++ inventory g) -> (forall r, r ∈ balls g' -> r ∈ balls g) ->
  Inv g'.
Proof.
  intros [Hv Hn Hfl Hid Hnx Hr Hs] (_ & _ & _ & Er & Es & En) Ha Ei Hn' Hsub.
  assert (Hback : forall r b', heap g' !! r = Some b' ->
            exists b, heap g !! r = Some b /\ id b' = id b
                      /\ in_inventory b' = in_inventory b).
  { intros r b' Hb'. specialize (Ha r). rewrite Hb' in Ha.
    destruct (heap g !! r) as [b |]; [| destruct Ha]. eauto. }
  constructor.
  - intros r Hr'. rewrite Ei in Hr'.
    assert (Hr0 : r ∈ balls g ++ inventory g).
    { apply elem_of_app in Hr' as [? | ?]; apply elem_of_app; auto. }
    destruct (Hv r Hr0) as [b Hb]. specialize (Ha r). rewrite Hb in Ha.
    destruct (heap g' !! r); [eauto | destruct Ha].
  - rewrite Ei. exact Hn'.
  - intros r b' Hb'. destruct (Hback r b' Hb') as (b & Hb & _ & ->).
    rewrite Ei. apply Hfl. exact Hb.
  - intros r b' Hb'. destruct (Hback r b' Hb') as (b & Hb & -> & _).
    apply Hid. exact Hb.
  - rewrite En, Hnx, (heap_agree_length _ _ Ha). reflexivity.
  - congruence.
  - congruence.
Qed.

Lemma Inv_NoDup_balls g : Inv g -> NoDup (balls g).
Proof. intros [_ Hn _ _ _ _ _]. apply NoDup_app in Hn. tauto. Qed.

Lemma Inv_NoDup_inventory g : Inv g -> NoDup (inventory g).
Proof. intros [_ Hn _ _ _ _ _]. apply NoDup_app in Hn. tauto. Qed.

Lemma Inv_disjoint g r : Inv g -> r ∈ balls g -> r ∉ inventory g.
Proof. intros [_ Hn _ _ _ _ _]. apply NoDup_app in Hn. apply Hn. Qed.

Lemma Inv_world_flag g r b :
  Inv g -> r ∈ balls g -> heap g !! r = Some b -> in_inventory b = false.
Proof.
  intros HI Hr Hb. destruct (in_inventory b) eqn:E; [| reflexivity].
  exfalso. apply (Inv_disjoint g r HI Hr).
  apply (inv_flag g HI r b Hb). exact E.
Qed.

Lemma Inv_valid_world g r : Inv g -> r ∈ balls g -> is_Some (heap g !! r).
Proof. intros HI Hr. apply (inv_valid g HI). apply elem_of_app. auto. Qed.

Lemma Inv_valid_inventory g r :
  Inv g -> r ∈ inventory g -> is_Some (heap g !! r).
Proof. intros HI Hr. apply (inv_valid g HI). apply elem_of_app. auto. Qed.

Lemma Inv_new w h dz : Inv (new_GameLogic w h dz).
Proof.
  constructor; cbn; try reflexivity.
  - intros r []%elem_of_nil.
  - apply NoDup_nil_2.
  - intros r b [=].
  - intros r b [=].
Qed.

Lemma Inv_update g dt : Inv g -> Inv (update g dt).2.
Proof.
  intros HI. destruct (update g dt) as [res g'] eqn:Hu. cbn [snd].
  pose proof (Inv_NoDup_balls g HI) as Hnd.
  destruct (update_effect g dt res g' Hnd Hu) as (Hf & Hi & Hout & Hin & Hb).
  assert (Hsub : forall r, r ∈ balls g' -> r ∈ balls g).
  { destruct res; rewrite Hb; [| done].
    intros r Hr%list_elem_of_filter. tauto. }
  apply (Inv_agree g g' HI Hf); [| exact Hi | | exact Hsub].
  - intros r. destruct (decide (r ∈ balls g)) as [Hr | Hr].
    + destruct (Inv_valid_world g r HI Hr) as [b Hb0].
      destruct (Hin r b Hr Hb0) as [c ->]. rewrite Hb0. cbn.
      destruct (stepped_fields g dt b) as (-> & -> & _). done.
    + rewrite (Hout r Hr). destruct (heap g !! r); done.
  - destruct res; rewrite Hb.
    + apply NoDup_app_filter_l. apply (inv_nodup g HI).
    + apply (inv_nodup g HI).
Qed.

Lemma Inv_create_ball g p v rad c : Inv g -> Inv (create_ball g p v rad c).2.
Proof.
  intros [Hv Hn Hfl Hid Hnx Hr Hs]. unfold create_ball. cbn [snd].
  assert (Hfresh : forall r, r ∈ balls g ++ inventory g -> r <> length (heap g)).
  { intros r Hr0 ->. destruct (Hv _ Hr0) as [b Hb].
    apply lookup_lt_Some in Hb. lia. }
  constructor; cbn.
  - intros r Hr0. apply lookup_lt_is_Some. rewrite length_app. cbn.
    rewrite <- app_assoc in Hr0. cbn in Hr0.
    apply elem_of_app in Hr0 as [Hr0 | [-> | Hr0]%elem_of_cons]; [| lia |].
    + specialize (Hv r ltac:(apply elem_of_app; auto)).
      apply lookup_lt_is_Some in Hv. lia.
    + specialize (Hv r ltac:(apply elem_of_app; auto)).
      apply lookup_lt_is_Some in Hv. lia.
  - rewrite <- app_assoc. cbn. apply NoDup_app in Hn as (Hn1 & Hd & Hn2).
    apply NoDup_app. split; [exact Hn1 |]. split.
    + intros x Hx [-> | Hx']%elem_of_cons.
      * apply (Hfresh (length (heap g))); [apply elem_of_app; auto | done].
      * exact (Hd x Hx Hx').
    + apply NoDup_cons. split; [| exact Hn2].
      intros Hx. apply (Hfresh (length (heap g))); [apply elem_of_app; auto | done].
  - intros r b Hb. apply lookup_app_Some in Hb as [Hb | [Hlen Hb]].
    + apply Hfl. exact Hb.
    + destruct (r - length (heap g))%nat eqn:E; cbn in Hb; [| done].
      injection Hb as <-. cbn. split; [discriminate |].
      intros Hr0. exfalso.
      apply (Hfresh r); [apply elem_of_app; auto | lia].
  - intros r b Hb. apply lookup_app_Some in Hb as [Hb | [Hlen Hb]].
    + apply Hid. exact Hb.
    + destruct (r - length (heap g))%nat eqn:E; cbn in Hb; [| done].
      injection Hb as <-. cbn. rewrite Hnx. lia.
  - rewrite Hnx, length_app. cbn. lia.
  - exact Hr.
  - exact Hs.
Qed.

End Invariant.

(** ** Identity of the balls *)

Section Identity.

Implicit Types (g : GameLogic) (r : ref) (b : Ball) (l : list ref)
  (h : list Ball).

Lemma Inv_distinct_ids g : Inv g -> distinct_ids (heap g).
Proof.
  intros HI r r' b b' Hb Hb' E.
  rewrite (inv_ids g HI r b Hb), (inv_ids g HI r' b' Hb') in E. lia.
Qed.

Lemma Ball_eq_id b b' : Ball_eq b b' = true -> id b = id b'.
Proof.
  unfold Ball_eq. rewrite !andb_true_iff. intros [[[[[E _] _] _] _] _].
  apply Z.eqb_eq. exact E.
Qed.

(** With distinct [id]s, [==] between balls of the store is identity. *)
Lemma py_eq_true h r r' : distinct_ids h -> py_eq h r r' = true -> r = r'.
Proof.
  intros Hd. unfold py_eq. rewrite orb_true_iff. intros [E | E].
  - apply Nat.eqb_eq. exact E.
  - destruct (h !! r) as [b |] eqn:Hb; [| discriminate].
    destruct (h !! r') as [b' |] eqn:Hb'; [| discriminate].
    eapply Hd; eauto using Ball_eq_id.
Qed.

Lemma py_eq_refl h r : py_eq h r r = true.
Proof. unfold py_eq. rewrite Nat.eqb_refl. reflexivity. Qed.

Lemma py_eq_false h r r' : distinct_ids h -> r <> r' -> py_eq h r r' = false.
Proof.
  intros Hd Hne. destruct (py_eq h r r') eqn:E; [| reflexivity].
  apply py_eq_true in E; [contradiction | exact Hd].
Qed.

Lemma list_remove_middle h x pre post :
  distinct_ids h -> x ∉ pre ->
  list_remove h x (pre ++ x :: post) = Some (pre ++ post).
Proof.
  intros Hd. induction pre as [| y pre IH]; intros Hx; cbn.
  - rewrite py_eq_refl. reflexivity.
  - apply not_elem_of_cons in Hx as [Hne Hx].
    rewrite (py_eq_false h y x Hd) by congruence.
    rewrite (IH Hx). reflexivity.
Qed.

Lemma list_contains_elem_of h x l :
  distinct_ids h -> list_contains h x l = true <-> x ∈ l.
Proof.
  intros Hd. unfold list_contains. rewrite existsb_exists. split.
  - intros (y & Hy & E). apply py_eq_true in E; [| exact Hd]. subst y.
    apply list_elem_of_In. exact Hy.
  - intros Hx. exists x. split; [apply list_elem_of_In; exact Hx |].
    apply py_eq_refl.
Qed.

(** [x in l] holds exactly when [l.remove(x)] does not raise. *)
Lemma list_contains_remove h x l :
  list_contains h x l = true <-> is_Some (list_remove h x l).
Proof.
  unfold list_contains. induction l as [| y l IH]; cbn.
  - split; [discriminate | intros [? [=]]].
  - destruct (py_eq h y x); cbn; [split; eauto |].
    rewrite IH. destruct (list_remove h x l); cbn; split; eauto.
Qed.

End Identity.

(** ** [suck_balls_with_mouse] *)

Section Suck.

Implicit Types (g : GameLogic) (r : ref) (b : Ball) (l : list ref)
  (h : list Ball).

Lemma filter_ext_in {A} (P Q : A -> Prop)
    `{!forall x, Decision (P x), !forall x, Decision (Q x)} (k : list A) :
  (forall x, x ∈ k -> (P x <-> Q x)) -> filter P k = filter Q k.
Proof.
  induction k as [| a k IH]; intros HPQ; [reflexivity |].
  rewrite !filter_cons.
  rewrite IH by (intros x Hx; apply HPQ, list_elem_of_further, Hx).
  apply decide_ext. apply HPQ. apply list_elem_of_here.
Qed.

Lemma filter_all {A} (P : A -> Prop) `{!forall x, Decision (P x)}
    (k : list A) :
  (forall x, x ∈ k -> P x) -> filter P k = k.
Proof.
  induction k as [| a k IH]; intros HP; [reflexivity |].
  rewrite filter_cons_True by (apply HP, list_elem_of_here).
  rewrite IH by (intros x Hx; apply HP, list_elem_of_further, Hx).
  reflexivity.
Qed.

Lemma lookup_flagged l h r :
  flagged l h !! r
  = if decide (r ∈ l) then set_in_inventory true <$> h !! r else h !! r.
Proof.
  revert h. induction l as [| x l IH]; intros h; cbn.
  - rewrite decide_False by apply not_elem_of_nil. reflexivity.
  - unfold flagged in IH. rewrite IH. rewrite list_lookup_alter.
    destruct (decide (x = r)) as [-> | Hne].
    + rewrite (decide_True (P := r ∈ r :: l)) by apply list_elem_of_here.
      destruct (decide (r ∈ l)); [| reflexivity].
      destruct (h !! r); reflexivity.
    + destruct (decide (r ∈ l)) as [Hin | Hin].
      * rewrite decide_True by (apply list_elem_of_further, Hin). reflexivity.
      * rewrite decide_False; [reflexivity |].
        intros [-> | ?]%elem_of_cons; done.
Qed.

Lemma length_flagged l h : length (flagged l h) = length h.
Proof.
  revert h. induction l as [| x l IH]; intros h; [reflexivity |].
  cbn. unfold flagged in IH. rewrite IH. apply length_alter.
Qed.

Lemma lookup_alter_Some (f : Ball -> Ball) r h r1 b1 :
  alter f r h !! r1 = Some b1 ->
  exists b0, h !! r1 = Some b0 /\ (b1 = b0 \/ b1 = f b0).
Proof.
  rewrite list_lookup_alter. destruct (decide (r = r1)) as [-> | Hne].
  - destruct (h !! r1) as [b0 |]; cbn; intros [= <-]. eauto.
  - eauto.
Qed.

Lemma distinct_ids_alter f r h :
  (forall b, id (f b) = id b) -> distinct_ids h -> distinct_ids (alter f r h).
Proof.
  intros Hf Hd r1 r2 b1 b2
    (c1 & H1 & E1)%lookup_alter_Some (c2 & H2 & E2)%lookup_alter_Some E.
  apply (Hd r1 r2 c1 c2 H1 H2).
  destruct E1 as [-> | ->], E2 as [-> | ->]; rewrite ?Hf in E; exact E.
Qed.

Lemma within_add_ball g mp rsq ball k r :
  within (add_ball ball (set_balls k g)) mp rsq r = within g mp rsq r.
Proof.
  unfold within, add_ball. cbn. rewrite list_lookup_alter.
  destruct (decide (ball = r)) as [-> | _]; destruct (heap g !! r);
    reflexivity.
Qed.

Lemma pick_elem_of mc moved hits x : x ∈ pick mc moved hits -> x ∈ hits.
Proof.
  destruct mc as [n |]; cbn; [| done].
  intros (i & Hi & _)%elem_of_take. eapply list_elem_of_lookup_2, Hi.
Qed.

Lemma pick_nil mc moved : pick mc moved [] = [].
Proof. destruct mc; cbn; [apply take_nil | reflexivity]. Qed.

Lemma pick_limit mc moved hits :
  limit_reached mc moved = true -> pick mc moved hits = [].
Proof.
  destruct mc as [n |]; cbn; [| discriminate].
  intros H%Z.leb_le.
  replace (Z.to_nat (n - Z.of_nat (length moved))) with 0%nat by lia.
  reflexivity.
Qed.

Lemma pick_cons mc moved x hits :
  limit_reached mc moved = false ->
  pick mc moved (x :: hits) = x :: pick mc (moved ++ [x]) hits.
Proof.
  destruct mc as [n |]; cbn; [| reflexivity].
  intros H%Z.leb_gt. rewrite length_app. cbn.
  replace (Z.to_nat (n - Z.of_nat (length moved)))
    with (S (Z.to_nat (n - Z.of_nat (length moved + 1)))) by lia.
  reflexivity.
Qed.

(** The loop of [suck_balls_with_mouse], from any point of the copy of the
    world: [pre] is what the loop has left in the world so far, [rest] what
    it has not yet seen. *)
Lemma suck_loop_spec mp rsq mc rest :
  forall pre moved g,
    balls g = pre ++ rest -> NoDup (pre ++ rest) -> distinct_ids (heap g) ->
    let M := pick mc moved (filter (fun r => within g mp rsq r) rest) in
    exists g',
      suck_loop mp rsq mc rest moved g = (Returns (moved ++ M), g') /\
      same_frame g g' /\
      heap g' = flagged M (heap g) /\
      balls g' = pre ++ filter (fun r => r ∉ M) rest /\
      inventory g' = inventory g ++ M.
Proof.
  induction rest as [| ball rest IH]; intros pre moved g Hb Hnd Hd M.
  - subst M. rewrite filter_nil, pick_nil. cbn. exists g.
    rewrite !app_nil_r in *. repeat split. exact Hb.
  - cbn [suck_loop].
    assert (Hball : (ball ∉ pre) /\ (ball ∉ rest)).
    { apply NoDup_app in Hnd as (_ & Hdis & Hr).
      apply NoDup_cons in Hr as [Hr _]. split; [| exact Hr].
      intros Hin. apply (Hdis ball Hin), list_elem_of_here. }
    destruct Hball as [Hpre Hrest].
    destruct (limit_reached mc moved) eqn:Hlim.
    { subst M. rewrite (pick_limit _ _ _ Hlim). exists g.
      rewrite !app_nil_r.
      rewrite filter_all by (intros; apply not_elem_of_nil).
      repeat split. exact Hb. }
    destruct (within g mp rsq ball) eqn:Hw.
    + rewrite Hb, (list_remove_middle _ _ _ _ Hd Hpre).
      set (g1 := add_ball ball (set_balls (pre ++ rest) g)).
      assert (Hnd1 : NoDup (pre ++ rest)).
      { apply NoDup_app in Hnd as (H1 & H2 & H3).
        apply NoDup_cons in H3 as [_ H3]. apply NoDup_app.
        split; [exact H1 |]. split; [| exact H3].
        intros x Hx Hx'. apply (H2 x Hx), list_elem_of_further, Hx'. }
      assert (Hd1 : distinct_ids (heap g1)).
      { apply distinct_ids_alter; [reflexivity | exact Hd]. }
      destruct (IH pre (moved ++ [ball]) g1 eq_refl Hnd1 Hd1)
        as (g' & Hrun & Hf & Hh & Hbs & Hinv).
      assert (EM : M = ball :: pick mc (moved ++ [ball])
                     (filter (fun r => within g1 mp rsq r) rest)).
      { subst M. rewrite filter_cons_True by (rewrite Hw; exact I).
        rewrite (pick_cons _ _ _ _ Hlim). f_equal. f_equal.
        apply filter_ext_in. intros x _. subst g1.
        rewrite within_add_ball. reflexivity. }
      set (M' := pick mc (moved ++ [ball])
                   (filter (fun r => within g1 mp rsq r) rest)) in *.
      exists g'. rewrite EM. split; [| split; [| split; [| split]]].
      * rewrite Hrun. rewrite <- app_assoc. reflexivity.
      * eapply same_frame_trans; [| exact Hf]. repeat split.
      * rewrite Hh. reflexivity.
      * rewrite Hbs. f_equal.
        rewrite filter_cons_False
          by (intros Hn; apply Hn, list_elem_of_here).
        apply filter_ext_in. intros x Hx. rewrite not_elem_of_cons.
        split; [| tauto]. intros Hx'. split; [| exact Hx'].
        intros ->. contradiction.
      * rewrite Hinv. subst g1. cbn. rewrite <- app_assoc. reflexivity.
    + assert (Hb' : balls g = (pre ++ [ball]) ++ rest)
        by (rewrite <- app_assoc; exact Hb).
      assert (Hnd' : NoDup ((pre ++ [ball]) ++ rest))
        by (rewrite <- app_assoc; exact Hnd).
      destruct (IH (pre ++ [ball]) moved g Hb' Hnd' Hd)
        as (g' & Hrun & Hf & Hh & Hbs & Hinv).
      assert (EM : M = pick mc moved
                     (filter (fun r => within g mp rsq r) rest)).
      { subst M. rewrite filter_cons_False by (rewrite Hw; intros []).
        reflexivity. }
      exists g'. rewrite EM.
      split; [exact Hrun |]. split; [exact Hf |]. split; [exact Hh |].
      split; [| exact Hinv].
      rewrite Hbs, <- app_assoc. f_equal.
      rewrite filter_cons_True; [reflexivity |].
      intros Hin%pick_elem_of%list_elem_of_filter. tauto.
Qed.

(** [suck_balls_with_mouse] on a well-formed state. *)
Lemma suck_effect g mp radius mc :
  Inv g ->
  let M := in_reach g mp (default (mouse_suck_radius g) radius) mc in
  exists g',
    suck_balls_with_mouse g mp radius mc = (Returns M, g') /\
    same_frame g g' /\
    heap g' = flagged M (heap g) /\
    balls g' = filter (fun r => r ∉ M) (balls g) /\
    inventory g' = inventory g ++ M.
Proof.
  intros HI M. unfold suck_balls_with_mouse.
  destruct (suck_loop_spec mp
              (default (mouse_suck_radius g) radius
               * default (mouse_suck_radius g) radius)%float
              mc (balls g) [] [] g eq_refl
              (Inv_NoDup_balls g HI) (Inv_distinct_ids g HI))
    as (g' & Hrun & Hrest).
  cbn [app] in Hrun.
  replace (pick mc [] _) with M in Hrun, Hrest.
  - exists g'. split; [exact Hrun | exact Hrest].
  - subst M. unfold in_reach, pick. destruct mc; [| reflexivity].
    cbn [length]. rewrite Z.sub_0_r. reflexivity.
Qed.

Lemma in_reach_sublist g mp rad mc :
  in_reach g mp rad mc `sublist_of` balls g.
Proof.
  unfold in_reach. destruct mc.
  - etrans; [apply sublist_take | apply sublist_filter].
  - apply sublist_filter.
Qed.

Lemma Inv_suck g mp radius mc :
  Inv g -> Inv (suck_balls_with_mouse g mp radius mc).2.
Proof.
  intros HI.
  destruct (suck_effect g mp radius mc HI) as (g' & -> & Hf & Hh & Hb & Hi).
  cbn [snd].
  set (M := in_reach g mp (default (mouse_suck_radius g) radius) mc) in *.
  pose proof (in_reach_sublist g mp (default (mouse_suck_radius g) radius) mc)
    as Hsub. fold M in Hsub.
  assert (HM : forall x, x ∈ M -> x ∈ balls g).
  { intros x Hx. eapply elem_of_sublist; eassumption. }
  assert (HMnd : NoDup M).
  { eapply sublist_NoDup; [apply (Inv_NoDup_balls g HI) | exact Hsub]. }
  destruct Hf as (_ & _ & _ & Er & Es & En).
  destruct HI as [Hv Hn Hfl Hid Hnx Hr Hs].
  apply NoDup_app in Hn as (Hn1 & Hdis & Hn2).
  constructor.
  - intros r Hr0. rewrite Hh, lookup_flagged.
    assert (is_Some (heap g !! r)) as [b ->].
    { apply Hv. rewrite Hb, Hi in Hr0.
      apply elem_of_app in Hr0 as [(_ & ?)%list_elem_of_filter | Hr0];
        [apply elem_of_app; auto |].
      apply elem_of_app in Hr0 as [? | ?]; apply elem_of_app; auto. }
    destruct (decide (r ∈ M)); cbn; eauto.
  - rewrite Hb, Hi. apply NoDup_app.
    split; [apply NoDup_filter; exact Hn1 |]. split.
    + intros x (HxM & HxB)%list_elem_of_filter [HxI | HxM']%elem_of_app.
      * exact (Hdis x HxB HxI).
      * exact (HxM HxM').
    + apply NoDup_app. split; [exact Hn2 |]. split; [| exact HMnd].
      intros x HxI HxM. exact (Hdis x (HM x HxM) HxI).
  - intros r b'. rewrite Hh, lookup_flagged, Hi, elem_of_app.
    destruct (heap g !! r) as [b |] eqn:E;
      destruct (decide (r ∈ M)) as [HrM | HrM]; cbn; intros [= <-].
    + cbn. tauto.
    + rewrite (Hfl r b E). tauto.
  - intros r b'. rewrite Hh, lookup_flagged.
    destruct (heap g !! r) as [b |] eqn:E;
      destruct (decide (r ∈ M)); cbn; intros [= <-]; cbn;
      apply (Hid r b E).
  - rewrite En, Hnx, Hh, length_flagged. reflexivity.
  - congruence.
  - congruence.
Qed.

End Suck.

(** ** [spit_ball_from_inventory] *)

Section SpitFacts.

Variable hypot : float -> float -> float.

Implicit Types (g : GameLogic) (r : ref) (b : Ball) (l : list ref)
  (h : list Ball).

Lemma launch_after_flag g mp d s r k :
  launch hypot (modify (set_in_inventory false) r (set_inventory k g))
    mp d s r
  = mkGameLogic (width g) (height g) (delete_zone g)
      (alter (spat mp (spit_velocity hypot d
                         (default (default_spit_speed g) s))) r (heap g))
      (balls g ++ [r]) k (mouse_suck_radius g) (default_spit_speed g)
      (_next_ball_id g).
Proof.
  unfold launch, modify, set_balls, set_heap, set_inventory. cbn.
  f_equal. rewrite !list_alter_alter_eq.
  apply list_alter_ext; [| reflexivity]. intros b _. reflexivity.
Qed.

(** No ball chosen and nothing to pop. *)
Lemma spit_empty g mp d s :
  inventory g = [] ->
  spit_ball_from_inventory hypot g mp d s None = (Returns None, g).
Proof.
  intros E. unfold spit_ball_from_inventory, pop_last. rewrite E.
  reflexivity.
Qed.

(** The chosen ball is not in the inventory. *)
Lemma spit_absent g mp d s r :
  distinct_ids (heap g) -> r ∉ inventory g ->
  spit_ball_from_inventory hypot g mp d s (Some r) = (Returns None, g).
Proof.
  intros Hd Hr. unfold spit_ball_from_inventory.
  destruct (list_contains (heap g) r (inventory g)) eqn:E; [| reflexivity].
  apply list_contains_elem_of in E; [contradiction | exact Hd].
Qed.

(** The chosen ball is in the inventory. *)
Lemma spit_chosen g mp d s r pre post :
  distinct_ids (heap g) -> inventory g = pre ++ r :: post -> r ∉ pre ->
  exists g',
    spit_ball_from_inventory hypot g mp d s (Some r) = (Returns (Some r), g')
    /\ spat_from hypot g mp d s r pre post g'.
Proof.
  intros Hd E Hpre. unfold spit_ball_from_inventory.
  assert (Hin : r ∈ inventory g).
  { rewrite E. apply elem_of_app. right. apply list_elem_of_here. }
  apply (list_contains_elem_of _ _ _ Hd) in Hin. rewrite Hin.
  unfold remove_ball. rewrite E, (list_remove_middle _ _ _ _ Hd Hpre).
  rewrite launch_after_flag. eexists. split; [reflexivity |].
  repeat split. exact E.
Qed.

(** No ball chosen: the last of the inventory goes. *)
Lemma spit_last g mp d s r pre :
  inventory g = pre ++ [r] ->
  exists g',
    spit_ball_from_inventory hypot g mp d s None = (Returns (Some r), g')
    /\ spat_from hypot g mp d s r pre [] g'.
Proof.
  intros E. unfold spit_ball_from_inventory, pop_last.
  rewrite E, last_snoc, List.removelast_last, launch_after_flag.
  eexists. split; [reflexivity |]. unfold spat_from. rewrite app_nil_r.
  repeat split. exact E.
Qed.

(** What a call of [spit_ball_from_inventory] does on a well-formed
    state: nothing, or one ball of the inventory is spat. *)
Lemma spit_effect g mp d s ball :
  Inv g ->
  let (res, g') := spit_ball_from_inventory hypot g mp d s ball in
  (res = Returns None /\ g' = g)
  \/ exists r pre post,
       res = Returns (Some r) /\ spat_from hypot g mp d s r pre post g'.
Proof.
  intros HI. pose proof (Inv_distinct_ids g HI) as Hd.
  destruct ball as [r |].
  - destruct (decide (r ∈ inventory g)) as [Hin | Hout].
    + apply list_elem_of_split_l in Hin as (pre & post & E & Hpre).
      destruct (spit_chosen g mp d s r pre post Hd E Hpre) as (g' & -> & H).
      right. eauto.
    + rewrite (spit_absent g mp d s r Hd Hout). left. done.
  - destruct (inventory g) as [| x k] eqn:E using rev_ind.
    + rewrite (spit_empty g mp d s E). left. done.
    + destruct (spit_last g mp d s x k E) as (g' & -> & H).
      right. eauto.
Qed.

Lemma Inv_spat_from g mp d s r pre post g' :
  Inv g -> spat_from hypot g mp d s r pre post g' -> Inv g'.
Proof.
  intros [Hv Hn Hfl Hid Hnx Hr Hs] (E & E' & Eb & Eh & Hf).
  destruct Hf as (_ & _ & _ & Er & Es & En).
  rewrite E in Hn, Hv.
  assert (Hperm : (balls g ++ [r]) ++ pre ++ post
                  ≡ₚ balls g ++ pre ++ r :: post).
  { rewrite <- app_assoc. apply Permutation_app_head. cbn.
    apply Permutation_middle. }
  assert (Hrout : r ∉ pre ++ post).
  { apply NoDup_app in Hn as (_ & _ & Hn).
    apply NoDup_app in Hn as (_ & Hd & Hn).
    apply NoDup_cons in Hn as [Hn _].
    intros [H | H]%elem_of_app; [| contradiction].
    apply (Hd r H). apply list_elem_of_here. }
  constructor.
  - intros x Hx. rewrite Eb, E', Hperm in Hx.
    destruct (Hv x Hx) as [b Hb]. rewrite Eh, list_lookup_alter.
    destruct (decide (r = x)) as [-> | _]; rewrite ?Hb; cbn; eauto.
  - rewrite Eb, E', Hperm. exact Hn.
  - intros x b'. rewrite Eh, E', list_lookup_alter.
    destruct (decide (r = x)) as [-> | Hne].
    + destruct (heap g !! x); cbn; intros [= <-]. cbn.
      split; [discriminate | contradiction].
    + intros Hb. rewrite (Hfl x b' Hb), E, !elem_of_app, elem_of_cons.
      split; [intros [? | [-> | ?]] | intros [? | ?]]; tauto.
  - intros x b'. rewrite Eh, list_lookup_alter.
    destruct (decide (r = x)) as [-> | Hne]; [| apply Hid].
    destruct (heap g !! x) as [b |] eqn:Hb; cbn; intros [= <-]. cbn.
    apply Hid. exact Hb.
  - rewrite En, Hnx, Eh, length_alter. reflexivity.
  - congruence.
  - congruence.
Qed.

Lemma Inv_spit g mp d s ball :
  Inv g -> Inv (spit_ball_from_inventory hypot g mp d s ball).2.
Proof.
  intros HI. pose proof (spit_effect g mp d s ball HI) as H.
  destruct (spit_ball_from_inventory hypot g mp d s ball) as [res g'].
  cbn [snd]. destruct H as [[_ ->] | (r & pre & post & _ & H)];
    [exact HI |].
  eapply Inv_spat_from; eassumption.
Qed.

(** Every state of the engine is well-formed. *)
Lemma reachable_Inv g : reachable hypot g -> Inv g.
Proof.
  induction 1 as [w h dz | c g _ IH].
  - apply Inv_new.
  - destruct c; cbn [exec].
    + apply Inv_create_ball, IH.
    + apply Inv_update, IH.
    + apply Inv_suck, IH.
    + apply Inv_spit, IH.
Qed.

End SpitFacts.

(** ** Floating-point facts

    Facts on binary64 arithmetic, from the specification of the primitive
    operations ([SpecFloat]). *)

Section FloatFacts.

Implicit Types (x y : float) (s : spec_float).

Lemma Prim2SF_zero : Prim2SF 0 = S754_zero false.
Proof. reflexivity. Qed.

(** Squaring forgets the sign: [r * r] is [abs r * abs r]. *)
Lemma mul_abs_abs x : (x * x = abs x * abs x)%float.
Proof.
  apply Prim2SF_inj. rewrite !mul_spec, abs_spec.
  destruct (Prim2SF x) as [sg | sg | | sg m e]; cbn;
    try destruct sg; reflexivity.
Qed.

(** *** NaN is contagious, and compares with nothing *)

Lemma ltb_true_not_nan x y :
  (x <? y)%float = true -> Prim2SF x <> S754_nan /\ Prim2SF y <> S754_nan.
Proof.
  rewrite ltb_spec. unfold SFltb.
  destruct (Prim2SF x), (Prim2SF y); cbn; intros H; split;
    congruence.
Qed.

Lemma sub_not_nan x y :
  Prim2SF (x - y) <> S754_nan -> Prim2SF x <> S754_nan.
Proof.
  rewrite sub_spec. intros H E. apply H. rewrite E. reflexivity.
Qed.

Lemma add_not_nan_l x y :
  Prim2SF (x + y) <> S754_nan -> Prim2SF x <> S754_nan.
Proof.
  rewrite add_spec. intros H E. apply H. rewrite E. reflexivity.
Qed.

Lemma add_not_nan_r x y :
  Prim2SF (x + y) <> S754_nan -> Prim2SF y <> S754_nan.
Proof.
  rewrite add_spec. intros H E. apply H. rewrite E.
  destruct (Prim2SF x); reflexivity.
Qed.

Lemma mul_not_nan_l x y :
  Prim2SF (x * y) <> S754_nan -> Prim2SF x <> S754_nan.
Proof.
  rewrite mul_spec. intros H E. apply H. rewrite E. reflexivity.
Qed.

Lemma abs_nonneg x :
  Prim2SF x <> S754_nan -> (0 <=? abs x)%float = true.
Proof.
  rewrite leb_spec, abs_spec, Prim2SF_zero.
  destruct (Prim2SF x); cbn; congruence.
Qed.

Lemma opp_abs_nonpos x :
  Prim2SF x <> S754_nan -> (- abs x <=? 0)%float = true.
Proof.
  rewrite leb_spec, opp_spec, abs_spec, Prim2SF_zero.
  destruct (Prim2SF x); cbn; congruence.
Qed.

(** A ball that [bounce] turns back has a velocity that is a number. *)
Lemma near_edge_velocity x0 vx dt r :
  (x0 + vx * dt - r <? 0)%float = true -> Prim2SF vx <> S754_nan.
Proof.
  intros [H _]%ltb_true_not_nan.
  eapply mul_not_nan_l, add_not_nan_r, sub_not_nan, H.
Qed.

Lemma far_edge_velocity x0 vx dt r dim :
  (dim <? x0 + vx * dt + r)%float = true -> Prim2SF vx <> S754_nan.
Proof.
  intros [_ H]%ltb_true_not_nan.
  eapply mul_not_nan_l, add_not_nan_r, add_not_nan_l, H.
Qed.

(** *** Zero *)

Lemma eqb_zero x :
  (x =? 0)%float = true <-> exists sg, Prim2SF x = S754_zero sg.
Proof.
  rewrite FloatAxioms.eqb_spec, Prim2SF_zero. unfold SFeqb. split.
  - destruct (Prim2SF x) as [sg | sg | | sg m e]; cbn; try discriminate.
    + eauto.
    + destruct sg; discriminate.
    + destruct sg; discriminate.
  - intros [sg ->]. reflexivity.
Qed.

(** The sample [hypot_sqrt] is zero on the zero vector, as [math.hypot]
    is. *)
Lemma hypot_sqrt_zero x y :
  (x =? 0)%float = true -> (y =? 0)%float = true ->
  (hypot_sqrt x y =? 0)%float = true.
Proof.
  rewrite !eqb_zero. intros [sx Hx] [sy Hy]. exists false.
  unfold hypot_sqrt. rewrite sqrt_spec, add_spec, !mul_spec, Hx, Hy.
  destruct sx, sy; reflexivity.
Qed.

End FloatFacts.

(** *** Signs through rounding *)

Section Rounding.

Lemma shr_m_shr_1 mrs : 0 <= shr_m mrs -> shr_m (shr_1 mrs) = shr_m mrs / 2.
Proof.
  destruct mrs as [m r s]. cbn [shr_m]. intros Hm. unfold shr_1.
  destruct m as [| [p | p |] | p]; cbn [shr_m];
    [reflexivity | | | reflexivity | lia].
  - apply (Z.div_unique (Z.pos p~1) 2 (Z.pos p) 1); lia.
  - apply (Z.div_unique (Z.pos p~0) 2 (Z.pos p) 0); lia.
Qed.

Lemma shr_m_iter_pos p : forall mrs,
  0 <= shr_m mrs ->
  shr_m (SpecFloat.iter_pos shr_1 p mrs) = shr_m mrs / 2 ^ Z.pos p.
Proof.
  assert (Hpow : forall q, 0 < 2 ^ Z.pos q) by (intros; apply Z.pow_pos_nonneg; lia).
  induction p as [p IH | p IH |]; intros mrs Hm; cbn [SpecFloat.iter_pos].
  - assert (H1 : 0 <= shr_m (shr_1 mrs)).
    { rewrite shr_m_shr_1 by exact Hm. apply Z.div_pos; lia. }
    assert (H2 : 0 <= shr_m (SpecFloat.iter_pos shr_1 p (shr_1 mrs))).
    { rewrite IH by exact H1. apply Z.div_pos; [exact H1 | apply Hpow]. }
    rewrite IH by exact H2. rewrite IH by exact H1.
    rewrite shr_m_shr_1 by exact Hm.
    pose proof (Hpow p).
    rewrite !Z.div_div by lia. f_equal.
    replace (Z.pos p~1) with (1 + Z.pos p + Z.pos p) by lia.
    rewrite !Z.pow_add_r by lia. lia.
  - assert (H1 : 0 <= shr_m (SpecFloat.iter_pos shr_1 p mrs)).
    { rewrite IH by exact Hm. apply Z.div_pos; [exact Hm | apply Hpow]. }
    rewrite IH by exact H1. rewrite IH by exact Hm.
    pose proof (Hpow p).
    rewrite !Z.div_div by lia. f_equal.
    replace (Z.pos p~0) with (Z.pos p + Z.pos p) by lia.
    rewrite !Z.pow_add_r by lia. lia.
  - rewrite shr_m_shr_1 by exact Hm. reflexivity.
Qed.

Lemma digits2_pos_lower m : 2 ^ (Z.pos (digits2_pos m) - 1) <= Z.pos m.
Proof.
  induction m as [m IH | m IH |]; cbn [digits2_pos].
  - rewrite Pos2Z.inj_succ.
    replace (Z.succ (Z.pos (digits2_pos m)) - 1)
      with (1 + (Z.pos (digits2_pos m) - 1)) by lia.
    rewrite Z.pow_add_r by lia. lia.
  - rewrite Pos2Z.inj_succ.
    replace (Z.succ (Z.pos (digits2_pos m)) - 1)
      with (1 + (Z.pos (digits2_pos m) - 1)) by lia.
    rewrite Z.pow_add_r by lia. lia.
  - reflexivity.
Qed.

Lemma shr_m_of_loc m l : shr_m (shr_record_of_loc m l) = m.
Proof. destruct l as [| []]; reflexivity. Qed.

Lemma shr_nonneg mrs e n : 0 <= shr_m mrs -> 0 <= shr_m (shr mrs e n).1.
Proof.
  intros Hm. unfold shr. destruct n as [| p | p]; cbn [fst]; try exact Hm.
  rewrite shr_m_iter_pos by exact Hm.
  apply Z.div_pos; [exact Hm | apply Z.pow_pos_nonneg; lia].
Qed.

Lemma shr_fexp_nonneg m e l :
  0 <= m -> 0 <= shr_m (shr_fexp prec emax m e l).1.
Proof.
  intros Hm. unfold shr_fexp. apply shr_nonneg.
  rewrite shr_m_of_loc. exact Hm.
Qed.

(** Above the smallest exponent, rounding a positive mantissa leaves a
    positive mantissa. *)
Lemma shr_fexp_pos m e l :
  0 < m -> emin <= e ->
  0 < shr_m (shr_fexp prec emax m e l).1
  /\ emin <= (shr_fexp prec emax m e l).2.
Proof.
  intros Hm He. unfold shr_fexp, shr.
  destruct m as [| m | m]; try lia. cbn [Zdigits2].
  destruct (fexp prec emax (Z.pos (digits2_pos m) + e) - e)
    as [| p | p] eqn:En; cbn [fst snd]; rewrite ?shr_m_of_loc;
    try (split; lia).
  assert (Ep : Z.pos p = Z.pos (digits2_pos m) - prec).
  { unfold fexp in En. lia. }
  split; [| lia].
  rewrite shr_m_iter_pos by (rewrite shr_m_of_loc; lia).
  rewrite shr_m_of_loc.
  pose proof (digits2_pos_lower m) as Hd.
  assert (Hle : 2 ^ Z.pos p <= Z.pos m).
  { eapply Z.le_trans; [| exact Hd].
    apply Z.pow_le_mono_r; [lia |]. rewrite Ep. unfold prec. lia. }
  assert (0 < 2 ^ Z.pos p) by (apply Z.pow_pos_nonneg; lia).
  apply Z.div_str_pos. lia.
Qed.

Lemma round_nearest_even_ge m l : m <= round_nearest_even m l.
Proof.
  unfold round_nearest_even. destruct l as [| []]; try lia.
  destruct (Z.even m); lia.
Qed.

(** Rounding keeps the sign... *)
Lemma binary_round_aux_sign sg m e l :
  0 <= m ->
  match binary_round_aux prec emax sg m e l with
  | S754_zero b | S754_infinity b | S754_finite b _ _ => b = sg
  | S754_nan => False
  end.
Proof.
  intros Hm. unfold binary_round_aux.
  pose proof (shr_fexp_nonneg m e l Hm) as H1.
  destruct (shr_fexp prec emax m e l) as [mrs1 e1]. cbn [fst] in H1.
  pose proof (round_nearest_even_ge (shr_m mrs1) (loc_of_shr_record mrs1))
    as Hr.
  set (m2 := round_nearest_even (shr_m mrs1) (loc_of_shr_record mrs1)) in *.
  pose proof (shr_fexp_nonneg m2 e1 loc_Exact ltac:(lia)) as H2.
  destruct (shr_fexp prec emax m2 e1 loc_Exact) as [mrs2 e2].
  cbn [fst] in H2.
  destruct (shr_m mrs2) as [| p | p]; [reflexivity | | lia].
  destruct (e2 <=? emax - prec); reflexivity.
Qed.

(** ... and, above the smallest exponent, does not reach zero. *)
Lemma binary_round_aux_nonzero sg m e l :
  0 < m -> emin <= e ->
  match binary_round_aux prec emax sg m e l with
  | S754_infinity b | S754_finite b _ _ => b = sg
  | _ => False
  end.
Proof.
  intros Hm He. unfold binary_round_aux.
  pose proof (shr_fexp_pos m e l Hm He) as [H1 He1].
  destruct (shr_fexp prec emax m e l) as [mrs1 e1]. cbn [fst snd] in H1, He1.
  pose proof (round_nearest_even_ge (shr_m mrs1) (loc_of_shr_record mrs1))
    as Hr.
  set (m2 := round_nearest_even (shr_m mrs1) (loc_of_shr_record mrs1)) in *.
  pose proof (shr_fexp_pos m2 e1 loc_Exact ltac:(lia) He1) as [H2 _].
  destruct (shr_fexp prec emax m2 e1 loc_Exact) as [mrs2 e2].
  cbn [fst] in H2.
  destruct (shr_m mrs2) as [| p | p]; [lia | | lia].
  destruct (e2 <=? emax - prec); reflexivity.
Qed.

Lemma binary_round_nonzero sg m e :
  emin <= e ->
  match binary_round prec emax sg m e with
  | S754_infinity b | S754_finite b _ _ => b = sg
  | _ => False
  end.
Proof.
  intros He. unfold binary_round, shl_align.
  destruct (fexp prec emax (Z.pos (digits2_pos m) + e) - e) as [| p | p] eqn:En.
  - apply binary_round_aux_nonzero; [lia | exact He].
  - apply binary_round_aux_nonzero; [lia | exact He].
  - apply binary_round_aux_nonzero; [lia |]. unfold fexp. lia.
Qed.

Lemma valid_finite_emin sg m e :
  valid_binary (S754_finite sg m e) = true -> emin <= e.
Proof.
  cbn. unfold bounded, canonical_mantissa, fexp.
  intros [H _]%andb_true_iff. apply Z.eqb_eq in H. lia.
Qed.

(** *** The signs of the operations of the left wall *)

Lemma mul_opp_positive m e b :
  sf_nonnegative b = true ->
  sf_nonpositive (SF64mul (SFopp (S754_finite false m e)) b) = true.
Proof.
  destruct b as [[] | [] | | [] mb eb]; try discriminate;
    intros _; try reflexivity.
  unfold SF64mul, SFmul, SFopp. cbn [negb xorb].
  pose proof (binary_round_aux_sign true (Z.pos (m * mb)) (e + eb)
                loc_Exact ltac:(lia)) as H.
  destruct (binary_round_aux _ _ _ _ _ _) as [b | b | | b ? ?];
    try contradiction; subst b; reflexivity.
Qed.

Lemma add_zero_nonpositive w :
  sf_nonpositive w = true ->
  sf_nonpositive (SF64add (S754_zero false) w) = true.
Proof. destruct w as [[] | [] | | [] m e]; try discriminate; reflexivity. Qed.

Lemma sub_nonpositive_positive a b :
  valid_binary a = true -> valid_binary b = true ->
  sf_nonpositive a = true -> sf_positive b = true ->
  sf_negative (SF64sub a b) = true.
Proof.
  intros Va Vb.
  destruct a as [sa | [] | | [] ma ea]; try discriminate;
    destruct b as [[] | [] | | [] mb eb]; try discriminate;
    intros _ _; try reflexivity; try (destruct sa; reflexivity).
  apply valid_finite_emin in Va, Vb.
  unfold SF64sub, SFsub, cond_Zopp.
  set (ez := Z.min ea eb).
  set (pa := (shl_align ma ea ez).1). set (pb := (shl_align mb eb ez).1).
  change (Z.sub (Z.opp (Z.pos pa)) (Z.pos pb)) with (Z.neg (pa + pb)).
  unfold binary_normalize.
  pose proof (binary_round_nonzero true (pa + pb) ez ltac:(lia)) as H.
  destruct (binary_round _ _ _ _ _) as [b | b | | b ? ?];
    try contradiction; subst b; reflexivity.
Qed.

Lemma ltb_zero_positive x : (0 <? x)%float = true -> sf_positive (Prim2SF x) = true.
Proof.
  rewrite ltb_spec, Prim2SF_zero. unfold SFltb.
  destruct (Prim2SF x) as [[] | [] | | [] m e]; cbn; congruence.
Qed.

Lemma negative_ltb_zero x : sf_negative (Prim2SF x) = true -> (x <? 0)%float = true.
Proof.
  rewrite ltb_spec, Prim2SF_zero. unfold SFltb.
  destruct (Prim2SF x) as [[] | [] | | [] m e]; cbn; congruence.
Qed.

Lemma leb_zero_nonnegative x :
  (0 <=? x)%float = true -> sf_nonnegative (Prim2SF x) = true.
Proof.
  rewrite leb_spec, Prim2SF_zero. unfold SFleb.
  destruct (Prim2SF x) as [[] | [] | | [] m e]; cbn; congruence.
Qed.

Lemma positive_finite x :
  (0 <? x)%float = true -> (x <? infinity)%float = true ->
  exists m e, Prim2SF x = S754_finite false m e.
Proof.
  rewrite !ltb_spec, Prim2SF_zero.
  change (Prim2SF infinity) with (S754_infinity false). unfold SFltb.
  destruct (Prim2SF x) as [[] | [] | | [] m e]; cbn; try discriminate.
  eauto.
Qed.

(** A ball at the left wall that moves to the left, at a finite speed and
    for a time that is not negative, has its near edge across the wall. *)
Lemma left_wall_crossed v dt r :
  (0 <? v)%float = true -> (v <? infinity)%float = true ->
  (0 <=? dt)%float = true -> (0 <? r)%float = true ->
  (0 + - v * dt - r <? 0)%float = true.
Proof.
  intros Hv Hfin Hdt Hr. apply negative_ltb_zero. rewrite sub_spec.
  apply sub_nonpositive_positive.
  - apply Prim2SF_valid.
  - apply Prim2SF_valid.
  - rewrite add_spec, mul_spec, opp_spec, Prim2SF_zero.
    destruct (positive_finite v Hv Hfin) as (m & e & ->).
    apply add_zero_nonpositive, mul_opp_positive, leb_zero_nonnegative.
    exact Hdt.
  - apply ltb_zero_positive. exact Hr.
Qed.

(** The same at an infinite speed, when the time step is above zero. *)
Lemma left_wall_crossed_infinite v dt r :
  (0 <? v)%float = true -> (v <? infinity)%float = false ->
  (0 <? dt)%float = true -> (0 <? r)%float = true ->
  (0 + - v * dt - r <? 0)%float = true.
Proof.
  rewrite !ltb_spec, sub_spec, add_spec, mul_spec, opp_spec, Prim2SF_zero.
  change (Prim2SF infinity) with (S754_infinity false). unfold SFltb.
  destruct (Prim2SF v) as [[] | [] | | [] mv ev]; cbn; try discriminate;
    intros _ _;
    destruct (Prim2SF dt) as [[] | [] | | [] md ed]; cbn; try discriminate;
    intros _;
    destruct (Prim2SF r) as [[] | [] | | [] mr er]; cbn; try discriminate;
    reflexivity.
Qed.

Lemma ltb_leb_zero dt : (0 <? dt)%float = true -> (0 <=? dt)%float = true.
Proof.
  rewrite ltb_spec, leb_spec, Prim2SF_zero. unfold SFltb, SFleb.
  destruct (Prim2SF dt) as [[] | [] | | [] m e]; cbn; congruence.
Qed.

(** The ball at the left wall crosses it in a frame: at a finite speed
    for any time step that is not negative, at an infinite speed for a
    time step above zero (infinity times zero is not a number). *)
Lemma left_wall_reached v dt r :
  (0 <? v)%float = true -> (0 <=? dt)%float = true ->
  (0 <? r)%float = true ->
  (v <? infinity)%float = true \/ (0 <? dt)%float = true ->
  (0 + - v * dt - r <? 0)%float = true.
Proof.
  intros Hv Hdt Hr Hvd. destruct (v <? infinity)%float eqn:Hfin.
  - apply left_wall_crossed; assumption.
  - destruct Hvd as [Hvd | Hvd]; [discriminate |].
    apply left_wall_crossed_infinite; assumption.
Qed.

End Rounding.

(** ** No ball is lost

    What a call, and a run of calls, does to the balls that the two
    collections hold. *)

Section Conservation.

Variable hypot : float -> float -> float.

Implicit Types (g : GameLogic) (r : ref) (b : Ball) (l : list ref).

Lemma Permutation_filter_sublist (M B : list ref) :
  NoDup B -> M `sublist_of` B -> filter (fun r => r ∉ M) B ++ M ≡ₚ B.
Proof.
  intros Hnd Hsub. induction Hsub as [| x M B Hsub IH | x M B Hsub IH].
  - reflexivity.
  - apply NoDup_cons in Hnd as [Hx Hnd].
    rewrite filter_cons_False by (intros Hn; apply Hn, list_elem_of_here).
    rewrite (filter_ext_in (fun r => r ∉ x :: M) (fun r => r ∉ M)).
    + rewrite <- Permutation_middle. constructor. apply IH. exact Hnd.
    + intros y Hy. rewrite not_elem_of_cons. split; [tauto |].
      intros Hy'. split; [| exact Hy']. intros ->. contradiction.
  - apply NoDup_cons in Hnd as [Hx Hnd].
    rewrite filter_cons_True.
    + cbn. constructor. apply IH. exact Hnd.
    + intros Hin. apply Hx. eapply elem_of_sublist; eassumption.
Qed.

Lemma Inv_exec c g : Inv g -> Inv (exec hypot c g).
Proof.
  intros HI. destruct c; cbn [exec].
  - apply Inv_create_ball. exact HI.
  - apply Inv_update. exact HI.
  - apply Inv_suck. exact HI.
  - apply Inv_spit. exact HI.
Qed.

(** No call takes an object out of the store. *)
Lemma exec_heap_length c g :
  Inv g -> (length (heap g) <= length (heap (exec hypot c g)))%nat.
Proof.
  intros HI. pose proof (Inv_exec c g HI) as HI'.
  pose proof (inv_next g HI) as Hn. pose proof (inv_next _ HI') as Hn'.
  enough (_next_ball_id g <= _next_ball_id (exec hypot c g)) by lia.
  clear Hn Hn' HI'.
  destruct c as [p v rad col | dt | mp rd n | mp d s ball]; cbn [exec].
  - cbn. lia.
  - destruct (update g dt) as [res g'] eqn:Hu. cbn [snd].
    destruct (update_effect g dt res g' (Inv_NoDup_balls g HI) Hu)
      as ((_ & _ & _ & _ & _ & ->) & _). lia.
  - destruct (suck_effect g mp rd n HI)
      as (g' & -> & (_ & _ & _ & _ & _ & Hn) & _). cbn [snd]. lia.
  - pose proof (spit_effect hypot g mp d s ball HI) as H.
    destruct (spit_ball_from_inventory hypot g mp d s ball) as [res g'].
    cbn [snd].
    destruct H as [[_ ->] | (r & pre & post & _ & _ & _ & _ & _ & Hf)];
      [lia |].
    destruct Hf as (_ & _ & _ & _ & _ & ->). lia.
Qed.

Lemma app_swap_r {A} (a b c : list A) : (a ++ b) ++ c ≡ₚ (a ++ c) ++ b.
Proof.
  rewrite <- !app_assoc. apply Permutation_app_head, Permutation_app_comm.
Qed.

(** The purge of [update] tests the centres that the move and the clamp
    of the frame leave. *)
Lemma in_delete_zone_update g dt res g' r :
  Inv g -> update g dt = (res, g') -> r ∈ balls g ->
  in_delete_zone g' r = falls_in_zone g dt r.
Proof.
  intros HI Hu Hr.
  destruct (update_effect g dt res g' (Inv_NoDup_balls g HI) Hu)
    as ((_ & _ & Hdz & _) & _ & _ & Hin & _).
  destruct (Inv_valid_world g r HI Hr) as [b Hb].
  destruct (Hin r b Hr Hb) as [c Hb'].
  unfold in_delete_zone, falls_in_zone. rewrite Hb', Hb, Hdz. reflexivity.
Qed.

(** One call: the balls held after it, and those the delete zone removed
    in it, are the balls held before it and the ball it created. *)
Lemma exec_conserve c g :
  Inv g ->
  (balls (exec hypot c g) ++ inventory (exec hypot c g)) ++ purged_by c g
  ≡ₚ (balls g ++ inventory g) ++ created_by c g.
Proof.
  intros HI. destruct c as [p v rad col | dt | mp rd n | mp d s ball];
    cbn [exec purged_by created_by]; rewrite ?app_nil_r.
  - cbn [create_ball fst snd balls inventory]. apply app_swap_r.
  - unfold removed_by_zone.
    destruct (update g dt) as [res g'] eqn:Hu. cbn [fst snd].
    destruct (update_effect g dt res g' (Inv_NoDup_balls g HI) Hu)
      as (_ & Hi & _ & _ & Hb).
    rewrite Hi. destruct res as [u | e]; rewrite Hb, ?app_nil_r;
      [| reflexivity].
    rewrite (filter_ext_in (fun r => ¬ in_delete_zone g' r)
               (fun r => ¬ falls_in_zone g dt r)).
    + rewrite app_swap_r. apply Permutation_app_tail.
      rewrite Permutation_app_comm. apply filter_app_complement.
    + intros r Hr. rewrite (in_delete_zone_update g dt _ g' r HI Hu Hr).
      reflexivity.
  - destruct (suck_effect g mp rd n HI) as (g' & -> & _ & _ & Hb & Hi).
    cbn [snd]. rewrite Hb, Hi.
    rewrite (Permutation_app_comm (inventory g)), app_assoc.
    apply Permutation_app_tail, Permutation_filter_sublist.
    + apply Inv_NoDup_balls. exact HI.
    + apply in_reach_sublist.
  - pose proof (spit_effect hypot g mp d s ball HI) as H.
    destruct (spit_ball_from_inventory hypot g mp d s ball) as [res g'].
    cbn [snd].
    destruct H as [[_ ->] | (r & pre & post & _ & Ei & Ei' & Eb & _)];
      [reflexivity |].
    rewrite Eb, Ei, Ei', <- app_assoc. apply Permutation_app_head.
    cbn. apply Permutation_middle.
Qed.

(** A run of calls: the same, with the balls it created and the balls
    the delete zone removed in its frames. *)
Lemma run_conserve calls : forall g,
  Inv g ->
  (balls (run hypot calls g) ++ inventory (run hypot calls g))
    ++ purged hypot calls g
  ≡ₚ (balls g ++ inventory g) ++ created hypot calls g.
Proof.
  induction calls as [| c calls IH]; intros g HI.
  - cbn. rewrite !app_nil_r. reflexivity.
  - change (run hypot (c :: calls) g) with (run hypot calls (exec hypot c g)).
    cbn [purged created].
    pose proof (IH _ (Inv_exec c g HI)) as H1.
    pose proof (exec_conserve c g HI) as H2.
    rewrite !app_assoc, <- H2.
    rewrite (app_swap_r _ (purged_by c g)), H1. apply app_swap_r.
Qed.

(** The balls that a run creates are new, and no two of them are the
    same. *)
Lemma created_fresh calls : forall g,
  Inv g ->
  NoDup (created hypot calls g)
  /\ forall r, r ∈ created hypot calls g -> (length (heap g) <= r)%nat.
Proof.
  induction calls as [| c calls IH]; intros g HI; cbn [created].
  - split; [constructor | intros r Hr; inversion Hr].
  - destruct (IH _ (Inv_exec c g HI)) as [Hnd Hge].
    pose proof (exec_heap_length c g HI) as Hlen.
    destruct c as [p v rad col | dt | mp rd n | mp d s ball];
      cbn [created_by app];
      try (split; [exact Hnd | intros r Hr; apply Hge in Hr; lia]).
    cbn [create_ball fst].
    assert (Hl : length (heap (exec hypot (CreateBall p v rad col) g))
                 = S (length (heap g))).
    { cbn. rewrite length_app. cbn. lia. }
    split.
    + apply NoDup_cons. split; [| exact Hnd].
      intros Hr. apply Hge in Hr. lia.
    + intros r [-> | Hr]%elem_of_cons; [lia |]. apply Hge in Hr. lia.
Qed.

Lemma run_held_NoDup calls g :
  Inv g ->
  NoDup ((balls (run hypot calls g) ++ inventory (run hypot calls g))
           ++ purged hypot calls g).
Proof.
  intros HI. rewrite (run_conserve calls g HI).
  destruct (created_fresh calls g HI) as [Hnd Hge].
  apply NoDup_app. split; [exact (inv_nodup g HI) |]. split; [| exact Hnd].
  intros r Hr Hc. apply Hge in Hc.
  apply (inv_valid g HI), lookup_lt_is_Some in Hr. lia.
Qed.

End Conservation.

(** ** The claims of the specification *)

(** C1, as the specification states it, fails: the mean of 201 and 0 is
    100.5, which Python's [round] sends to the even neighbour 100, where
    rounding half away from zero gives 101. *)
Lemma mix_colors_rgb_half_away_counterexample :
  mix_colors_rgb (201, 0, 0) (0, 0, 0) = Some (100, 0, 0) /\
  mixColors_spec (201, 0, 0) (0, 0, 0) = (101, 0, 0) /\
  mix_colors_rgb (201, 0, 0) (0, 0, 0)
  <> Some (mixColors_spec (201, 0, 0) (0, 0, 0)).
Proof. split; [reflexivity | split; [reflexivity | discriminate]]. Qed.

(** C1, amended: for channels whose sums are in the range of [float],
    [mix_colors_rgb] returns, and each channel of its result is the mean of
    the two input channels rounded half to even, then clamped to [0, 255];
    the red channel of the mix of (201,0,0) and (0,0,0) is 100, and so is
    that of (200,0,0) and (0,0,0). *)
Theorem mix_colors_rgb_half_even c1 c2 :
  summable (red c1) (red c2) -> summable (green c1) (green c2) ->
  summable (blue c1) (blue c2) ->
  (exists mr mg mb,
     mix_colors_rgb c1 c2
     = Some (clamp mr 0 255, clamp mg 0 255, clamp mb 0 255) /\
     half_even_mean (red c1) (red c2) mr /\
     half_even_mean (green c1) (green c2) mg /\
     half_even_mean (blue c1) (blue c2) mb) /\
  red <$> mix_colors_rgb (201, 0, 0) (0, 0, 0) = Some 100 /\
  red <$> mix_colors_rgb (200, 0, 0) (0, 0, 0) = Some 100.
Proof.
  destruct c1 as [[r1 g1] b1], c2 as [[r2 g2] b2]. cbn [red green blue fst snd].
  intros Hr Hg Hb. split; [| split; reflexivity].
  destruct (avg_spec r1 r2 Hr) as (vr & mr & Er & Hmr & Cr).
  destruct (avg_spec g1 g2 Hg) as (vg & mg & Eg & Hmg & Cg).
  destruct (avg_spec b1 b2 Hb) as (vb & mb & Eb & Hmb & Cb).
  exists mr, mg, mb. unfold mix_colors_rgb. rewrite Er, Eg, Eb. cbn.
  rewrite Cr, Cg, Cb. done.
Qed.

(** The theorem at red and blue: the mean 127.5 goes to 128. *)
Lemma mix_colors_rgb_half_even_witness :
  (exists mr mg mb,
     mix_colors_rgb (255, 0, 0) (0, 0, 255)
     = Some (clamp mr 0 255, clamp mg 0 255, clamp mb 0 255) /\
     half_even_mean 255 0 mr /\ half_even_mean 0 0 mg /\
     half_even_mean 0 255 mb) /\
  red <$> mix_colors_rgb (201, 0, 0) (0, 0, 0) = Some 100 /\
  red <$> mix_colors_rgb (200, 0, 0) (0, 0, 0) = Some 100.
Proof.
  apply (mix_colors_rgb_half_even (255, 0, 0) (0, 0, 255)); reflexivity.
Defined.

Section Claims.

(** [math.hypot], of which the engine uses one property: the length of
    the zero vector is zero. *)
Variable hypot : float -> float -> float.
Hypothesis hypot_zero : forall x y,
  (x =? 0)%float = true -> (y =? 0)%float = true ->
  (hypot x y =? 0)%float = true.

Implicit Types (g : GameLogic) (r : ref) (b : Ball) (l : list ref).

Lemma in_delete_zone_repainted l g g' r :
  repainted l g g' -> in_delete_zone g' r = in_delete_zone g r.
Proof.
  intros Hrep. unfold in_delete_zone.
  destruct Hrep as ((_ & _ & -> & _) & _ & _ & H).
  destruct (H r) as [-> | (_ & b & c & -> & ->)]; reflexivity.
Qed.

(** C2: on every state of the engine, [update], whose first loop moves and
    clamps ball after ball, does what the four passes of the
    specification do (move, clamp, collision mix, purge, each over the
    whole world before the next); and the purge tests the position the
    clamp pass left. *)
Theorem update_is_four_passes g dt :
  reachable hypot g ->
  update g dt = update_passes g dt /\
  forall g', update g dt = (Returns tt, g') ->
    balls g' =
    filter (fun r => ¬ in_delete_zone (clamp_pass (move_pass dt g)) r)
      (balls g).
Proof.
  intros Hg. pose proof (reachable_Inv hypot g Hg) as HI.
  pose proof (Inv_NoDup_balls g HI) as Hnd.
  assert (E1 : clamp_pass (move_pass dt g)
               = fold_left (move_and_keep dt) (balls g) g).
  { unfold clamp_pass, move_pass.
    rewrite (balls_fold_modify (fun _ b => move b dt)).
    symmetry. apply move_and_keep_passes. exact Hnd. }
  split.
  - unfold update, update_passes. cbn zeta. rewrite E1. reflexivity.
  - intros g'. rewrite E1. unfold update.
    destruct (_mix_colors_on_collisions _) as [[[] | e] g2] eqn:Hmix;
      intros [= <-].
    pose proof (mix_pass_repainted _ _ _ Hmix) as Hrep.
    unfold _remove_balls_in_delete_zone. cbn [balls set_balls].
    destruct (frame_move_and_keep dt (balls g) g) as (_ & Hb1 & _).
    pose proof Hrep as (_ & Hb2 & _).
    rewrite Hb2, Hb1. apply list_filter_iff. intros r.
    rewrite (in_delete_zone_repainted _ _ _ r Hrep). reflexivity.
Qed.

(** C3: in every state of the engine, the world balls do not carry the
    inventory flag, the inventory balls carry it, no ball is in both
    collections and none is listed twice; and no ball is lost: after any
    further calls, each ball that the collections held, and each ball
    created since, is in exactly one of the world, the inventory and the
    balls that the delete zone removed in a frame.  From a fresh engine,
    whose collections are empty: every ball created and not removed by
    the delete zone is held by exactly one collection. *)
Theorem one_container_per_ball g :
  reachable hypot g ->
  (forall r, r ∈ balls g ->
     exists b, heap g !! r = Some b /\ in_inventory b = false) /\
  (forall r, r ∈ inventory g ->
     exists b, heap g !! r = Some b /\ in_inventory b = true) /\
  (forall r, r ∈ balls g -> r ∉ inventory g) /\
  NoDup (balls g) /\ NoDup (inventory g) /\
  (forall calls,
     let g' := run hypot calls g in
     (balls g' ++ inventory g') ++ purged hypot calls g
     ≡ₚ (balls g ++ inventory g) ++ created hypot calls g
     /\ NoDup ((balls g' ++ inventory g') ++ purged hypot calls g)) /\
  (forall w h dz calls r,
     let g' := run hypot calls (new_GameLogic w h dz) in
     r ∈ created hypot calls (new_GameLogic w h dz) ->
     (r ∉ purged hypot calls (new_GameLogic w h dz)) ->
     (r ∈ balls g' /\ (r ∉ inventory g'))
     \/ (r ∈ inventory g' /\ (r ∉ balls g'))).
Proof.
  intros Hg. pose proof (reachable_Inv hypot g Hg) as HI.
  split; [| split; [| split; [| split; [| split; [| split]]]]].
  - intros r Hr. destruct (Inv_valid_world g r HI Hr) as [b Hb].
    exists b. split; [exact Hb |]. eapply Inv_world_flag; eassumption.
  - intros r Hr. destruct (Inv_valid_inventory g r HI Hr) as [b Hb].
    exists b. split; [exact Hb |]. apply (inv_flag g HI r b Hb). exact Hr.
  - intros r. apply Inv_disjoint. exact HI.
  - apply Inv_NoDup_balls. exact HI.
  - apply Inv_NoDup_inventory. exact HI.
  - intros calls g'. split.
    + apply run_conserve. exact HI.
    + apply run_held_NoDup. exact HI.
  - intros w h dz calls r g' Hc Hp.
    pose proof (Inv_new w h dz) as HI0.
    pose proof (run_conserve hypot calls _ HI0) as Hperm.
    pose proof (run_held_NoDup hypot calls _ HI0) as Hnd.
    fold g' in Hperm, Hnd. cbn [new_GameLogic balls inventory app] in Hperm.
    assert (Hin : r ∈ (balls g' ++ inventory g')
                      ++ purged hypot calls (new_GameLogic w h dz))
      by (rewrite Hperm; exact Hc).
    apply NoDup_app in Hnd as (Hnd & _ & _).
    apply NoDup_app in Hnd as (_ & Hdis & _).
    apply elem_of_app in Hin as [Hin | Hin]; [| contradiction].
    apply elem_of_app in Hin as [Hin | Hin].
    + left. split; [exact Hin | apply Hdis; exact Hin].
    + right. split; [exact Hin |]. intros Hb. exact (Hdis r Hb Hin).
Qed.



(** C5: [contains] is the closed rectangle; when [update] returns (it
    does when the colours of the world are in range), a world ball whose
    moved and clamped centre is in the delete zone is in neither
    collection, a world ball whose centre is outside stays in the world,
    and the inventory and its balls are as before. *)
Theorem delete_zone_purge g dt :
  reachable hypot g ->
  (forall dz x y,
     contains dz (x, y) = true <->
     (x1 dz <=? x)%float = true /\ (x <=? x2 dz)%float = true /\
     (y1 dz <=? y)%float = true /\ (y <=? y2 dz)%float = true) /\
  (colors_ok g -> exists g', update g dt = (Returns tt, g')) /\
  (forall g', update g dt = (Returns tt, g') ->
     (forall r b, r ∈ balls g -> heap g !! r = Some b ->
        (contains (delete_zone g) (position (stepped g dt b)) = true ->
           (r ∉ balls g') /\ (r ∉ inventory g')) /\
        (contains (delete_zone g) (position (stepped g dt b)) = false ->
           r ∈ balls g')) /\
     inventory g' = inventory g /\
     (forall r, r ∈ inventory g -> heap g' !! r = heap g !! r)).
Proof.
  intros Hg. pose proof (reachable_Inv hypot g Hg) as HI.
  pose proof (Inv_NoDup_balls g HI) as Hnd.
  split; [| split].
  - intros dz x y. unfold contains. rewrite !andb_true_iff. tauto.
  - apply update_returns. exact Hnd.
  - intros g' Hu.
    destruct (update_effect g dt _ g' Hnd Hu) as (Hf & Hi & Hout & Hin & Hb).
    destruct Hf as (_ & _ & Hdz & _).
    split; [| split; [exact Hi |]].
    + intros r b Hr Hb0. destruct (Hin r b Hr Hb0) as [c Hb'].
      assert (Hz : in_delete_zone g' r
                   = contains (delete_zone g) (position (stepped g dt b))).
      { unfold in_delete_zone. rewrite Hb', Hdz. reflexivity. }
      split; intros Hc.
      * split.
        -- rewrite Hb. intros [Hn _]%list_elem_of_filter. apply Hn.
           rewrite Hz, Hc. exact I.
        -- rewrite Hi. apply Inv_disjoint; assumption.
      * rewrite Hb. apply list_elem_of_filter. split; [| exact Hr].
        rewrite Hz, Hc. intros [].
    + intros r Hr. apply Hout. intros Hr'.
      exact (Inv_disjoint g r HI Hr' Hr).
Qed.

Lemma bounce_axis x0 vx dt rad dim :
  let x := (x0 + vx * dt)%float in
  axis_clamped x vx rad dim (bounce x vx rad dim).1 (bounce x vx rad dim).2.
Proof.
  intros x. unfold axis_clamped, bounce.
  destruct (x - rad <? 0)%float eqn:E1;
    [| destruct (dim <? x + rad)%float eqn:E2]; cbn [fst snd];
    (split; [| split]); try discriminate; intros; try done.
  - split; [reflexivity | split; [reflexivity |]].
    apply abs_nonneg. eapply near_edge_velocity. exact E1.
  - split; [reflexivity | split; [reflexivity |]].
    apply opp_abs_nonpos. eapply far_edge_velocity. exact E2.
Qed.

Lemma stepped_world g dt b :
  in_inventory b = false ->
  let x := ((position b).1 + (velocity b).1 * dt)%float in
  let y := ((position b).2 + (velocity b).2 * dt)%float in
  let bx := bounce x (velocity b).1 (radius b) (width g) in
  let bz := bounce y (velocity b).2 (radius b) (height g) in
  position (stepped g dt b) = (bx.1, bz.1)
  /\ velocity (stepped g dt b) = (bx.2, bz.2).
Proof.
  intros F. unfold stepped, move, keep_inside. rewrite F.
  destruct b as [i [px py] [vx vy] rad col fl]. cbn.
  destruct (bounce _ vx rad (width g)), (bounce _ vy rad (height g)).
  cbn. done.
Qed.

(** C6: after [update], a world ball is on each axis as the clamp of
    the specification leaves it: at [radius] with a velocity that is not
    negative when its moved near edge was below 0; else at
    [dimension - radius] with a velocity that is not positive when its
    moved far edge was beyond the dimension; else where the move left it.
    A ball at (0, y) with velocity (-v, 0), v > 0, ends a frame with its
    centre at [radius] and a velocity that is not negative on the first
    axis, purged or not; the frame has a time step that is not negative
    and the ball the positive radius of the specification, and the
    product of the speed and the time step is a number: the speed is
    finite, or the time step above zero. *)
Theorem boundary_clamp g dt r b :
  reachable hypot g -> r ∈ balls g -> heap g !! r = Some b ->
  exists b',
    heap (update g dt).2 !! r = Some b' /\
    axis_clamped ((position b).1 + (velocity b).1 * dt)%float
      (velocity b).1 (radius b) (width g) (position b').1 (velocity b').1 /\
    axis_clamped ((position b).2 + (velocity b).2 * dt)%float
      (velocity b).2 (radius b) (height g) (position b').2 (velocity b').2 /\
    (forall y v,
       position b = (0, y)%float -> velocity b = (- v, 0)%float ->
       (0 <? v)%float = true ->
       (0 <=? dt)%float = true -> (0 <? radius b)%float = true ->
       (v <? infinity)%float = true \/ (0 <? dt)%float = true ->
       (position b').1 = radius b /\ (0 <=? (velocity b').1)%float = true).
Proof.
  intros Hg Hr Hb. pose proof (reachable_Inv hypot g Hg) as HI.
  pose proof (Inv_NoDup_balls g HI) as Hnd.
  destruct (update g dt) as [res g'] eqn:Hu. cbn [snd].
  destruct (update_effect g dt res g' Hnd Hu) as (_ & _ & _ & Hin & _).
  destruct (Hin r b Hr Hb) as [c Hb'].
  exists (set_color c (stepped g dt b)). split; [exact Hb' |].
  destruct (stepped_world g dt b (Inv_world_flag g r b HI Hr Hb)) as [Ep Ev].
  cbn [position velocity set_color]. rewrite Ep, Ev. cbn [fst snd].
  pose proof (bounce_axis (position b).1 (velocity b).1 dt (radius b)
                (width g)) as Hx.
  pose proof (bounce_axis (position b).2 (velocity b).2 dt (radius b)
                (height g)) as Hy.
  split; [exact Hx |]. split; [exact Hy |].
  intros y v Epos Evel Hv Hdt Hrad Hfin.
  destruct Hx as (Hnear & _). rewrite Epos, Evel in Hnear. cbn [fst] in Hnear.
  rewrite Epos, Evel. cbn [fst].
  destruct (Hnear (left_wall_reached v dt (radius b) Hv Hdt Hrad Hfin))
    as (E1 & _ & E3).
  split; assumption.
Qed.

Lemma length_filter_sublist (M B : list nat) :
  NoDup B -> M `sublist_of` B ->
  (length (filter (fun r => r ∉ M) B) + length M = length B)%nat.
Proof.
  intros Hnd Hsub. induction Hsub as [| x M B Hsub IH | x M B Hsub IH].
  - reflexivity.
  - apply NoDup_cons in Hnd as [Hx Hnd].
    rewrite filter_cons_False by (intros Hn; apply Hn, list_elem_of_here).
    rewrite (filter_ext_in (fun r => r ∉ x :: M) (fun r => r ∉ M)).
    + cbn [length]. rewrite <- (IH Hnd). lia.
    + intros y Hy. rewrite not_elem_of_cons. split; [tauto |].
      intros Hy'. split; [| exact Hy']. intros ->. contradiction.
  - apply NoDup_cons in Hnd as [Hx Hnd].
    rewrite filter_cons_True.
    + cbn [length]. rewrite <- (IH Hnd). lia.
    + intros Hin. apply Hx. eapply elem_of_sublist; eassumption.
Qed.

(** C7: on every state of the engine, [suck_balls_with_mouse] returns the
    world balls in range (squared distance to the mouse at most the
    squared radius, 80.0 by default), in the order of the world, the
    first [max_count] of them when there is a limit; these balls leave
    the world, join the inventory at its end in that order and carry the
    flag; nothing else changes, and the world is shorter by the number of
    balls returned. *)
Theorem suck_moves_balls_in_reach g mouse_pos radius max_count :
  reachable hypot g ->
  let moved := in_reach g mouse_pos (default 80%float radius) max_count in
  exists g',
    suck_balls_with_mouse g mouse_pos radius max_count = (Returns moved, g')
    /\ balls g' = filter (fun r => r ∉ moved) (balls g)
    /\ inventory g' = inventory g ++ moved
    /\ (forall r, r ∈ moved ->
          (r ∉ balls g') /\
          exists b, heap g !! r = Some b
                    /\ heap g' !! r = Some (set_in_inventory true b))
    /\ (forall r, r ∉ moved -> heap g' !! r = heap g !! r)
    /\ (length (balls g') + length moved = length (balls g))%nat.
Proof.
  intros Hg moved. pose proof (reachable_Inv hypot g Hg) as HI.
  destruct (suck_effect g mouse_pos radius max_count HI)
    as (g' & Hrun & _ & Hh & Hb & Hi).
  rewrite (inv_radius g HI) in Hrun, Hh, Hb, Hi. fold moved in Hrun, Hh, Hb, Hi.
  pose proof (in_reach_sublist g mouse_pos (default 80%float radius) max_count)
    as Hsub. fold moved in Hsub.
  exists g'. split; [exact Hrun |]. split; [exact Hb |]. split; [exact Hi |].
  split; [| split].
  - intros r Hr. split.
    + rewrite Hb. intros [Hn _]%list_elem_of_filter. contradiction.
    + assert (Hw : r ∈ balls g) by (eapply elem_of_sublist; eassumption).
      destruct (Inv_valid_world g r HI Hw) as [b Hb0]. exists b.
      split; [exact Hb0 |]. rewrite Hh, lookup_flagged.
      rewrite decide_True by exact Hr. rewrite Hb0. reflexivity.
  - intros r Hr. rewrite Hh, lookup_flagged.
    rewrite decide_False by exact Hr. reflexivity.
  - rewrite Hb. apply length_filter_sublist; [| exact Hsub].
    apply Inv_NoDup_balls. exact HI.
Qed.

(** C8: when a ball is available, the chosen ball (the one given, if it
    is in the inventory; the last of the inventory, if none is given) is
    returned, placed at [mouse_pos], out of the inventory, not flagged
    and appended to the world, with the velocity [unit * speed]
    ([speed] is 300.0 by default): the unit vector is (0, -1) when no
    direction is given or when the direction is the zero vector, and the
    direction divided by its length otherwise. *)
Theorem spit_launches_ball g mouse_pos direction speed ball r :
  reachable hypot g ->
  (ball = Some r /\ r ∈ inventory g)
  \/ (ball = None /\ last (inventory g) = Some r) ->
  let v := spit_velocity hypot direction (default 300%float speed) in
  exists g' b pre post,
    spit_ball_from_inventory hypot g mouse_pos direction speed ball
    = (Returns (Some r), g') /\
    heap g !! r = Some b /\
    heap g' !! r = Some (spat mouse_pos v b) /\
    (forall r', r' <> r -> heap g' !! r' = heap g !! r') /\
    balls g' = balls g ++ [r] /\
    inventory g = pre ++ r :: post /\ inventory g' = pre ++ post /\
    (r ∉ inventory g') /\
    (direction = None ->
       v = (0 * default 300 speed, -1 * default 300 speed)%float) /\
    (forall vx vy, direction = Some (vx, vy) ->
       (vx =? 0)%float = true -> (vy =? 0)%float = true ->
       v = (0 * default 300 speed, -1 * default 300 speed)%float) /\
    (forall vx vy, direction = Some (vx, vy) ->
       (hypot vx vy =? 0)%float = false ->
       v = (vx / hypot vx vy * default 300 speed,
            vy / hypot vx vy * default 300 speed)%float).
Proof.
  intros Hg Hsel v. pose proof (reachable_Inv hypot g Hg) as HI.
  pose proof (Inv_distinct_ids g HI) as Hd.
  assert (Hrun : exists g' pre post,
            spit_ball_from_inventory hypot g mouse_pos direction speed ball
            = (Returns (Some r), g')
            /\ spat_from hypot g mouse_pos direction speed r pre post g').
  { destruct Hsel as [[-> Hin] | [-> Hl]].
    - apply list_elem_of_split_l in Hin as (pre & post & E & Hpre).
      destruct (spit_chosen hypot g mouse_pos direction speed r pre post
                  Hd E Hpre) as (g' & Hrun & H).
      eauto.
    - apply last_Some in Hl as [pre E].
      destruct (spit_last hypot g mouse_pos direction speed r pre E)
        as (g' & Hrun & H).
      eauto. }
  destruct Hrun as (g' & pre & post & Hrun & E & E' & Eb & Eh & _).
  rewrite (inv_speed g HI) in Eh. fold v in Eh.
  assert (Hin : r ∈ inventory g).
  { rewrite E. apply elem_of_app. right. apply list_elem_of_here. }
  destruct (Inv_valid_inventory g r HI Hin) as [b Hb].
  exists g', b, pre, post.
  split; [exact Hrun |]. split; [exact Hb |].
  split; [rewrite Eh, list_lookup_alter_eq, Hb; reflexivity |].
  split; [intros r' Hne; rewrite Eh; apply list_lookup_alter_ne; congruence |].
  split; [exact Eb |]. split; [exact E |]. split; [exact E' |].
  split; [| split; [| split]].
  - rewrite E'. pose proof (Inv_NoDup_inventory g HI) as Hnd.
    rewrite E in Hnd. apply NoDup_app in Hnd as (_ & Hdis & Hnd).
    apply NoDup_cons in Hnd as [Hpost _].
    intros [Hp | Hp]%elem_of_app; [| contradiction].
    apply (Hdis r Hp). apply list_elem_of_here.
  - intros ->. reflexivity.
  - intros vx vy -> Hx Hy. subst v. unfold spit_velocity.
    rewrite (hypot_zero vx vy Hx Hy). reflexivity.
  - intros vx vy -> Hh. subst v. unfold spit_velocity.
    rewrite Hh. reflexivity.
Qed.

(** C9: [spit_ball_from_inventory] returns [None] and leaves the state
    as it is when no ball is given and the inventory is empty, and when
    the ball given is not in the inventory. *)
Theorem spit_without_ball_is_noop g mouse_pos direction speed :
  reachable hypot g ->
  (inventory g = [] ->
     spit_ball_from_inventory hypot g mouse_pos direction speed None
     = (Returns None, g)) /\
  (forall r, r ∉ inventory g ->
     spit_ball_from_inventory hypot g mouse_pos direction speed (Some r)
     = (Returns None, g)).
Proof.
  intros Hg. pose proof (reachable_Inv hypot g Hg) as HI. split.
  - apply spit_empty.
  - intros r. apply spit_absent. apply Inv_distinct_ids. exact HI.
Qed.

End Claims.

(** C10: a radius and its absolute value make the same call: the radius is
    only used squared. *)
Theorem suck_radius_sign g mouse_pos max_count (radius : float) :
  suck_balls_with_mouse g mouse_pos (Some radius) max_count
  = suck_balls_with_mouse g mouse_pos (Some (abs radius)) max_count.
Proof.
  change (suck_loop mouse_pos (radius * radius)%float max_count (balls g) [] g
          = suck_loop mouse_pos (abs radius * abs radius)%float max_count
              (balls g) [] g).
  rewrite <- mul_abs_abs. reflexivity.
Qed.

(** ** The theorems at sample states *)

(** The sample states are states of the engine. *)
Lemma demo_logic_reachable : reachable hypot_sqrt demo_logic.
Proof.
  exact (reachable_exec hypot_sqrt
           (CreateBall (200, 100)%float (-50, 0)%float 20 (0, 0, 255)) _
           (reachable_exec hypot_sqrt
              (CreateBall (100, 100)%float (50, 0)%float 20 (255, 0, 0)) _
              (reachable_new hypot_sqrt 800 600
                 (mkDeleteZone 0 560 200 600)))).
Defined.

Lemma demo_sucked_reachable : reachable hypot_sqrt demo_sucked.
Proof.
  exact (reachable_exec hypot_sqrt (Suck (150, 100)%float None None) _
           demo_logic_reachable).
Defined.

Lemma wall_logic_reachable : reachable hypot_sqrt wall_logic.
Proof.
  exact (reachable_exec hypot_sqrt
           (CreateBall (0, 100)%float (-50, 0)%float 20 (255, 0, 0)) _
           (reachable_new hypot_sqrt 800 600 (mkDeleteZone 0 560 200 600))).
Defined.

(** One frame of the demonstration. *)
Lemma update_is_four_passes_witness :
  update demo_logic (1 / 60)%float = update_passes demo_logic (1 / 60)%float /\
  forall g', update demo_logic (1 / 60)%float = (Returns tt, g') ->
    balls g' =
    filter
      (fun r =>
         ¬ in_delete_zone (clamp_pass (move_pass (1 / 60)%float demo_logic)) r)
      (balls demo_logic).
Proof.
  apply (update_is_four_passes hypot_sqrt demo_logic (1 / 60)%float).
  exact demo_logic_reachable.
Defined.

(** The demonstration with both balls in the inventory, and the calls
    that may follow. *)
Lemma one_container_per_ball_witness :
  (forall r, r ∈ balls demo_sucked ->
     exists b, heap demo_sucked !! r = Some b /\ in_inventory b = false) /\
  (forall r, r ∈ inventory demo_sucked ->
     exists b, heap demo_sucked !! r = Some b /\ in_inventory b = true) /\
  (forall r, r ∈ balls demo_sucked -> r ∉ inventory demo_sucked) /\
  NoDup (balls demo_sucked) /\ NoDup (inventory demo_sucked) /\
  (forall calls,
     let g' := run hypot_sqrt calls demo_sucked in
     (balls g' ++ inventory g') ++ purged hypot_sqrt calls demo_sucked
     ≡ₚ (balls demo_sucked ++ inventory demo_sucked)
        ++ created hypot_sqrt calls demo_sucked
     /\ NoDup ((balls g' ++ inventory g')
                ++ purged hypot_sqrt calls demo_sucked)) /\
  (forall w h dz calls r,
     let g' := run hypot_sqrt calls (new_GameLogic w h dz) in
     r ∈ created hypot_sqrt calls (new_GameLogic w h dz) ->
     (r ∉ purged hypot_sqrt calls (new_GameLogic w h dz)) ->
     (r ∈ balls g' /\ (r ∉ inventory g'))
     \/ (r ∈ inventory g' /\ (r ∉ balls g'))).
Proof.
  apply (one_container_per_ball hypot_sqrt demo_sucked).
  exact demo_sucked_reachable.
Defined.


Lemma zone_logic_reachable : reachable hypot_sqrt zone_logic.
Proof.
  exact (reachable_exec hypot_sqrt
           (CreateBall (100, 550)%float (0, 60)%float 20 (255, 0, 0)) _
           (reachable_new hypot_sqrt 800 600 (mkDeleteZone 0 560 200 600))).
Defined.


Lemma zone_logic_colors_ok : colors_ok zone_logic.
Proof.
  intros r b Hr Hb. apply list_elem_of_singleton in Hr. subst r.
  injection Hb as <-. repeat split.
Qed.

(** The ball that falls to (100, 610) is clamped to (100, 580), inside the
    delete zone, and is gone after the frame. *)
Lemma delete_zone_purge_witness :
  exists g',
    update zone_logic 1 = (Returns tt, g') /\
    (0%nat ∉ balls g') /\ (0%nat ∉ inventory g').
Proof.
  destruct (delete_zone_purge hypot_sqrt zone_logic 1 zone_logic_reachable)
    as (_ & Hret & H).
  destruct (Hret zone_logic_colors_ok) as [g' Hu].
  destruct (H g' Hu) as (Hballs & _).
  destruct (Hballs 0%nat zone_ball (list_elem_of_here 0%nat []) eq_refl)
    as [Hin _].
  exists g'. split; [exact Hu | exact (Hin eq_refl)].
Defined.

(** The time step of a frame is not negative, and the instance needs it:
    were it -1, the ball at the left wall would move away from the wall,
    to 50 and not to its radius 20. *)
Lemma negative_time_step_leaves_wall :
  let g' := (update wall_logic (-1)%float).2 in
  heap wall_logic !! 0%nat = Some wall_ball /\
  position wall_ball = (0, 100)%float /\
  velocity wall_ball = (- 50, 0)%float /\ (0 <? 50)%float = true /\
  balls g' = [0%nat] /\
  position <$> heap g' !! 0%nat = Some (50, 100)%float /\
  (50 =? radius wall_ball)%float = false.
Proof. repeat split. Qed.

(** The product of the speed and the time step is a number, and the
    instance needs it: an infinite speed in a frame of time step zero
    gives a centre that is not a number. *)
Lemma infinite_speed_zero_time_step :
  let g := (create_ball (new_GameLogic 800 600 (mkDeleteZone 0 560 200 600))
              (0, 100)%float (- infinity, 0)%float 20 (255, 0, 0)).2 in
  is_nan <$> ((fun b => (position b).1) <$> heap (update g 0).2 !! 0%nat)
  = Some true.
Proof. reflexivity. Qed.

(** The ball at the left wall, one frame later. *)
Lemma boundary_clamp_witness :
  exists b',
    heap (update wall_logic (1 / 60)%float).2 !! 0%nat = Some b' /\
    (position b').1 = 20%float /\ (0 <=? (velocity b').1)%float = true.
Proof.
  destruct (boundary_clamp hypot_sqrt wall_logic (1 / 60)%float 0%nat wall_ball
              wall_logic_reachable (list_elem_of_here 0%nat []) eq_refl)
    as (b' & Hb' & _ & _ & H).
  exists b'. split; [exact Hb' |].
  exact (H 100%float 50%float eq_refl eq_refl eq_refl eq_refl eq_refl
           (or_introl eq_refl)).
Defined.

(** Both balls of the demonstration are within 80 of (150, 100). *)
Lemma suck_moves_balls_in_reach_witness :
  exists g',
    suck_balls_with_mouse demo_logic (150, 100)%float None None
    = (Returns [0%nat; 1%nat], g') /\
    balls g' = [] /\ inventory g' = [0%nat; 1%nat].
Proof.
  pose proof (suck_moves_balls_in_reach hypot_sqrt demo_logic (150, 100)%float
                None None demo_logic_reachable) as H.
  cbv zeta in H. destruct H as (g' & Hrun & Hb & Hi & _).
  exists g'. split; [exact Hrun | split; [exact Hb | exact Hi]].
Defined.

(** The last ball of the inventory is spat to the right at speed 300. *)
Lemma spit_launches_ball_witness :
  exists g' b,
    spit_ball_from_inventory hypot_sqrt demo_sucked (400, 300)%float
      (Some (1, 0)%float) None None = (Returns (Some 1%nat), g') /\
    heap demo_sucked !! 1%nat = Some b /\
    heap g' !! 1%nat = Some (spat (400, 300)%float (300, 0)%float b) /\
    balls g' = [1%nat] /\ (1%nat ∉ inventory g').
Proof.
  pose proof (spit_launches_ball hypot_sqrt hypot_sqrt_zero demo_sucked
                (400, 300)%float (Some (1, 0)%float) None None 1%nat
                demo_sucked_reachable (or_intror (conj eq_refl eq_refl))) as H.
  cbv zeta in H.
  destruct H as (g' & b & pre & post & Hrun & Hb & Hb' & _ & Hw & _ & _ & Hi
                 & _).
  exists g', b. split; [exact Hrun |]. split; [exact Hb |].
  split; [exact Hb' |]. split; [exact Hw | exact Hi].
Defined.

(** The demonstration before any ball was sucked: nothing to spit. *)
Lemma spit_without_ball_is_noop_witness :
  spit_ball_from_inventory hypot_sqrt demo_logic (400, 300)%float None None None
  = (Returns None, demo_logic) /\
  spit_ball_from_inventory hypot_sqrt demo_logic (400, 300)%float None None
    (Some 0%nat) = (Returns None, demo_logic).
Proof.
  destruct (spit_without_ball_is_noop hypot_sqrt demo_logic (400, 300)%float
              None None demo_logic_reachable) as [H1 H2].
  split; [exact (H1 eq_refl) |]. apply H2. apply not_elem_of_nil.
Defined.

(** ** Further properties of the code

    Properties that the code shows and the specification does not state:
    of the colour mix, of the inventory, of the identity of the balls, of
    the exceptions, and of the calls in sequence. *)

(** *** Mixing colours *)

Section MixColorsMore.

Lemma avg_comm a b : avg a b = avg b a.
Proof. unfold avg. rewrite (Z.add_comm a b). reflexivity. Qed.

(** Beyond the range of [float] the conversion fails. *)
Lemma float_of_int_overflow n :
  2 ^ 1024 - 2 ^ 970 <= Z.abs n -> float_of_int n = None.
Proof.
  intros Hhi. unfold float_of_int.
  remember (Z.abs n) as a eqn:Ea. clear Ea.
  assert (Hlo : 2 ^ 1023 <= a).
  { apply Z.le_trans with (2 ^ 1024 - 2 ^ 970); [| exact Hhi].
    apply Z.leb_le. reflexivity. }
  assert (Ha : 0 < a).
  { apply Z.lt_le_trans with (2 ^ 1023); [reflexivity | exact Hlo]. }
  pose proof (Z.log2_spec a Ha) as [Hl1 Hl2].
  assert (Hl : 1023 <= Z.log2 a) by (apply Z.log2_le_pow2; lia).
  remember (Z.log2 a - 52) as e eqn:Ee.
  assert (He : 971 <= e) by lia.
  destruct (Z.leb_spec e 0) as [? | _]; [lia |].
  assert (Hpe : 0 < 2 ^ e) by (apply Z.pow_pos_nonneg; lia).
  assert (Hsplit : 2 ^ Z.log2 a = 2 ^ 52 * 2 ^ e).
  { rewrite <- Z.pow_add_r by lia. f_equal. lia. }
  assert (Hsplit' : 2 ^ Z.succ (Z.log2 a) = 2 ^ 53 * 2 ^ e).
  { rewrite <- Z.pow_add_r by lia. f_equal. lia. }
  assert (Hq1 : 2 ^ 52 <= a / 2 ^ e).
  { apply Z.div_le_lower_bound; lia. }
  assert (Hq2 : a / 2 ^ e < 2 ^ 53).
  { apply Z.div_lt_upper_bound; lia. }
  pose proof (Z.div_mod a (2 ^ e) ltac:(lia)) as Hdm.
  pose proof (Z.mod_pos_bound a (2 ^ e) Hpe) as Hmb.
  remember (a / 2 ^ e) as q eqn:Eq. remember (a mod 2 ^ e) as r eqn:Er.
  clear Eq Er.
  remember (if (2 ^ (e - 1) <? r) || ((r =? 2 ^ (e - 1)) && Z.odd q)
            then q + 1 else q) as q' eqn:Eq'.
  assert (Hq' : q <= q') by (subst q'; destruct (_ || _); lia).
  assert (Hov : 2 ^ 1024 <= q' * 2 ^ e).
  { destruct (Z.eq_dec e 971) as [He971 | He971].
    - (* the largest binade: a tie or more above the last float *)
      subst e. rewrite He971 in *. clear He971.
      change (2 ^ 1024) with (2 ^ 53 * 2 ^ 971) in *.
      change (2 ^ (971 - 1)) with (2 ^ 970) in *.
      assert (H2 : 2 ^ 971 = 2 * 2 ^ 970) by reflexivity.
      assert (Hp : 0 < 2 ^ 970) by reflexivity.
      assert (Hqmax : q = 2 ^ 53 - 1) by nia.
      assert (Hr : 2 ^ 970 <= r) by nia.
      assert (Hodd : Z.odd q = true) by (rewrite Hqmax; reflexivity).
      assert (Hq1' : q' = q + 1).
      { subst q'. rewrite Hodd.
        destruct (Z.ltb_spec (2 ^ 970) r); [reflexivity |].
        destruct (Z.eqb_spec r (2 ^ 970)); [reflexivity | lia]. }
      rewrite Hq1', Hqmax. lia.
    - apply Z.le_trans with (2 ^ 52 * 2 ^ e).
      + rewrite <- Z.pow_add_r by lia. apply Z.pow_le_mono_r; lia.
      + apply Z.mul_le_mono_nonneg_r; lia. }
  destruct (Z.leb_spec (2 ^ 1024) (q' * 2 ^ e)) as [_ | ?]; [reflexivity | lia].
Qed.

Lemma avg_None a b : avg a b = None <-> ~ summable a b.
Proof.
  split.
  - intros E Hs. destruct (avg_spec a b Hs) as (v & _ & Ev & _). congruence.
  - intros Hs. unfold avg. rewrite float_of_int_overflow; [reflexivity |].
    unfold summable in Hs. lia.
Qed.

(** One channel of two bytes: the mean lies between them. *)
Lemma avg_between a b :
  0 <= a <= 255 -> 0 <= b <= 255 ->
  exists m, avg a b = Some m /\ Z.min a b <= m <= Z.max a b.
Proof.
  intros Ha Hb. unfold avg.
  rewrite float_of_int_small
    by (apply Z.le_lt_trans with 510; [lia | reflexivity]).
  cbn. eexists. split; [reflexivity |].
  pose proof (round_half_spec (a + b)) as [Hm He].
  rewrite Z.add_0_r in Hm, He.
  destruct (Z.eq_dec a b) as [-> | Hne]; [| lia].
  destruct (Z.eq_dec (2 * round_half (b + b)) (b + b)) as [E | E]; [lia |].
  specialize (He E). apply Z.even_spec in He as [k Hk]. lia.
Qed.

Lemma avg_same a :
  channel_ok a ->
  exists v, avg a a = Some v /\ clamp v 0 255 = clamp a 0 255.
Proof.
  intros Ha.
  destruct (avg_spec a a (channel_ok_summable a a Ha Ha))
    as (v & m & Ev & [Hm _] & Hc).
  exists v. split; [exact Ev |]. rewrite Hc. f_equal. lia.
Qed.

(** Whatever the inputs, a colour that [mix_colors_rgb] returns has its
    channels in [0, 255]. *)
Lemma byte_color_mix c1 c2 m : mix_colors_rgb c1 c2 = Some m -> byte_color m.
Proof.
  destruct c1 as [[r1 g1] b1], c2 as [[r2 g2] b2]. unfold mix_colors_rgb.
  destruct (avg r1 r2) as [r |]; [| discriminate].
  destruct (avg g1 g2) as [g |]; [| discriminate].
  destruct (avg b1 b2) as [b |]; [| discriminate].
  cbn. intros [= <-]. unfold byte_color. cbn [red green blue fst snd].
  pose proof (clamp_range r). pose proof (clamp_range g).
  pose proof (clamp_range b). lia.
Qed.

Lemma mix_colors_rgb_comm_aux c1 c2 :
  mix_colors_rgb c1 c2 = mix_colors_rgb c2 c1.
Proof.
  destruct c1 as [[r1 g1] b1], c2 as [[r2 g2] b2]. unfold mix_colors_rgb.
  rewrite (avg_comm r1), (avg_comm g1), (avg_comm b1). reflexivity.
Qed.

End MixColorsMore.

(** X1: [mix_colors_rgb] does not depend on the order of its two colours:
    the same colour is returned, or the same exception raised. *)
Theorem mix_colors_rgb_comm c1 c2 :
  mix_colors_rgb c1 c2 = mix_colors_rgb c2 c1.
Proof. apply mix_colors_rgb_comm_aux. Qed.

(** X2: whatever the two colours, of channels of any size and sign, a
    colour that [mix_colors_rgb] returns has its three channels in
    [0, 255]. *)
Theorem mix_colors_rgb_in_range c1 c2 m :
  mix_colors_rgb c1 c2 = Some m -> byte_color m.
Proof. apply byte_color_mix. Qed.

(** Two colours with channels out of [0, 255]. *)
Lemma mix_colors_rgb_in_range_witness :
  mix_colors_rgb (1000, -7, 2) (300, -8, 3) = Some (255, 0, 2) /\
  byte_color (255, 0, 2).
Proof.
  split; [reflexivity |].
  apply (mix_colors_rgb_in_range (1000, -7, 2) (300, -8, 3) (255, 0, 2)).
  reflexivity.
Defined.

(** X3: for two colours of channels in [0, 255], [mix_colors_rgb]
    returns, and each channel of the result lies between the two channels
    it averages. *)
Theorem mix_colors_rgb_between c1 c2 :
  byte_color c1 -> byte_color c2 ->
  exists m,
    mix_colors_rgb c1 c2 = Some m /\
    Z.min (red c1) (red c2) <= red m <= Z.max (red c1) (red c2) /\
    Z.min (green c1) (green c2) <= green m <= Z.max (green c1) (green c2) /\
    Z.min (blue c1) (blue c2) <= blue m <= Z.max (blue c1) (blue c2).
Proof.
  destruct c1 as [[r1 g1] b1], c2 as [[r2 g2] b2].
  unfold byte_color. cbn [red green blue fst snd].
  intros (Hr1 & Hg1 & Hb1) (Hr2 & Hg2 & Hb2).
  destruct (avg_between r1 r2 Hr1 Hr2) as (r & Er & Hr).
  destruct (avg_between g1 g2 Hg1 Hg2) as (g & Eg & Hg).
  destruct (avg_between b1 b2 Hb1 Hb2) as (b & Eb & Hb).
  unfold mix_colors_rgb. rewrite Er, Eg, Eb. cbn.
  eexists. split; [reflexivity |]. cbn [red green blue fst snd].
  unfold clamp. lia.
Qed.

(** Two colours of bytes. *)
Lemma mix_colors_rgb_between_witness :
  exists m,
    mix_colors_rgb (196, 189, 151) (175, 196, 211) = Some m /\
    175 <= red m <= 196 /\ 189 <= green m <= 196 /\ 151 <= blue m <= 211.
Proof.
  apply (mix_colors_rgb_between (196, 189, 151) (175, 196, 211));
    unfold byte_color; cbn; lia.
Defined.

(** X4: a colour of channels in the range of [float], mixed with itself,
    gives itself clamped to [0, 255]; a colour of channels in [0, 255] is
    returned as it is. *)
Theorem mix_colors_rgb_same c :
  color_ok c ->
  mix_colors_rgb c c
  = Some (clamp (red c) 0 255, clamp (green c) 0 255, clamp (blue c) 0 255)
  /\ (byte_color c -> mix_colors_rgb c c = Some c).
Proof.
  destruct c as [[r g] b]. unfold color_ok, byte_color.
  cbn [red green blue fst snd]. intros (Hr & Hg & Hb).
  destruct (avg_same r Hr) as (vr & Er & Cr).
  destruct (avg_same g Hg) as (vg & Eg & Cg).
  destruct (avg_same b Hb) as (vb & Eb & Cb).
  unfold mix_colors_rgb. rewrite Er, Eg, Eb. cbn. rewrite Cr, Cg, Cb.
  split; [reflexivity |]. intros (Br & Bg & Bb). unfold clamp.
  do 3 f_equal; lia.
Qed.

(** A colour with a channel above 255, and a colour of bytes. *)
Lemma mix_colors_rgb_same_witness :
  mix_colors_rgb (128, 0, 300) (128, 0, 300) = Some (128, 0, 255).
Proof.
  apply (mix_colors_rgb_same (128, 0, 300)). repeat split.
Defined.

(** X5: [mix_colors_rgb] raises [OverflowError] exactly when the sum of
    two channels it averages is beyond the range of [float], that is of
    magnitude [2^1024 - 2^970] at least. *)
Theorem mix_colors_rgb_overflow c1 c2 :
  mix_colors_rgb c1 c2 = None <->
  ~ (summable (red c1) (red c2) /\ summable (green c1) (green c2)
     /\ summable (blue c1) (blue c2)).
Proof.
  destruct c1 as [[r1 g1] b1], c2 as [[r2 g2] b2].
  cbn [red green blue fst snd]. unfold mix_colors_rgb.
  pose proof (avg_None r1 r2) as Hr. pose proof (avg_None g1 g2) as Hg.
  pose proof (avg_None b1 b2) as Hb.
  destruct (avg r1 r2) as [r |], (avg g1 g2) as [g |], (avg b1 b2) as [b |];
    cbn; split; try discriminate; try reflexivity; intros H; try tauto.
  exfalso. apply H. unfold summable in *.
  split; [| split].
  - destruct (Z_lt_dec (Z.abs (r1 + r2)) (2 ^ 1024 - 2 ^ 970)) as [Hs | Hs];
      [exact Hs | apply Hr in Hs; discriminate].
  - destruct (Z_lt_dec (Z.abs (g1 + g2)) (2 ^ 1024 - 2 ^ 970)) as [Hs | Hs];
      [exact Hs | apply Hg in Hs; discriminate].
  - destruct (Z_lt_dec (Z.abs (b1 + b2)) (2 ^ 1024 - 2 ^ 970)) as [Hs | Hs];
      [exact Hs | apply Hb in Hs; discriminate].
Qed.

(** *** The inventory, and calls in any state *)

Section InventoryMore.

Implicit Types (g : GameLogic) (r : ref) (b : Ball) (l : list ref).

Lemma alter_flag_twice (f1 f2 : bool) r (h : list Ball) :
  alter (set_in_inventory f2) r (alter (set_in_inventory f1) r h)
  = alter (set_in_inventory f2) r h.
Proof.
  revert r. induction h as [| b h IH]; intros [| r]; cbn; try reflexivity.
  f_equal. apply IH.
Qed.

Lemma list_remove_length h x l l' :
  list_remove h x l = Some l' -> (length l' + 1 = length l)%nat.
Proof.
  revert l'. induction l as [| y l IH]; intros l'; cbn; [discriminate |].
  destruct (py_eq h y x).
  - intros [= <-]. lia.
  - destruct (list_remove h x l) as [l'' |]; cbn; [| discriminate].
    intros [= <-]. cbn. rewrite <- (IH l'' eq_refl). lia.
Qed.

End InventoryMore.

(** X6: [Inventory.pop_last] after [Inventory.add_ball] returns the ball
    added and leaves the list as it was before the two calls; the ball
    ends without the flag, whatever its flag was. *)
Theorem pop_last_add_ball g (ball : ref) :
  pop_last (add_ball ball g)
  = (Some ball, modify (set_in_inventory false) ball g).
Proof.
  unfold pop_last, add_ball. cbn [inventory set_inventory modify set_heap].
  rewrite last_snoc, removelast_last.
  unfold modify, set_inventory, set_heap. cbn.
  rewrite alter_flag_twice. reflexivity.
Qed.

(** X7: in a state where no two balls have the same id, as every state
    of the engine is, and where [==] between two balls is therefore
    identity: [Inventory.remove_ball] of a ball that is not in the list
    raises [ValueError] and leaves the state as it is, the flag of the
    ball included; of a ball that is in the list it returns, the list is
    one element shorter, and without the ball when it held it once, the
    world is as before and the ball is without the flag. *)
Theorem remove_ball_missing (ball : ref) g :
  distinct_ids (heap g) ->
  ((ball ∉ inventory g) -> remove_ball ball g = (Raises ValueError, g)) /\
  (ball ∈ inventory g ->
     exists g',
       remove_ball ball g = (Returns tt, g') /\
       (length (inventory g') + 1 = length (inventory g))%nat /\
       (NoDup (inventory g) -> ball ∉ inventory g') /\
       balls g' = balls g /\
       heap g' = alter (set_in_inventory false) ball (heap g)).
Proof.
  intros Hd.
  pose proof (list_contains_elem_of (heap g) ball (inventory g) Hd) as Hc.
  pose proof (list_contains_remove (heap g) ball (inventory g)) as H.
  unfold remove_ball. split; intros E.
  - destruct (list_remove _ _ _) as [l |] eqn:El; [| reflexivity].
    exfalso. apply E, Hc, H. eauto.
  - apply list_elem_of_split_l in E as (pre & post & E & Hpre).
    rewrite E, (list_remove_middle _ _ _ _ Hd Hpre).
    eexists. split; [reflexivity |]. cbn [inventory set_inventory modify
      set_heap balls heap].
    split; [rewrite !length_app; cbn; lia |]. split; [| done].
    intros Hnd. apply NoDup_app in Hnd as (_ & Hdis & Hnd).
    apply NoDup_cons in Hnd as [Hpost _].
    intros [Hp | Hp]%elem_of_app; [| contradiction].
    apply (Hdis ball Hp). apply list_elem_of_here.
Qed.

(** The demonstration: before the balls are sucked the inventory holds no
    ball to remove; after, its first ball is removed. *)
Lemma remove_ball_missing_witness :
  remove_ball 0%nat demo_logic = (Raises ValueError, demo_logic) /\
  exists g',
    remove_ball 0%nat demo_sucked = (Returns tt, g') /\
    inventory g' = [1%nat].
Proof.
  split.
  - apply (remove_ball_missing 0%nat demo_logic).
    + apply Inv_distinct_ids, (reachable_Inv hypot_sqrt).
      exact demo_logic_reachable.
    + apply not_elem_of_nil.
  - eexists. split; reflexivity.
Defined.

(** X8: [list.remove] compares with [==].  When the first ball of the
    inventory is equal to the ball given, field by field, [remove_ball]
    takes that first ball out of the list, also when it is another
    object, and clears the flag of the ball given. *)
Theorem remove_ball_equal_twin g (r1 r2 : ref) b1 b2 rest :
  inventory g = r1 :: rest ->
  heap g !! r1 = Some b1 -> heap g !! r2 = Some b2 -> Ball_eq b1 b2 = true ->
  exists g',
    remove_ball r2 g = (Returns tt, g') /\
    inventory g' = rest /\
    heap g' = alter (set_in_inventory false) r2 (heap g).
Proof.
  intros Ei H1 H2 E. unfold remove_ball. rewrite Ei. cbn [list_remove].
  unfold py_eq. rewrite H1, H2, E, orb_true_r.
  eexists. split; [reflexivity |]. done.
Qed.

(** Two equal balls, the first in the inventory: removing the second takes
    the first out. *)
Lemma remove_ball_equal_twin_witness :
  exists g',
    remove_ball 1%nat twin_logic = (Returns tt, g') /\
    inventory g' = [] /\
    heap g' = [twin_a; set_in_inventory false twin_a].
Proof.
  exact (remove_ball_equal_twin twin_logic 0%nat 1%nat twin_a twin_a []
           eq_refl eq_refl eq_refl eq_refl).
Defined.

Section NeverRaise.

Implicit Types (g : GameLogic) (r : ref) (b : Ball) (l : list ref).

Lemma list_remove_snoc h x pre rest :
  exists pre', list_remove h x (pre ++ x :: rest) = Some (pre' ++ rest).
Proof.
  induction pre as [| y pre [pre' IH]]; cbn.
  - rewrite py_eq_refl. exists []. reflexivity.
  - destruct (py_eq h y x).
    + exists (pre ++ [x]). rewrite <- app_assoc. reflexivity.
    + rewrite IH. cbn. exists (y :: pre'). reflexivity.
Qed.

Lemma suck_loop_never_raises mp rsq mc rest :
  forall pre moved g,
    balls g = pre ++ rest ->
    exists M g', suck_loop mp rsq mc rest moved g = (Returns M, g').
Proof.
  induction rest as [| x rest IH]; intros pre moved g Eb; cbn [suck_loop].
  - eauto.
  - destruct (limit_reached mc moved); [eauto |].
    destruct (within g mp rsq x).
    + rewrite Eb. destruct (list_remove_snoc (heap g) x pre rest) as [pre' ->].
      apply (IH pre'). reflexivity.
    + apply (IH (pre ++ [x])). rewrite Eb, <- app_assoc. reflexivity.
Qed.

End NeverRaise.

(** X16: in any state, of the engine or not, [suck_balls_with_mouse] and
    [spit_ball_from_inventory] return: the loop over a copy of the world
    always finds the ball it removes, and the test [ball not in
    inventory] guards [remove_ball]. *)
Theorem suck_and_spit_never_raise (hypot : float -> float -> float) g :
  (forall mouse_pos radius max_count,
     exists moved g',
       suck_balls_with_mouse g mouse_pos radius max_count
       = (Returns moved, g')) /\
  (forall mouse_pos direction speed ball,
     exists spat g',
       spit_ball_from_inventory hypot g mouse_pos direction speed ball
       = (Returns spat, g')).
Proof.
  split.
  - intros mp radius mc. unfold suck_balls_with_mouse.
    apply (suck_loop_never_raises _ _ _ _ []). reflexivity.
  - intros mp d s [ball |]; unfold spit_ball_from_inventory.
    + destruct (list_contains _ _ _) eqn:E; [| eauto].
      apply list_contains_remove in E as [l El].
      unfold remove_ball. rewrite El. eauto.
    + unfold pop_last. destruct (last (inventory g)); eauto.
Qed.

(** *** Distances, contact and the delete zone *)

Section Symmetry.

Implicit Types (x y : float) (s t : spec_float).

Lemma binary_round_aux_opp sg m e l :
  binary_round_aux prec emax (negb sg) m e l
  = SFopp (binary_round_aux prec emax sg m e l).
Proof.
  unfold binary_round_aux.
  destruct (shr_fexp prec emax m e l) as [mrs1 e1].
  destruct (shr_fexp prec emax _ e1 loc_Exact) as [mrs2 e2].
  destruct (shr_m mrs2); [reflexivity | | reflexivity].
  destruct (e2 <=? emax - prec); reflexivity.
Qed.

Lemma binary_round_opp sg m e :
  binary_round prec emax (negb sg) m e = SFopp (binary_round prec emax sg m e).
Proof.
  unfold binary_round. destruct (shl_align _ _ _) as [mz ez].
  apply binary_round_aux_opp.
Qed.

Lemma binary_normalize_mirror m e :
  sf_mirror (binary_normalize prec emax m e false)
    (binary_normalize prec emax (- m) e false).
Proof.
  destruct m as [| p | p]; cbn [binary_normalize Z.opp].
  - right. done.
  - left. apply (binary_round_opp false).
  - left. apply (binary_round_opp true).
Qed.

Lemma SFsub_mirror s t : sf_mirror (SF64sub s t) (SF64sub t s).
Proof.
  destruct s as [[] | [] | | [] ms es], t as [[] | [] | | [] mt et];
    try (left; reflexivity); try (right; split; reflexivity);
    unfold SF64sub, SFsub; rewrite (Z.min_comm et es);
    match goal with
    | |- sf_mirror (binary_normalize _ _ ?a _ _)
           (binary_normalize _ _ ?b _ _) =>
        replace b with (- a) by (unfold cond_Zopp; lia)
    end; apply binary_normalize_mirror.
Qed.

Lemma SFmul_mirror s t : sf_mirror s t -> SF64mul s s = SF64mul t t.
Proof.
  intros [-> | [-> ->]]; [| reflexivity].
  destruct s as [[] | [] | | [] m e]; reflexivity.
Qed.

Lemma sub_square_sym x y : ((x - y) * (x - y) = (y - x) * (y - x))%float.
Proof.
  apply Prim2SF_inj. rewrite !mul_spec, !sub_spec.
  apply SFmul_mirror, SFsub_mirror.
Qed.

Lemma float_add_comm x y : (x + y = y + x)%float.
Proof.
  apply Prim2SF_inj. rewrite !add_spec.
  destruct (Prim2SF x) as [[] | [] | | [] mx ex],
    (Prim2SF y) as [[] | [] | | [] my ey]; try reflexivity;
    unfold SF64add, SFadd; rewrite (Z.min_comm ey ex), Z.add_comm;
    reflexivity.
Qed.

(** *** Squares are not negative *)

Lemma sf_square_mul s : sf_square (SF64mul s s) = true.
Proof.
  destruct s as [[] | [] | | sg m e]; try reflexivity.
  unfold SF64mul, SFmul. rewrite xorb_nilpotent.
  pose proof (binary_round_aux_sign false (Z.pos (m * m)) (e + e) loc_Exact
                ltac:(lia)) as H.
  destruct (binary_round_aux _ _ _ _ _ _) as [b | b | | b ? ?];
    try contradiction; try subst b; reflexivity.
Qed.

Lemma sf_square_round m e : sf_square (binary_round prec emax false m e) = true.
Proof.
  unfold binary_round. destruct (shl_align _ _ _) as [mz ez].
  pose proof (binary_round_aux_sign false (Z.pos mz) ez loc_Exact
                ltac:(lia)) as H.
  destruct (binary_round_aux _ _ _ _ _ _) as [b | b | | b ? ?];
    try contradiction; try subst b; reflexivity.
Qed.

Lemma sf_square_add s t :
  sf_square s = true -> sf_square t = true -> sf_square (SF64add s t) = true.
Proof.
  destruct s as [[] | [] | | [] ms es]; try discriminate;
    destruct t as [[] | [] | | [] mt et]; try discriminate;
    intros _ _; try reflexivity.
  unfold SF64add, SFadd, cond_Zopp.
  match goal with
  | |- context [binary_normalize _ _ (Z.pos ?a + Z.pos ?b)] =>
      change (Z.pos a + Z.pos b) with (Z.pos (a + b))
  end.
  apply sf_square_round.
Qed.

Lemma sf_square_not_negative x :
  sf_square (Prim2SF x) = true -> (x <? 0)%float = false.
Proof.
  rewrite ltb_spec, Prim2SF_zero. unfold SFltb.
  destruct (Prim2SF x) as [[] | [] | | [] m e]; cbn; congruence.
Qed.

(** *** The order of the numbers *)

Lemma SFleb_trans_not_lt a s b :
  SFleb a s = true -> SFleb s b = true -> SFltb b a = false.
Proof.
  unfold SFleb, SFltb.
  destruct a as [[] | [] | | [] ma ea], s as [[] | [] | | [] ms es],
    b as [[] | [] | | [] mb eb]; cbn; try congruence;
    change (PosDef.Pos.compare_cont Eq) with Pos.compare;
    repeat match goal with
      | |- context [Z.compare ?u ?v] => destruct (Z.compare_spec u v)
      | |- context [Pos.compare ?u ?v] => destruct (Pos.compare_spec u v)
      end; cbn; try congruence; lia.
Qed.

End Symmetry.

(** X24: [_distance_sq] gives the same for two points in either order:
    both results are NaN or none is; when they are numbers they are
    [==]; and a comparison [<= t], as the tests of suction and of contact
    make, has the same answer for both.  The result is never below zero:
    it is a number at least zero, or NaN. *)
Theorem distance_sq_symmetric (a b : Vec2) :
  is_nan (_distance_sq a b) = is_nan (_distance_sq b a) /\
  (is_nan (_distance_sq a b) = false ->
     (_distance_sq a b =? _distance_sq b a)%float = true) /\
  (forall t : float,
     (_distance_sq a b <=? t)%float = (_distance_sq b a <=? t)%float) /\
  (_distance_sq a b <? 0)%float = false.
Proof.
  assert (E : _distance_sq b a = _distance_sq a b).
  { destruct a as [ax ay], b as [bx by']. unfold _distance_sq.
    rewrite (sub_square_sym ax bx), (sub_square_sym ay by'). reflexivity. }
  rewrite E. split; [reflexivity |]. split; [| split; [reflexivity |]].
  - unfold is_nan. intros H. apply negb_false_iff in H. exact H.
  - destruct a as [ax ay], b as [bx by']. unfold _distance_sq.
    apply sf_square_not_negative. rewrite add_spec.
    apply sf_square_add; rewrite mul_spec; apply sf_square_mul.
Qed.

(** X25: the treatment of a pair by [_mix_colors_on_collisions] does not
    depend on which of the two balls comes first: the test of contact is
    symmetric, the mix of the colours commutative, and the two
    assignments commute. *)
Theorem collide_symmetric g (r1 r2 : ref) :
  collide g (r1, r2) = collide g (r2, r1).
Proof.
  destruct (decide (r1 = r2)) as [-> | Hne]; [reflexivity |].
  unfold collide. cbn [fst snd].
  destruct (heap g !! r1) as [b1 |], (heap g !! r2) as [b2 |];
    try reflexivity.
  rewrite (orb_comm (in_inventory b2)).
  destruct (in_inventory b1 || in_inventory b2); [reflexivity |].
  assert (Ht : touching b2 b1 = touching b1 b2).
  { unfold touching, _distance_sq.
    destruct (position b1) as [x1 y1], (position b2) as [x2 y2].
    rewrite (sub_square_sym x2 x1), (sub_square_sym y2 y1).
    rewrite (float_add_comm (radius b2)). reflexivity. }
  rewrite Ht. destruct (touching b1 b2); [| reflexivity].
  rewrite (mix_colors_rgb_comm_aux (color b2)).
  destruct (mix_colors_rgb (color b1) (color b2)) as [m |]; [| reflexivity].
  rewrite (modify_commute _ _ r1 r2) by exact Hne. reflexivity.
Qed.

(** X9: a delete zone whose corners are swapped on an axis, [x2 < x1] or
    [y2 < y1], contains no point. *)
Theorem contains_swapped_corners dz position :
  (x2 dz <? x1 dz)%float = true \/ (y2 dz <? y1 dz)%float = true ->
  contains dz position = false.
Proof.
  destruct position as [x y]. unfold contains. intros H.
  apply not_true_is_false. rewrite !andb_true_iff, !leb_spec.
  intros [[Hx1 Hx2] [Hy1 Hy2]].
  destruct H as [H | H]; rewrite ltb_spec in H.
  - rewrite (SFleb_trans_not_lt _ _ _ Hx1 Hx2) in H. discriminate.
  - rewrite (SFleb_trans_not_lt _ _ _ Hy1 Hy2) in H. discriminate.
Qed.

Lemma contains_swapped_corners_witness :
  contains swapped_zone (100, 580)%float = false.
Proof.
  apply (contains_swapped_corners swapped_zone (100, 580)%float).
  left. reflexivity.
Defined.

(** *** Runs of the engine *)

Section EngineMore.

Variable hypot : float -> float -> float.

Implicit Types (g : GameLogic) (r : ref) (b : Ball) (l : list ref).

Lemma GameLogic_ext g g' :
  same_frame g g' -> heap g' = heap g -> balls g' = balls g ->
  inventory g' = inventory g -> g' = g.
Proof.
  destruct g, g'. unfold same_frame. cbn.
  intros (-> & -> & -> & -> & -> & ->) -> -> ->. reflexivity.
Qed.

(** *** A property of the colours, in the whole store *)

Section StoreColors.

Variable P : Color -> Prop.
Hypothesis P_mix : forall c1 c2 m,
  P c1 -> P c2 -> mix_colors_rgb c1 c2 = Some m -> P m.

Lemma store_colors_collide g p res g' :
  store_colors P g -> collide g p = (res, g') -> store_colors P g'.
Proof.
  intros Hs. unfold collide.
  destruct (heap g !! p.1) as [b1 |] eqn:H1; [| intros [= <- <-]; exact Hs].
  destruct (heap g !! p.2) as [b2 |] eqn:H2; [| intros [= <- <-]; exact Hs].
  destruct (in_inventory b1 || in_inventory b2); [intros [= <- <-]; exact Hs |].
  destruct (touching b1 b2); [| intros [= <- <-]; exact Hs].
  destruct (mix_colors_rgb (color b1) (color b2)) as [m |] eqn:Hm;
    [| intros [= <- <-]; exact Hs].
  pose proof (P_mix _ _ m (Hs _ _ H1) (Hs _ _ H2) Hm) as HP.
  intros [= <- <-] r b. rewrite !lookup_modify.
  destruct (decide (p.2 = r)); destruct (decide (p.1 = r));
    destruct (heap g !! r) as [b0 |] eqn:H0; cbn;
    intros Hb; simplify_eq; try exact HP.
  eapply Hs; eassumption.
Qed.

Lemma store_colors_for_each ps : forall g res g',
  store_colors P g -> for_each collide ps g = (res, g') -> store_colors P g'.
Proof.
  induction ps as [| p ps IH]; intros g res g' Hs; cbn [for_each].
  - intros [= <- <-]. exact Hs.
  - destruct (collide g p) as [[[] | e] g1] eqn:Hc.
    + apply IH. eapply store_colors_collide; eassumption.
    + intros [= <- <-]. eapply store_colors_collide; eassumption.
Qed.

Lemma store_colors_update g dt :
  NoDup (balls g) -> store_colors P g -> store_colors P (update g dt).2.
Proof.
  intros Hnd Hs. unfold update.
  pose proof (lookup_move_and_keep dt (balls g) g) as Hl1.
  set (g1 := fold_left (move_and_keep dt) (balls g) g) in *.
  assert (Hs1 : store_colors P g1).
  { intros r b. rewrite Hl1 by exact Hnd.
    destruct (decide (r ∈ balls g)); [| apply Hs].
    destruct (heap g !! r) as [b0 |] eqn:H0; [| discriminate].
    intros [= <-]. destruct (stepped_fields g dt b0) as (_ & _ & _ & ->).
    exact (Hs r b0 H0). }
  destruct (_mix_colors_on_collisions g1) as [res g2] eqn:Hmix.
  pose proof (store_colors_for_each _ _ _ _ Hs1 Hmix) as Hs2.
  destruct res; exact Hs2.
Qed.

Lemma store_colors_create g p v rad c :
  P c -> store_colors P g -> store_colors P (create_ball g p v rad c).2.
Proof.
  intros Hc Hs r b. cbn [create_ball snd heap].
  intros [Hb | [_ Hb]]%lookup_app_Some; [exact (Hs r b Hb) |].
  destruct (r - length (heap g))%nat; [| discriminate].
  injection Hb as <-. exact Hc.
Qed.

Lemma store_colors_suck g mp radius mc :
  Inv g -> store_colors P g ->
  store_colors P (suck_balls_with_mouse g mp radius mc).2.
Proof.
  intros HI Hs.
  destruct (suck_effect g mp radius mc HI) as (g' & -> & _ & Hh & _).
  cbn [snd]. intros r b. rewrite Hh, lookup_flagged.
  destruct (decide _); [| apply Hs].
  destruct (heap g !! r) as [b0 |] eqn:H0; [| discriminate].
  intros [= <-]. exact (Hs r b0 H0).
Qed.

Lemma store_colors_spit g mp d s ball :
  Inv g -> store_colors P g ->
  store_colors P (spit_ball_from_inventory hypot g mp d s ball).2.
Proof.
  intros HI Hs. pose proof (spit_effect hypot g mp d s ball HI) as H.
  destruct (spit_ball_from_inventory hypot g mp d s ball) as [res g'].
  cbn [snd].
  destruct H as [[_ ->] | (r & pre & post & _ & _ & _ & _ & Hh & _)];
    [exact Hs |].
  intros r' b. rewrite Hh. intros Hb.
  apply lookup_alter_Some in Hb as (b0 & H0 & [-> | ->]); exact (Hs r' b0 H0).
Qed.

Lemma run_invariant calls : forall g,
  Forall (valid_call P) calls -> Inv g -> store_colors P g ->
  Inv (run hypot calls g) /\ store_colors P (run hypot calls g).
Proof.
  induction calls as [| c calls IH]; intros g Hv HI Hs; [done |].
  apply Forall_cons in Hv as [Hc Hv]. cbn [run fold_left].
  apply IH; [exact Hv | |]; destruct c as [p v rad col | dt | mp r n | mp d s b];
    cbn [exec].
  - apply Inv_create_ball. exact HI.
  - apply Inv_update. exact HI.
  - apply Inv_suck. exact HI.
  - apply Inv_spit. exact HI.
  - apply store_colors_create; assumption.
  - apply store_colors_update; [apply Inv_NoDup_balls |]; assumption.
  - apply store_colors_suck; assumption.
  - apply store_colors_spit; assumption.
Qed.

End StoreColors.

Lemma color_ok_mix c1 c2 m :
  color_ok c1 -> color_ok c2 -> mix_colors_rgb c1 c2 = Some m -> color_ok m.
Proof.
  intros H1 H2 E.
  destruct (mix_colors_rgb_returns c1 c2 H1 H2) as (m' & E' & Hm).
  congruence.
Qed.

(** *** [update] raises [OverflowError] only *)

Lemma for_each_collide_raises ps g e g' :
  for_each collide ps g = (Raises e, g') -> e = OverflowError.
Proof.
  revert g. induction ps as [| p ps IH]; intros g; cbn [for_each];
    [discriminate |].
  destruct (collide g p) as [[[] | e1] g1] eqn:Hc; [apply IH |].
  intros [= <- <-]. unfold collide in Hc.
  destruct (heap g !! p.1) as [b1 |]; [| discriminate].
  destruct (heap g !! p.2) as [b2 |]; [| discriminate].
  destruct (in_inventory b1 || in_inventory b2); [discriminate |].
  destruct (touching b1 b2); [| discriminate].
  destruct (mix_colors_rgb _ _); congruence.
Qed.

(** *** Sucked balls *)

Lemma within_flagged g g' mp rsq M r :
  heap g' = flagged M (heap g) -> within g' mp rsq r = within g mp rsq r.
Proof.
  intros Hh. unfold within. rewrite Hh, lookup_flagged.
  destruct (decide _); [| reflexivity].
  destruct (heap g !! r); reflexivity.
Qed.

End EngineMore.

Section FloatAbs.

Lemma abs_abs (x : float) : abs (abs x) = abs x.
Proof.
  apply Prim2SF_inj. rewrite !abs_spec. destruct (Prim2SF x); reflexivity.
Qed.

Lemma abs_opp (x : float) : abs (- x) = abs x.
Proof.
  apply Prim2SF_inj. rewrite !abs_spec, opp_spec.
  destruct (Prim2SF x); reflexivity.
Qed.

Lemma abs_bounce x vx r dim : abs (bounce x vx r dim).2 = abs vx.
Proof.
  unfold bounce. destruct (x - r <? 0)%float; [apply abs_abs |].
  destruct (dim <? x + r)%float; [| reflexivity].
  cbn [snd]. rewrite abs_opp. apply abs_abs.
Qed.

Lemma velocity_move b dt : velocity (move b dt) = velocity b.
Proof.
  unfold move. destruct (in_inventory b); [reflexivity |].
  destruct (position b), (velocity b) eqn:E; exact E.
Qed.

Lemma speed_stepped g dt b :
  abs (velocity (stepped g dt b)).1 = abs (velocity b).1 /\
  abs (velocity (stepped g dt b)).2 = abs (velocity b).2.
Proof.
  unfold stepped, keep_inside. rewrite velocity_move.
  destruct (position (move b dt)) as [x y], (velocity b) as [vx vy].
  pose proof (abs_bounce x vx (radius (move b dt)) (width g)) as Hx.
  pose proof (abs_bounce y vy (radius (move b dt)) (height g)) as Hy.
  destruct (bounce x vx _ (width g)), (bounce y vy _ (height g)).
  cbn in *. done.
Qed.

(** The comparison with NaN is false. *)
Lemma leb_nan_r (x : float) : (x <=? nan)%float = false.
Proof.
  rewrite leb_spec. change (Prim2SF nan) with S754_nan.
  unfold SFleb. destruct (Prim2SF x); reflexivity.
Qed.

End FloatAbs.

Section EngineTheorems.

Variable hypot : float -> float -> float.

Implicit Types (g : GameLogic) (r : ref) (b : Ball) (l : list ref).

(** X10: in a state of the engine, [create_ball] gives the new ball the
    id [_next_ball_id] and advances the counter by one; every ball
    created before, in a collection or not, keeps its record and has a
    smaller id, so that no two balls of the store share an id. *)
Theorem create_ball_fresh_id g position velocity radius color :
  reachable hypot g ->
  let r := (create_ball g position velocity radius color).1 in
  let g' := (create_ball g position velocity radius color).2 in
  heap g' !! r
  = Some (mkBall (_next_ball_id g) position velocity radius color false) /\
  _next_ball_id g' = _next_ball_id g + 1 /\
  (forall r' b', heap g !! r' = Some b' ->
     heap g' !! r' = Some b' /\ 1 <= id b' < _next_ball_id g) /\
  distinct_ids (heap g').
Proof.
  intros Hg r g'. pose proof (reachable_Inv hypot g Hg) as HI.
  split; [| split; [| split]].
  - subst r g'. cbn. rewrite lookup_app_r by lia.
    rewrite Nat.sub_diag. reflexivity.
  - reflexivity.
  - intros r' b' Hb'. split.
    + subst g'. cbn. apply lookup_app_l_Some. exact Hb'.
    + rewrite (inv_ids g HI r' b' Hb'), (inv_next g HI).
      apply lookup_lt_Some in Hb'. lia.
  - apply Inv_distinct_ids. apply Inv_create_ball. exact HI.
Qed.

(** X11: [update] brings no ball into the world and keeps the order of
    the balls that stay; every ball, in a collection or not, keeps its
    id, its radius and its flag. *)
Theorem update_keeps_identity g dt :
  reachable hypot g ->
  let g' := (update g dt).2 in
  balls g' `sublist_of` balls g /\
  forall r b, heap g !! r = Some b ->
    exists b', heap g' !! r = Some b' /\ id b' = id b /\
               radius b' = radius b /\ in_inventory b' = in_inventory b.
Proof.
  intros Hg g'. pose proof (reachable_Inv hypot g Hg) as HI.
  pose proof (Inv_NoDup_balls g HI) as Hnd.
  subst g'. destruct (update g dt) as [res g'] eqn:Hu. cbn [snd].
  destruct (update_effect g dt res g' Hnd Hu) as (_ & _ & Hout & Hin & Hb).
  split.
  - destruct res; rewrite Hb; [apply sublist_filter | reflexivity].
  - intros r b Hr. destruct (decide (r ∈ balls g)) as [Hw | Hw].
    + destruct (Hin r b Hw Hr) as [c ->]. eexists. split; [reflexivity |].
      destruct (stepped_fields g dt b) as (Ei & Ef & Er & _).
      cbn [id radius in_inventory set_color]. done.
    + exists b. rewrite (Hout r Hw). done.
Qed.

(** X12: [update] changes the velocity of a ball in sign at most: on
    each axis its absolute value is the one before the call. *)
Theorem update_keeps_speed g dt r b :
  reachable hypot g -> heap g !! r = Some b ->
  exists b',
    heap (update g dt).2 !! r = Some b' /\
    abs (velocity b').1 = abs (velocity b).1 /\
    abs (velocity b').2 = abs (velocity b).2.
Proof.
  intros Hg Hr. pose proof (reachable_Inv hypot g Hg) as HI.
  pose proof (Inv_NoDup_balls g HI) as Hnd.
  destruct (update g dt) as [res g'] eqn:Hu. cbn [snd].
  destruct (update_effect g dt res g' Hnd Hu) as (_ & _ & Hout & Hin & _).
  destruct (decide (r ∈ balls g)) as [Hw | Hw].
  - destruct (Hin r b Hw Hr) as [c ->]. eexists. split; [reflexivity |].
    cbn [velocity set_color]. apply speed_stepped.
  - exists b. rewrite (Hout r Hw). done.
Qed.

(** X14: from a fresh engine, after any calls that create balls of
    colours in the range of [float] only, every call returns.  The
    positions, velocities, radii, time steps, directions and speeds of
    the calls are [float]s, as the code annotates them; a Python [int]
    passed for one of them is not a call of this theorem (it can
    overflow when it meets a [float]). *)
Theorem engine_never_raises calls c w h dz :
  Forall (valid_call color_ok) calls ->
  call_returns hypot c (run hypot calls (new_GameLogic w h dz)) = true.
Proof.
  intros Hv.
  destruct (run_invariant hypot color_ok color_ok_mix calls
              (new_GameLogic w h dz) Hv)
    as [HI Hs]; [apply Inv_new | intros r b; discriminate |].
  set (g := run hypot calls (new_GameLogic w h dz)) in *.
  destruct c as [p v rad col | dt | mp r n | mp d s b]; cbn [call_returns].
  - reflexivity.
  - destruct (update_returns g dt) as [g' ->]; [| | reflexivity].
    + apply Inv_NoDup_balls. exact HI.
    + intros r b _. apply Hs.
  - destruct (suck_effect g mp r n HI) as (g' & -> & _). reflexivity.
  - pose proof (spit_effect hypot g mp d s b HI) as H.
    destruct (spit_ball_from_inventory hypot g mp d s b) as [res g'].
    destruct H as [[-> _] | (r & pre & post & -> & _)]; reflexivity.
Qed.

(** X15: from a fresh engine, after any calls that create balls of
    channels in [0, 255] only, every ball of the store, in a collection
    or not, has its channels in [0, 255]. *)
Theorem engine_colors_stay_bytes calls w h dz :
  Forall (valid_call byte_color) calls ->
  store_colors byte_color (run hypot calls (new_GameLogic w h dz)).
Proof.
  intros Hv.
  apply (run_invariant hypot byte_color); [| exact Hv | apply Inv_new |].
  - intros c1 c2 m _ _. apply byte_color_mix.
  - intros r b. discriminate.
Qed.

(** X13: when [update] raises in a state of the engine, the exception is
    [OverflowError] and a world ball has a channel out of the range of
    [float]; no ball has left the world, the inventory is as before, and
    every world ball is as the move and the clamp of this frame make it,
    in position and in velocity, with the colour that the collisions
    before the failing one gave it.  The state is one of [float]
    positions, velocities and radii, and the time step a [float], as the
    code annotates them; a Python [int] among them is outside this
    theorem (it can overflow in [Ball.move]). *)
Theorem update_raises_after_moving g dt e g' :
  reachable hypot g -> update g dt = (Raises e, g') ->
  e = OverflowError /\ ~ colors_ok g /\
  balls g' = balls g /\ inventory g' = inventory g /\
  (forall r b, r ∈ balls g -> heap g !! r = Some b ->
     exists c, heap g' !! r = Some (set_color c (stepped g dt b))) /\
  (forall r, r ∉ balls g -> heap g' !! r = heap g !! r).
Proof.
  intros Hg Hu. pose proof (reachable_Inv hypot g Hg) as HI.
  pose proof (Inv_NoDup_balls g HI) as Hnd.
  destruct (update_effect g dt _ g' Hnd Hu) as (_ & Hi & Hout & Hin & Hb).
  split; [| split; [| split; [exact Hb | split; [exact Hi |]]]].
  - unfold update in Hu.
    destruct (_mix_colors_on_collisions _) as [[[] | e1] g2] eqn:Hmix;
      [discriminate |].
    injection Hu as <- <-. eapply for_each_collide_raises. exact Hmix.
  - intros Hc. destruct (update_returns g dt Hnd Hc) as [g1 Hu1]. congruence.
  - split; [exact Hin | exact Hout].
Qed.

(** X19: after [suck_balls_with_mouse] without a limit, the same call
    again returns the empty list and leaves the state as it is. *)
Theorem suck_twice_moves_nothing g mouse_pos radius :
  reachable hypot g ->
  exists moved g',
    suck_balls_with_mouse g mouse_pos radius None = (Returns moved, g') /\
    suck_balls_with_mouse g' mouse_pos radius None = (Returns [], g').
Proof.
  intros Hg. pose proof (reachable_Inv hypot g Hg) as HI.
  pose proof (Inv_suck g mouse_pos radius None HI) as HI'.
  destruct (suck_effect g mouse_pos radius None HI)
    as (g' & Hrun & Hf & Hh & Hb & Hi).
  rewrite Hrun in HI'. cbn [snd] in HI'.
  exists (in_reach g mouse_pos (default (mouse_suck_radius g) radius) None), g'.
  split; [exact Hrun |].
  destruct (suck_effect g' mouse_pos radius None HI')
    as (g2 & Hrun' & Hf' & Hh' & Hb' & Hi').
  assert (EM : in_reach g' mouse_pos (default (mouse_suck_radius g') radius)
                 None = []).
  { destruct Hf as (_ & _ & _ & -> & _). unfold in_reach.
    apply elem_of_nil_inv. intros x [Hx Hw]%list_elem_of_filter.
    rewrite (within_flagged g g' _ _ _ x Hh) in Hx.
    rewrite Hb in Hw. apply list_elem_of_filter in Hw as [Hn Hw].
    apply Hn. unfold in_reach. apply list_elem_of_filter. done. }
  rewrite EM in Hrun', Hh', Hb', Hi'. rewrite Hrun'. f_equal.
  apply GameLogic_ext.
  - exact Hf'.
  - exact Hh'.
  - rewrite Hb'. apply filter_all. intros x _. apply not_elem_of_nil.
  - rewrite Hi'. apply app_nil_r.
Qed.

(** X17: with a limit [max_count] of zero or less,
    [suck_balls_with_mouse] returns the empty list and leaves the state as
    it is, in any state. *)
Theorem suck_limit_not_positive g mouse_pos radius n :
  n <= 0 ->
  suck_balls_with_mouse g mouse_pos radius (Some n) = (Returns [], g).
Proof.
  intros Hn. unfold suck_balls_with_mouse.
  destruct (balls g) as [| x rest]; cbn [suck_loop limit_reached length];
    [reflexivity |].
  destruct (Z.leb_spec n (Z.of_nat 0)); [reflexivity | lia].
Qed.

Lemma suck_loop_out_of_reach mp rsq mc rest : forall moved g,
  (forall r, within g mp rsq r = false) ->
  suck_loop mp rsq mc rest moved g = (Returns moved, g).
Proof.
  induction rest as [| x rest IH]; intros moved g Hw; cbn [suck_loop];
    [reflexivity |].
  destruct (limit_reached mc moved); [reflexivity |].
  rewrite Hw. apply IH. exact Hw.
Qed.

(** X18: with a radius that is not a number, [suck_balls_with_mouse]
    returns the empty list and leaves the state as it is, in any state. *)
Theorem suck_nan_radius g mouse_pos max_count :
  suck_balls_with_mouse g mouse_pos (Some nan) max_count = (Returns [], g).
Proof.
  unfold suck_balls_with_mouse. apply suck_loop_out_of_reach.
  intros r. unfold within. destruct (heap g !! r); [| reflexivity].
  apply leb_nan_r.
Qed.

(** X20: in a state of the engine, [suck_balls_with_mouse] and
    [spit_ball_from_inventory] pass balls from one collection to the
    other and do nothing else to them: the world and the inventory
    together hold the same balls after the call as before, and
    [len(inventory)] grows by the number of balls sucked, or falls by one
    when a ball is spat. *)
Theorem suck_and_spit_keep_the_balls g :
  reachable hypot g ->
  (forall mouse_pos radius max_count,
     exists moved g',
       suck_balls_with_mouse g mouse_pos radius max_count
       = (Returns moved, g') /\
       balls g' ++ inventory g' ≡ₚ balls g ++ inventory g /\
       __len__ g' = __len__ g + Z.of_nat (length moved)) /\
  (forall mouse_pos direction speed ball,
     exists spat g',
       spit_ball_from_inventory hypot g mouse_pos direction speed ball
       = (Returns spat, g') /\
       balls g' ++ inventory g' ≡ₚ balls g ++ inventory g /\
       __len__ g' = __len__ g - match spat with Some _ => 1 | None => 0 end).
Proof.
  intros Hg. pose proof (reachable_Inv hypot g Hg) as HI. split.
  - intros mp radius mc.
    destruct (suck_effect g mp radius mc HI) as (g' & Hrun & _ & _ & Hb & Hi).
    eexists _, g'. split; [exact Hrun |].
    set (M := in_reach _ _ _ _) in *. split.
    + rewrite Hb, Hi.
      rewrite (Permutation_app_comm (inventory g) M), app_assoc.
      apply Permutation_app_tail. apply Permutation_filter_sublist.
      * apply Inv_NoDup_balls. exact HI.
      * apply in_reach_sublist.
    + unfold __len__. rewrite Hi, length_app. lia.
  - intros mp d s ball. pose proof (spit_effect hypot g mp d s ball HI) as H.
    destruct (spit_ball_from_inventory hypot g mp d s ball) as [res g'].
    destruct H as [[-> ->] | (r & pre & post & -> & Ei & Ei' & Eb & _)].
    + exists None, g. split; [reflexivity |]. split; [reflexivity | lia].
    + exists (Some r), g'. split; [reflexivity |]. split.
      * rewrite Eb, Ei, Ei', <- app_assoc. apply Permutation_app_head.
        cbn. apply Permutation_middle.
      * unfold __len__. rewrite Ei, Ei', !length_app. cbn [length]. lia.
Qed.

(** X21: the ball that [spit_ball_from_inventory], given no ball,
    returns after [suck_balls_with_mouse] is the last ball that call
    moved; it is appended to the world at the position given, and the
    inventory keeps the other balls. *)
Theorem spit_returns_last_sucked g mouse_pos radius max_count moved g1 r
    mouse_pos' direction speed :
  reachable hypot g ->
  suck_balls_with_mouse g mouse_pos radius max_count = (Returns moved, g1) ->
  last moved = Some r ->
  exists g2,
    spit_ball_from_inventory hypot g1 mouse_pos' direction speed None
    = (Returns (Some r), g2) /\
    balls g2 = balls g1 ++ [r] /\
    inventory g2 = inventory g ++ removelast moved /\
    position <$> heap g2 !! r = Some mouse_pos'.
Proof.
  intros Hg Hrun Hl. pose proof (reachable_Inv hypot g Hg) as HI.
  pose proof (Inv_suck g mouse_pos radius max_count HI) as HI1.
  destruct (suck_effect g mouse_pos radius max_count HI)
    as (g' & Hrun' & _ & _ & _ & Hi).
  rewrite Hrun in Hrun', HI1. injection Hrun' as EM <-. cbn [snd] in HI1.
  rewrite <- EM in Hi.
  apply last_Some in Hl as [pre ->].
  rewrite app_assoc in Hi.
  destruct (spit_last hypot g1 mouse_pos' direction speed r _ Hi)
    as (g2 & Hspit & _ & Ei2 & Eb2 & Eh2 & _).
  exists g2. split; [exact Hspit |]. split; [exact Eb2 |].
  split; [rewrite Ei2, app_nil_r, removelast_last; reflexivity |].
  assert (Hin : r ∈ inventory g1).
  { rewrite Hi. apply elem_of_app. right. apply list_elem_of_here. }
  destruct (Inv_valid_inventory g1 r HI1 Hin) as [b Hb].
  rewrite Eh2, list_lookup_alter_eq, Hb. reflexivity.
Qed.

End EngineTheorems.

Section Gone.

Variable hypot : float -> float -> float.

Implicit Types (g : GameLogic) (r : ref) (b : Ball) (l : list ref).

(** A call brings no ball into the collections but the one it creates. *)
Lemma exec_live c g x :
  Inv g -> x ∈ balls (exec hypot c g) ++ inventory (exec hypot c g) ->
  x ∈ balls g ++ inventory g \/ x = length (heap g).
Proof.
  intros HI. destruct c as [p v rad col | dt | mp rd n | mp d s ball];
    cbn [exec].
  - cbn [create_ball snd balls inventory heap].
    rewrite !elem_of_app, list_elem_of_singleton. tauto.
  - destruct (update g dt) as [res g'] eqn:Hu. cbn [snd].
    destruct (update_effect g dt res g' (Inv_NoDup_balls g HI) Hu)
      as (_ & -> & _ & _ & Hb).
    rewrite !elem_of_app. intros [Hx | Hx]; [| tauto]. left. left.
    destruct res as [u | e].
    + revert Hx. rewrite Hb. intros [_ Hx]%list_elem_of_filter. exact Hx.
    + revert Hx. rewrite Hb. done.
  - destruct (suck_effect g mp rd n HI) as (g' & -> & _ & _ & Hb & Hi).
    cbn [snd]. rewrite Hb, Hi, !elem_of_app.
    intros [[_ Hx]%list_elem_of_filter | [Hx | Hx]]; [tauto | tauto |].
    left. left. eapply elem_of_sublist; [exact Hx | apply in_reach_sublist].
  - pose proof (spit_effect hypot g mp d s ball HI) as H.
    destruct (spit_ball_from_inventory hypot g mp d s ball) as [res g'].
    cbn [snd].
    destruct H as [[_ ->] | (r & pre & post & _ & Ei & Ei' & Eb & _)];
      [tauto |].
    rewrite Ei, Ei', Eb, !elem_of_app, list_elem_of_singleton, elem_of_cons.
    tauto.
Qed.

Lemma run_gone calls : forall g r,
  Inv g -> (r < length (heap g))%nat -> r ∉ balls g ++ inventory g ->
  r ∉ balls (run hypot calls g) ++ inventory (run hypot calls g).
Proof.
  induction calls as [| c calls IH]; intros g r HI Hr Hout; [exact Hout |].
  cbn [run fold_left]. apply IH.
  - apply Inv_exec. exact HI.
  - pose proof (exec_heap_length hypot c g HI). lia.
  - intros Hx. apply exec_live in Hx as [Hx | ->]; [contradiction | lia |].
    exact HI.
Qed.

(** X22: a ball of the store that is in neither collection, as one
    removed by the delete zone is, is in neither collection after any
    further calls. *)
Theorem removed_ball_never_returns g (r : ref) calls :
  reachable hypot g -> is_Some (heap g !! r) ->
  r ∉ balls g ++ inventory g ->
  r ∉ balls (run hypot calls g) ++ inventory (run hypot calls g).
Proof.
  intros Hg Hr. apply run_gone.
  - apply (reachable_Inv hypot). exact Hg.
  - apply lookup_lt_is_Some. exact Hr.
Qed.

End Gone.

(** *** Coordinates that are not numbers *)

Section NotANumber.

Variable hypot : float -> float -> float.

Implicit Types (g : GameLogic) (r : ref) (b : Ball) (l : list ref)
  (x y : float).

Lemma add_nan_l y : (nan + y = nan)%float.
Proof. apply Prim2SF_inj. rewrite add_spec. reflexivity. Qed.

Lemma sub_nan_l y : (nan - y = nan)%float.
Proof. apply Prim2SF_inj. rewrite sub_spec. reflexivity. Qed.

Lemma mul_nan_l y : (nan * y = nan)%float.
Proof. apply Prim2SF_inj. rewrite mul_spec. reflexivity. Qed.

Lemma ltb_nan_l y : (nan <? y)%float = false.
Proof. rewrite ltb_spec. reflexivity. Qed.

Lemma ltb_nan_r x : (x <? nan)%float = false.
Proof.
  rewrite ltb_spec. change (Prim2SF nan) with S754_nan.
  unfold SFltb. destruct (Prim2SF x); reflexivity.
Qed.

Lemma leb_nan_l y : (nan <=? y)%float = false.
Proof. rewrite leb_spec. reflexivity. Qed.

Lemma bounce_nan vx rad dim : bounce nan vx rad dim = (nan, vx).
Proof.
  unfold bounce. rewrite sub_nan_l, ltb_nan_l, add_nan_l, ltb_nan_r.
  reflexivity.
Qed.

Lemma stepped_nan g dt b :
  in_inventory b = false -> (position b).1 = nan ->
  (position (stepped g dt b)).1 = nan.
Proof.
  destruct b as [i [px py] [vx vy] rad col fl]. cbn. intros -> ->.
  unfold stepped, move, keep_inside. cbn.
  rewrite add_nan_l, bounce_nan.
  destruct (bounce _ vy rad (height g)). reflexivity.
Qed.

Lemma contains_nan dz y : contains dz (nan, y) = false.
Proof. unfold contains. rewrite leb_nan_r. reflexivity. Qed.

Lemma _distance_sq_nan y mp : _distance_sq (nan, y) mp = nan.
Proof.
  destruct mp as [mx my]. unfold _distance_sq.
  rewrite sub_nan_l, mul_nan_l, add_nan_l. reflexivity.
Qed.

(** A world ball whose first coordinate is NaN. *)
Lemma exec_lost c g r :
  Inv g -> lost g r -> lost (exec hypot c g) r.
Proof.
  intros HI (Hw & b & Hb & Hx).
  destruct c as [p v rad col | dt | mp rd n | mp d s ball]; cbn [exec].
  - split; [| exists b; split; [| exact Hx]].
    + cbn. apply elem_of_app. left. exact Hw.
    + cbn. apply lookup_app_l_Some. exact Hb.
  - destruct (update g dt) as [res g'] eqn:Hu. cbn [snd].
    destruct (update_effect g dt res g' (Inv_NoDup_balls g HI) Hu)
      as ((_ & _ & Hdz & _) & _ & _ & Hin & Hbs).
    destruct (Hin r b Hw Hb) as [c Hb'].
    pose proof (stepped_nan g dt b (Inv_world_flag g r b HI Hw Hb) Hx) as Hx'.
    split; [| exists (set_color c (stepped g dt b)); done].
    destruct res as [u | e]; rewrite Hbs; [| exact Hw].
    apply list_elem_of_filter. split; [| exact Hw].
    unfold in_delete_zone. rewrite Hb', Hdz. cbn [position set_color].
    destruct (position (stepped g dt b)) as [x y]. cbn [fst] in Hx'.
    rewrite Hx', contains_nan. intros [].
  - destruct (suck_effect g mp rd n HI) as (g' & -> & _ & Hh & Hbs & _).
    cbn [snd].
    assert (Hn : r ∉ in_reach g mp (default (mouse_suck_radius g) rd) n).
    { intros Hr.
      assert (Hf : r ∈ filter
                (fun ball => within g mp
                   (default (mouse_suck_radius g) rd
                    * default (mouse_suck_radius g) rd)%float ball)
                (balls g)).
      { unfold in_reach in Hr. destruct n; [| exact Hr].
        eapply elem_of_sublist; [exact Hr | apply sublist_take]. }
      apply list_elem_of_filter in Hf as [Hf _]. unfold within in Hf.
      rewrite Hb in Hf. destruct (position b) as [x y]. cbn [fst] in Hx.
      rewrite Hx, _distance_sq_nan, leb_nan_l in Hf. exact Hf. }
    split.
    + rewrite Hbs. apply list_elem_of_filter. done.
    + exists b. rewrite Hh, lookup_flagged, decide_False by exact Hn. done.
  - pose proof (spit_effect hypot g mp d s ball HI) as H.
    destruct (spit_ball_from_inventory hypot g mp d s ball) as [res g'].
    cbn [snd].
    destruct H as [[_ ->] | (r' & pre & post & _ & Ei & _ & Eb & Eh & _)].
    + split; [exact Hw | exists b; done].
    + assert (Hne : r' <> r).
      { intros ->. apply (Inv_disjoint g r HI Hw). rewrite Ei.
        apply elem_of_app. right. apply list_elem_of_here. }
      split.
      * rewrite Eb. apply elem_of_app. left. exact Hw.
      * exists b. rewrite Eh, list_lookup_alter_ne by exact Hne. done.
Qed.

Lemma run_lost calls : forall g r,
  Inv g -> lost g r -> lost (run hypot calls g) r.
Proof.
  induction calls as [| c calls IH]; intros g r HI Hl; [exact Hl |].
  cbn [run fold_left]. apply IH.
  - apply Inv_exec. exact HI.
  - apply exec_lost; assumption.
Qed.

(** X23: a world ball whose first coordinate is not a number stays in
    the world, with such a coordinate, through any further calls: no
    wall turns it back, the delete zone does not contain it and no radius
    reaches it. *)
Theorem nan_ball_stays_forever g (r : ref) calls :
  reachable hypot g -> lost g r -> lost (run hypot calls g) r.
Proof.
  intros Hg. apply run_lost. apply (reachable_Inv hypot). exact Hg.
Qed.

End NotANumber.

(** *** A ball spat and sucked back *)

Section RoundTrip.

Variable hypot : float -> float -> float.

Implicit Types (g : GameLogic) (r : ref) (b : Ball) (l : list ref)
  (x y : float).

Lemma is_finite_spec x :
  is_finite x = true ->
  (exists sg, Prim2SF x = S754_zero sg)
  \/ exists sg m e, Prim2SF x = S754_finite sg m e.
Proof.
  unfold is_finite, is_nan, is_infinity.
  rewrite !FloatAxioms.eqb_spec, abs_spec.
  change (Prim2SF infinity) with (S754_infinity false). unfold SFeqb.
  destruct (Prim2SF x) as [sg | [] | | sg m e]; cbn; try discriminate;
    intros _; [left | right]; eauto.
Qed.

Lemma is_nan_spec x : is_nan x = false -> Prim2SF x <> S754_nan.
Proof.
  unfold is_nan. rewrite FloatAxioms.eqb_spec. unfold SFeqb.
  intros H E. rewrite E in H. discriminate.
Qed.

(** A finite number minus itself is zero. *)
Lemma sub_diag x : is_finite x = true -> (x - x = 0)%float.
Proof.
  intros [[sg E] | (sg & m & e & E)]%is_finite_spec; apply Prim2SF_inj;
    rewrite sub_spec, E, Prim2SF_zero.
  - destruct sg; reflexivity.
  - unfold SF64sub, SFsub. rewrite Z.sub_diag. reflexivity.
Qed.

Lemma _distance_sq_diag (p : Vec2) :
  is_finite p.1 = true -> is_finite p.2 = true -> _distance_sq p p = 0%float.
Proof.
  destruct p as [x y]. cbn [fst snd]. intros Hx Hy. unfold _distance_sq.
  rewrite (sub_diag x Hx), (sub_diag y Hy). reflexivity.
Qed.

(** The square of a number is at least zero. *)
Lemma leb_zero_square x : is_nan x = false -> (0 <=? x * x)%float = true.
Proof.
  intros Hn%is_nan_spec. rewrite leb_spec, mul_spec, Prim2SF_zero.
  pose proof (sf_square_mul (Prim2SF x)) as Hs.
  destruct (Prim2SF x) as [sg | sg | | sg m e]; try congruence;
    try (destruct sg; reflexivity).
  unfold SF64mul, SFmul in *.
  pose proof (binary_round_aux_sign (xorb sg sg) (Z.pos (m * m)) (e + e)
                loc_Exact ltac:(lia)) as H.
  destruct (binary_round_aux _ _ _ _ _ _) as [[] | [] | | [] ? ?];
    try discriminate; try contradiction; reflexivity.
Qed.

(** X26: in a state of the engine, the ball spat at a position of finite
    coordinates is sucked back by a call at that position, whatever
    the radius, if it is a number: its distance to the mouse is zero.  It
    is the last of the balls sucked. *)
Theorem spat_ball_is_sucked_back g mouse_pos direction speed radius r :
  reachable hypot g -> last (inventory g) = Some r ->
  is_finite mouse_pos.1 = true -> is_finite mouse_pos.2 = true ->
  is_nan (default 80%float radius) = false ->
  exists g1 moved g2,
    spit_ball_from_inventory hypot g mouse_pos direction speed None
    = (Returns (Some r), g1) /\
    suck_balls_with_mouse g1 mouse_pos radius None = (Returns moved, g2) /\
    last moved = Some r /\ r ∈ inventory g2 /\ (r ∉ balls g2).
Proof.
  intros Hg Hl Hx Hy Hrad. pose proof (reachable_Inv hypot g Hg) as HI.
  apply last_Some in Hl as [pre Ei].
  destruct (spit_last hypot g mouse_pos direction speed r pre Ei)
    as (g1 & Hspit & _ & Ei1 & Eb1 & Eh1 & Hf1).
  pose proof (Inv_spit hypot g mouse_pos direction speed None HI) as HI1.
  rewrite Hspit in HI1. cbn [snd] in HI1.
  destruct (suck_effect g1 mouse_pos radius None HI1)
    as (g2 & Hsuck & _ & _ & Hb2 & Hi2).
  rewrite (inv_radius g1 HI1) in Hsuck, Hb2, Hi2.
  assert (Hin : r ∈ inventory g).
  { rewrite Ei. apply elem_of_app. right. apply list_elem_of_here. }
  destruct (Inv_valid_inventory g r HI Hin) as [b Hb].
  assert (Hw : within g1 mouse_pos
                 (default 80%float radius * default 80%float radius)%float r
               = true).
  { unfold within. rewrite Eh1, list_lookup_alter_eq, Hb. cbn.
    rewrite (_distance_sq_diag mouse_pos Hx Hy). apply leb_zero_square.
    exact Hrad. }
  assert (EM : in_reach g1 mouse_pos (default 80%float radius) None
               = filter (fun ball =>
                           within g1 mouse_pos
                             (default 80%float radius
                              * default 80%float radius)%float ball)
                   (balls g) ++ [r]).
  { unfold in_reach. rewrite Eb1, filter_app. f_equal.
    rewrite filter_cons_True by (rewrite Hw; exact I). reflexivity. }
  exists g1, (in_reach g1 mouse_pos (default 80%float radius) None), g2.
  split; [exact Hspit |]. split; [exact Hsuck |].
  split; [rewrite EM; apply last_snoc |]. split.
  - rewrite Hi2, EM. rewrite !elem_of_app, list_elem_of_singleton. tauto.
  - rewrite Hb2. intros [Hn _]%list_elem_of_filter. apply Hn.
    rewrite EM. apply elem_of_app. right. apply list_elem_of_here.
Qed.

End RoundTrip.

(** ** The further properties at sample states *)

Lemma glare_logic_reachable : reachable hypot_sqrt glare_logic.
Proof.
  exact (reachable_exec hypot_sqrt
           (CreateBall (130, 100)%float (-50, 0)%float 20 (0, 0, 255)) _
           (reachable_exec hypot_sqrt
              (CreateBall (100, 100)%float (50, 0)%float 20 (2 ^ 1024, 0, 0)) _
              (reachable_new hypot_sqrt 800 600
                 (mkDeleteZone 0 560 200 600)))).
Defined.

Lemma zone_purged_reachable : reachable hypot_sqrt zone_purged.
Proof.
  exact (reachable_exec hypot_sqrt (Update 1) _ zone_logic_reachable).
Defined.

Lemma sample_calls_valid (P : Color -> Prop) :
  P (255, 0, 0) -> P (0, 0, 255) -> Forall (valid_call P) sample_calls.
Proof.
  intros H1 H2. unfold sample_calls.
  repeat (constructor; [first [exact H1 | exact H2 | exact I] |]).
  constructor.
Defined.

(** A third ball for the demonstration gets the id 3. *)
Lemma create_ball_fresh_id_witness :
  let g' := (create_ball demo_logic (0, 0)%float (0, 0)%float 5 (1, 2, 3)).2 in
  heap g' !! 2%nat
  = Some (mkBall 3 (0, 0)%float (0, 0)%float 5 (1, 2, 3) false) /\
  _next_ball_id g' = 3 + 1 /\
  (forall (r' : ref) b', heap demo_logic !! r' = Some b' ->
     heap g' !! r' = Some b' /\ 1 <= id b' < 3) /\
  distinct_ids (heap g').
Proof.
  exact (create_ball_fresh_id hypot_sqrt demo_logic (0, 0)%float (0, 0)%float
           5 (1, 2, 3) demo_logic_reachable).
Defined.

(** One frame of the demonstration. *)
Lemma update_keeps_identity_witness :
  let g' := (update demo_logic (1 / 60)%float).2 in
  balls g' `sublist_of` balls demo_logic /\
  forall (r : ref) b, heap demo_logic !! r = Some b ->
    exists b', heap g' !! r = Some b' /\ id b' = id b /\
               radius b' = radius b /\ in_inventory b' = in_inventory b.
Proof.
  exact (update_keeps_identity hypot_sqrt demo_logic (1 / 60)%float
           demo_logic_reachable).
Defined.

(** The first ball of the demonstration, one frame later. *)
Lemma update_keeps_speed_witness :
  exists b',
    heap (update demo_logic (1 / 60)%float).2 !! 0%nat = Some b' /\
    abs (velocity b').1 = 50%float /\ abs (velocity b').2 = 0%float.
Proof.
  exact (update_keeps_speed hypot_sqrt demo_logic (1 / 60)%float 0%nat
           overlap_red demo_logic_reachable eq_refl).
Defined.

(** After the sample run, a frame returns. *)
Lemma engine_never_raises_witness :
  call_returns hypot_sqrt (Update (1 / 60)%float)
    (run hypot_sqrt sample_calls
       (new_GameLogic 800 600 (mkDeleteZone 0 560 200 600))) = true.
Proof.
  apply (engine_never_raises hypot_sqrt sample_calls).
  apply sample_calls_valid; repeat split.
Defined.

(** The colours after the sample run. *)
Lemma engine_colors_stay_bytes_witness :
  store_colors byte_color
    (run hypot_sqrt sample_calls
       (new_GameLogic 800 600 (mkDeleteZone 0 560 200 600))).
Proof.
  apply (engine_colors_stay_bytes hypot_sqrt sample_calls).
  apply sample_calls_valid; unfold byte_color; cbn; lia.
Defined.

(** The frame of the two overlapping balls, one of a colour out of range:
    it raises, the balls moved and clamped, both still in the world. *)
Lemma update_raises_after_moving_witness :
  exists g' c,
    update glare_logic (1 / 60)%float = (Raises OverflowError, g') /\
    balls g' = [0%nat; 1%nat] /\
    heap g' !! 0%nat
    = Some (set_color c
              (stepped glare_logic (1 / 60)%float
                 (mkBall 1 (100, 100)%float (50, 0)%float 20
                    (2 ^ 1024, 0, 0) false))).
Proof.
  assert (Hu : update glare_logic (1 / 60)%float
               = (Raises OverflowError, (update glare_logic (1 / 60)%float).2))
    by (vm_compute; reflexivity).
  destruct (update_raises_after_moving hypot_sqrt glare_logic (1 / 60)%float
              OverflowError _ glare_logic_reachable Hu)
    as (_ & _ & Hb & _ & Hp & _).
  destruct (Hp 0%nat _ (list_elem_of_here _ _) eq_refl) as [c Hc].
  eexists _, c. split; [exact Hu |]. split; [exact Hb | exact Hc].
Defined.

(** Both balls of the demonstration are sucked; a second call finds none. *)
Lemma suck_twice_moves_nothing_witness :
  exists moved g',
    suck_balls_with_mouse demo_logic (150, 100)%float None None
    = (Returns moved, g') /\
    suck_balls_with_mouse g' (150, 100)%float None None = (Returns [], g').
Proof.
  exact (suck_twice_moves_nothing hypot_sqrt demo_logic (150, 100)%float None
           demo_logic_reachable).
Defined.

(** A limit of 0 on the demonstration. *)
Lemma suck_limit_not_positive_witness :
  suck_balls_with_mouse demo_logic (150, 100)%float None (Some 0)
  = (Returns [], demo_logic).
Proof.
  apply (suck_limit_not_positive demo_logic (150, 100)%float None 0). lia.
Defined.

(** The demonstration with both balls in the inventory. *)
Lemma suck_and_spit_keep_the_balls_witness :
  (forall mouse_pos radius max_count,
     exists moved g',
       suck_balls_with_mouse demo_sucked mouse_pos radius max_count
       = (Returns moved, g') /\
       balls g' ++ inventory g' ≡ₚ balls demo_sucked ++ inventory demo_sucked /\
       __len__ g' = __len__ demo_sucked + Z.of_nat (length moved)) /\
  (forall mouse_pos direction speed ball,
     exists spat g',
       spit_ball_from_inventory hypot_sqrt demo_sucked mouse_pos direction
         speed ball = (Returns spat, g') /\
       balls g' ++ inventory g' ≡ₚ balls demo_sucked ++ inventory demo_sucked /\
       __len__ g' = __len__ demo_sucked
                    - match spat with Some _ => 1 | None => 0 end).
Proof.
  exact (suck_and_spit_keep_the_balls hypot_sqrt demo_sucked
           demo_sucked_reachable).
Defined.

(** The demonstration: the balls 0 and 1 are sucked, the ball 1 is spat. *)
Lemma spit_returns_last_sucked_witness :
  exists g2,
    spit_ball_from_inventory hypot_sqrt demo_sucked (400, 300)%float
      (Some (1, 0)%float) None None = (Returns (Some 1%nat), g2) /\
    balls g2 = balls demo_sucked ++ [1%nat] /\
    inventory g2 = inventory demo_logic ++ removelast [0%nat; 1%nat] /\
    position <$> heap g2 !! 1%nat = Some (400, 300)%float.
Proof.
  exact (spit_returns_last_sucked hypot_sqrt demo_logic (150, 100)%float None
           None [0%nat; 1%nat] demo_sucked 1%nat (400, 300)%float
           (Some (1, 0)%float) None demo_logic_reachable eq_refl eq_refl).
Defined.

(** The ball that fell into the delete zone is not spat back. *)
Lemma removed_ball_never_returns_witness :
  0%nat ∉
    balls (run hypot_sqrt
             [Spit (100, 100)%float None None (Some 0%nat); Update 1]
             zone_purged)
    ++ inventory (run hypot_sqrt
                    [Spit (100, 100)%float None None (Some 0%nat); Update 1]
                    zone_purged).
Proof.
  apply (removed_ball_never_returns hypot_sqrt zone_purged 0%nat).
  - exact zone_purged_reachable.
  - eexists. reflexivity.
  - apply not_elem_of_nil.
Defined.

Lemma nan_logic_reachable : reachable hypot_sqrt nan_logic.
Proof.
  exact (reachable_exec hypot_sqrt
           (CreateBall (nan, 580)%float (0, 0)%float 20 (255, 0, 0)) _
           (reachable_new hypot_sqrt 800 600 (mkDeleteZone 0 560 200 600))).
Defined.

(** A ball created at (NaN, 580) is still in the world after a frame and
    a call to suck it. *)
Lemma nan_ball_stays_forever_witness :
  lost
    (run hypot_sqrt
       [Update (1 / 60)%float; Suck (100, 580)%float (Some infinity) None]
       nan_logic) 0%nat.
Proof.
  apply (nan_ball_stays_forever hypot_sqrt nan_logic 0%nat).
  - exact nan_logic_reachable.
  - split; [apply list_elem_of_here |]. eexists. split; reflexivity.
Defined.

(** The last ball of the inventory, spat at (400, 300) and sucked back
    there with a radius of zero. *)
Lemma spat_ball_is_sucked_back_witness :
  exists g1 moved g2,
    spit_ball_from_inventory hypot_sqrt demo_sucked (400, 300)%float None None
      None = (Returns (Some 1%nat), g1) /\
    suck_balls_with_mouse g1 (400, 300)%float (Some 0%float) None
    = (Returns moved, g2) /\
    last moved = Some 1%nat /\ 1%nat ∈ inventory g2 /\ (1%nat ∉ balls g2).
Proof.
  exact (spat_ball_is_sucked_back hypot_sqrt demo_sucked (400, 300)%float None
           None (Some 0%float) 1%nat demo_sucked_reachable eq_refl eq_refl
           eq_refl eq_refl).
Defined.
